(** * A batched linear-chain CRF: forward scorer, gold-path scorer, Viterbi decoder

    Shallow embedding of [python/baseline/pytorch/crf.py]: the class [CRF]
    ([__init__], [extra_repr], [transitions], [neg_log_loss],
    [score_sentence], [forward], [decode]) and the function [viterbi].

    Tensors are nested lists: an emission tensor [T, B, N] is a list of [T]
    rows, each a list of [B] score vectors of length [N]; the transition
    tensor [1, N, N] is kept as its [N x N] matrix (the broadcast dimension
    of size one is dropped, and so are the final [squeeze]s, which turn a
    batch of one into a scalar); [LongTensor]s hold integers ([Z]).  A nested
    list cannot record the inner sizes of a tensor whose leading dimension
    is empty, and the operations are modelled on tensors whose shapes agree
    (PyTorch rejects a broadcast of mismatching shapes before computing
    anything), but for the length mask of [score_sentence]: it has the
    steps below the longest length, and [masked_fill] broadcasts it over
    the steps of the scores or raises; the index errors of the code are
    kept, as [None].

    Scores are elements of a type [V] with the operations the code uses
    ([+], [-], comparison, the constants [0.] and [-1e4]).  The theorems hold
    in exact arithmetic: they are stated for any [V] on which addition is an
    ordered commutative monoid, with the integers and the reals as
    instances; rounding of floating-point addition is not modelled.

    The file has the embedding first (pure functions, then the same methods
    over a store of tensor objects, then [viterbi] with its flag [norm] and
    [extra_repr]), then the definitions the statements use, then the lemmas
    and the theorems for C1 to C10 and for the further properties X1 to
    X21. *)

From Stdlib Require Import ZArith Reals Lra Lia Ascii.
From stdpp Require Import base tactics option list numbers strings pretty.

(** ** Scores *)

Class Score (V : Type) := {
  s0 : V;                       (* the literal 0. *)
  sneg1e4 : V;                  (* the literal -1e4 *)
  sadd : V → V → V;
  ssub : V → V → V;
  sleb : V → V → bool;          (* x <= y *)
}.

Declare Scope score_scope.
Delimit Scope score_scope with score.
Infix "⊕" := sadd (at level 50, left associativity) : score_scope.
Infix "⊖" := ssub (at level 50, left associativity) : score_scope.
Notation "x ⊑ y" := (sleb x y = true) (at level 70) : score_scope.
Local Open Scope score_scope.

(** Exact arithmetic: what the theorems assume of the score type. *)
Class ScoreLaws (V : Type) `{Score V} := {
  sadd_assoc (x y z : V) : x ⊕ (y ⊕ z) = x ⊕ y ⊕ z;
  sadd_comm (x y : V) : x ⊕ y = y ⊕ x;
  sadd_0_l (x : V) : s0 ⊕ x = x;
  sleb_refl (x : V) : x ⊑ x;
  sleb_trans (x y z : V) : x ⊑ y → y ⊑ z → x ⊑ z;
  sleb_antisym (x y : V) : x ⊑ y → y ⊑ x → x = y;
  sleb_total (x y : V) : x ⊑ y ∨ y ⊑ x;
  sadd_mono_r (x y z : V) : x ⊑ y → x ⊕ z ⊑ y ⊕ z;
}.

#[export] Instance Z_score : Score Z :=
  {| s0 := 0%Z; sneg1e4 := (-10000)%Z; sadd := Z.add; ssub := Z.sub; sleb := Z.leb |}.

#[export] Instance R_score : Score R :=
  {| s0 := 0%R; sneg1e4 := (-10000)%R; sadd := Rplus; ssub := Rminus;
     sleb := λ x y, if Rle_dec x y then true else false |}.

(** [vec_log_sum_exp] of [baseline.pytorch.torchy], reducing one vector. *)
Class LogSumExp (V : Type) := vec_log_sum_exp : list V → V.

(** Modelled from the spec: [vec_log_sum_exp] is defined in
    [baseline.pytorch.torchy], which is not among the sources.  Section 4.2
    requires the max-subtraction form: subtract the maximum before
    exponentiating, add it back after the logarithm. *)
Definition R_max_list (v : list R) : R :=
  match v with
  | [] => 0%R
  | x :: r => foldl Rmax x r
  end.

Definition R_sum_list (v : list R) : R := foldr Rplus 0%R v.

#[export] Instance R_log_sum_exp : LogSumExp R :=
  λ v, let m := R_max_list v in (m + ln (R_sum_list ((λ x, exp (x - m)) <$> v)))%R.

(** ** Tensor helpers (PyTorch and Python primitives) *)

Section tensors.
Context {A : Type}.

(** Python index normalisation: [-n <= i < n], negative counts from the end. *)
Definition py_index (n : nat) (i : Z) : option nat :=
  if bool_decide (0 ≤ i < Z.of_nat n)%Z then Some (Z.to_nat i)
  else if bool_decide (- Z.of_nat n ≤ i < 0)%Z then Some (Z.to_nat (i + Z.of_nat n))
  else None.

(** [t[i]] for a Python int or an index tensor entry [i]. *)
Definition py_get (t : list A) (i : Z) : option A :=
  k ← py_index (length t) i; t !! k.

(** One entry of [t.gather(d, index)]: the index must lie in [0, size). *)
Definition gather1 (t : list A) (i : Z) : option A :=
  if bool_decide (0 ≤ i)%Z then t !! Z.to_nat i else None.

(** [t.masked_fill(mask, v)] with [mask] of the shape of [t]. *)
Definition masked_fill (t : list A) (mask : list bool) (v : A) : list A :=
  zip_with (λ x (m : bool), if m then v else x) t mask.

(** [t.masked_fill(mask, v)] with [mask] broadcast along the last
    dimension: one flag per row of [t]. *)
Definition masked_fill_rows (t : list (list A)) (mask : list bool) (v : A)
    : list (list A) :=
  zip_with (λ row (m : bool), (λ x, if m then v else x) <$> row) t mask.

(** [t.masked_fill(mask, v)] for a mask with other steps than [t]: the two
    are broadcast along the first dimension, which takes as many steps on
    both sides, or one step on one side, used at every step of the other. *)
Definition masked_fill_steps (t : list (list A)) (mask : list (list bool)) (v : A)
    : option (list (list A)) :=
  if bool_decide (length mask = length t)
  then Some (zip_with (λ row mrow, masked_fill row mrow v) t mask)
  else match mask, t with
       | [mrow], _ => Some ((λ row, masked_fill row mrow v) <$> t)
       | _, [row] => Some ((λ mrow, masked_fill row mrow v) <$> mask)
       | _, _ => None
       end.

(** [t[:, k]]: the entries of index [k] along the second dimension. *)
Definition col (k : nat) (t : list (list A)) : list A := omap (λ r, r !! k) t.

(** [t.transpose(0, 1)] *)
Definition transpose01 (t : list (list A)) : list (list A) :=
  match t with
  | [] => []
  | r0 :: _ => (λ k, col k t) <$> seq 0 (length r0)
  end.

(** [path[:n]] *)
Definition py_slice_to (n : Z) (path : list A) : list A :=
  if bool_decide (0 ≤ n)%Z then take (Z.to_nat n) path
  else take (length path - Z.to_nat (- n)) path.

(** [l.pop()] on a list known to be non-empty: drop the last entry. *)
Definition pop (l : list A) : list A := take (length l - 1) l.
End tensors.

(** An entrywise operation that can raise, over two tensors of one shape. *)
Fixpoint zip_withM {A B C : Type} (f : A → B → option C) (l : list A) (k : list B)
    : option (list C) :=
  match l, k with
  | x :: l, y :: k => z ← f x y; r ← zip_withM f l k; Some (z :: r)
  | _, _ => Some []
  end.

(** [torch.min(lengths)]: raises on an empty tensor. *)
Definition torch_min (l : list Z) : option Z :=
  match l with
  | [] => None
  | x :: r => Some (foldl Z.min x r)
  end.

(** [torch.max(lengths)]: raises on an empty tensor. *)
Definition torch_max_len (l : list Z) : option Z :=
  match l with
  | [] => None
  | x :: r => Some (foldl Z.max x r)
  end.

Section torch_max.
Context {V : Type} `{Score V}.

(** [torch.max(v, dim)] on one vector: the maximum and the index of its
    first occurrence (among equal maxima PyTorch returns the first). *)
Fixpoint torch_max_from (best : V) (besti i : nat) (v : list V) : V * nat :=
  match v with
  | [] => (best, besti)
  | x :: r =>
      if sleb x best then torch_max_from best besti (S i) r
      else torch_max_from x i (S i) r
  end.

Definition torch_max (v : list V) : V * nat :=
  match v with
  | [] => (s0, 0)               (* no reduction over an empty dimension *)
  | x :: r => torch_max_from x 0 1 r
  end.
End torch_max.

(** ** State shared by the two dynamic programs *)

Section alphas.
Context {V : Type} `{Score V}.

(** [torch.Tensor(B, 1, N).fill_(-1e4)] then [alphas[:, 0, start_idx] = 0]. *)
Definition init_alphas (batch_size tag_size : nat) (start : Z)
    : option (list (list V)) :=
  k ← py_index tag_size start;
  Some (replicate batch_size (<[k := s0]> (replicate tag_size sneg1e4))).

(** [(i < lengths)] *)
Definition lt_lengths (i : nat) (lengths : list Z) : list bool :=
  (λ l, bool_decide (Z.of_nat i < l)%Z) <$> lengths.

(** [alphas.masked_fill(mask, 0) + new_alphas.masked_fill(mask == 0, 0)] *)
Definition blend_alphas (m : list bool) (alphas new_alphas : list (list V))
    : list (list V) :=
  zip_with (zip_with sadd) (masked_fill_rows alphas m s0)
                           (masked_fill_rows new_alphas (negb <$> m) s0).
End alphas.

(** ** viterbi

    The embedding covers [norm=False], the only way [CRF.decode] calls it;
    [viterbi_norm], further down, has the flag. *)

Section viterbi.
Context {V : Type} `{Score V}.

(** [torch.max(alphas + trans, 2)] for one batch element: for every tag,
    the best score into it and the previous tag that gives it. *)
Definition max_into (trans : list (list V)) (alpha : list V) : list (V * nat) :=
  (λ row, torch_max (zip_with sadd alpha row)) <$> trans.

(** [torch.max(alphas + trans, 2)] and [viterbi + unary_t]: the new
    alphas and the back-pointers of one time step. *)
Definition viterbi_step (trans alphas unary_t : list (list V))
    : list (list V) * list (list nat) :=
  let next_tag_var := max_into trans <$> alphas in
  let viterbi := fmap fst <$> next_tag_var in
  let best_tag_ids := fmap snd <$> next_tag_var in
  (zip_with (zip_with sadd) viterbi unary_t, best_tag_ids).

Fixpoint viterbi_loop (trans : list (list V)) (lengths : list Z) (min_length : Z)
    (i : nat) (unary : list (list (list V))) (alphas : list (list V))
    (backpointers : list (list (list nat)))
    : list (list V) * list (list (list nat)) :=
  match unary with
  | [] => (alphas, backpointers)
  | unary_t :: rest =>
      let '(new_alphas, best_tag_ids) := viterbi_step trans alphas unary_t in
      let backpointers := backpointers ++ [best_tag_ids] in
      let alphas :=
        if bool_decide (min_length ≤ Z.of_nat i)%Z
        then blend_alphas (lt_lengths i lengths) alphas new_alphas
        else new_alphas in
      viterbi_loop trans lengths min_length (S i) rest alphas backpointers
  end.

(** The backward walk over [reversed(backpointers)]. *)
Fixpoint backtrack (rev_len : list Z) (i : nat) (backpointers : list (list (list nat)))
    (best_tag_id : list nat) (best_path : list (list nat))
    : option (list (list nat)) :=
  match backpointers with
  | [] => Some best_path
  | backpointer_t :: rest =>
      (* backpointer_t.gather(1, best_tag_id.unsqueeze(1)).squeeze(1) *)
      new_best_tag_id ← zip_withM (λ row (k : nat), row !! k) backpointer_t best_tag_id;
      let mask := (λ r, bool_decide (r < Z.of_nat i)%Z) <$> rev_len in
      let best_tag_id :=
        zip_with Nat.add (masked_fill best_tag_id mask 0)
                         (masked_fill new_best_tag_id (negb <$> mask) 0) in
      backtrack rev_len (S i) rest best_tag_id (best_path ++ [best_tag_id])
  end.

Definition viterbi (unary : list (list (list V))) (trans : list (list V))
    (lengths : list Z) (start_idx end_idx : Z)
    : option (list (list nat) * list V) :=
  match unary with
  | [] => None                  (* torch.stack of an empty list raises *)
  | unary_0 :: _ =>
      let seq_len := length unary in
      let batch_size := length unary_0 in
      let tag_size := length (hd [] unary_0) in
      min_length ← torch_min lengths;
      alphas ← init_alphas batch_size tag_size start_idx;
      let '(alphas, backpointers) :=
        viterbi_loop trans lengths min_length 0 unary alphas [] in
      (* Add end tag *)
      trans_end ← py_get trans end_idx;
      let terminal_var := (λ alpha, torch_max (zip_with sadd alpha trans_end)) <$> alphas in
      let path_score := fst <$> terminal_var in
      let best_tag_id := snd <$> terminal_var in
      (* Flip lengths *)
      let rev_len := (λ l, Z.of_nat seq_len - l - 1)%Z <$> lengths in
      best_path ← backtrack rev_len 0 (reverse backpointers) best_tag_id [best_tag_id];
      let best_path := pop best_path in
      let best_path := reverse best_path in
      let best_path := transpose01 best_path in
      let paths := zip_with (λ path length, py_slice_to length path) best_path lengths in
      Some (paths, path_score)
  end.
End viterbi.

(** ** The CRF layer *)

Section crf.
Context {V : Type} `{Score V}.

Record CRF := {
  start_idx : Z;
  end_idx : Z;
  n_tags : Z;
  mask : option (list (list bool));
  transitions_p : list (list V);
  batch_first : bool;
}.

(** [CRF.__init__]: no argument is checked; [torch.Tensor(1, n, n)] raises
    on a negative size.  The default of [idxs] is read from
    [baseline.utils.Offsets], which is not among the sources: the indices
    are always given here. *)
Definition CRF_init (n : Z) (idxs : Z * Z) (bf : bool)
    (m : option (list (list bool))) : option CRF :=
  if bool_decide (n < 0)%Z then None
  else Some {| start_idx := idxs.1; end_idx := idxs.2; n_tags := n; mask := m;
               transitions_p := replicate (Z.to_nat n) (replicate (Z.to_nat n) s0);
               batch_first := bf |}.

(** The [transitions] property. *)
Definition transitions (self : CRF) : list (list V) :=
  match mask self with
  | Some m => zip_with (λ row mrow, masked_fill row mrow sneg1e4) (transitions_p self) m
  | None => transitions_p self
  end.

(** *** forward *)

Context `{LogSumExp V}.

(** [vec_log_sum_exp(alphas + trans + unary_t, 2)], for one batch element
    and for the batch. *)
Definition forward_cell (trans : list (list V)) (alpha u : list V) : list V :=
  zip_with (λ row ui, vec_log_sum_exp (zip_with (λ aj tij, aj ⊕ tij ⊕ ui) alpha row))
           trans u.

Definition forward_new_alphas (trans alphas unary_t : list (list V))
    : list (list V) :=
  zip_with (forward_cell trans) alphas unary_t.

Fixpoint forward_loop (trans : list (list V)) (lengths : list Z) (min_length : Z)
    (i : nat) (unary : list (list (list V))) (alphas : list (list V))
    : list (list V) :=
  match unary with
  | [] => alphas
  | unary_t :: rest =>
      let new_alphas := forward_new_alphas trans alphas unary_t in
      let alphas :=
        if bool_decide (min_length ≤ Z.of_nat i)%Z
        then blend_alphas (lt_lengths i lengths) alphas new_alphas
        else new_alphas in
      forward_loop trans lengths min_length (S i) rest alphas
  end.

Definition forward (self : CRF) (unary : list (list (list V)))
    (lengths : list Z) (batch_size : nat) : option (list V) :=
  min_length ← torch_min lengths;
  alphas ← (if bool_decide (n_tags self < 0)%Z then None
            else init_alphas batch_size (Z.to_nat (n_tags self)) (start_idx self));
  let trans := transitions self in
  let alphas := forward_loop trans lengths min_length 0 unary alphas in
  trans_end ← py_get trans (end_idx self);
  Some ((λ alpha, vec_log_sum_exp (zip_with sadd alpha trans_end)) <$> alphas).

(** *** score_sentence *)

(** [trans[[cur, prev]]] at one position. *)
Definition trans_at (trans : list (list V)) (cur prev : Z) : option V :=
  row ← py_get trans cur; py_get row prev.

(** Modelled from the spec: [sequence_mask] of [baseline.pytorch.torchy] is
    not among the sources.  Section 4.3 has the summation exclude the
    positions at or beyond an element's length.  [score_sentence] calls
    [sequence_mask] with the lengths alone, so the mask has the steps below
    the longest length and no others: it is [B, max(lengths)], true where
    [t < length]; [torch.arange] raises on a negative bound. *)
Definition sequence_mask (lengths : list Z) : option (list (list bool)) :=
  max_len ← torch_max_len lengths;
  if bool_decide (max_len < 0)%Z then None
  else Some ((λ l, (λ t, bool_decide (Z.of_nat t < l)%Z) <$> seq 0 (Z.to_nat max_len))
             <$> lengths).

(** [scores.sum(0)] of a [T, B] tensor. *)
Definition sum0 (batch_size : nat) (scores : list (list V)) : list V :=
  foldr (zip_with sadd) (replicate batch_size s0) scores.

(** The body of [score_sentence], [trans] being [self.transitions.squeeze(0)]. *)
Definition score_sentence_on (trans : list (list V)) (start_idx end_idx : Z)
    (unary : list (list (list V))) (tags : list (list Z)) (lengths : list Z)
    (batch_size : nat) : option (list V) :=
  let start := replicate batch_size start_idx in
  let tags := start :: tags in
  (* tag_pairs: rows t and t + 1 of the extended tags, for every t; [unfold]
     raises when there are not two rows *)
  trans_score ←
    (if bool_decide (length tags < 2) then None
     else zip_withM (zip_withM (λ prev cur, trans_at trans cur prev)) tags (tail tags));
  unary_score ← zip_withM (zip_withM gather1) unary (tail tags);
  mask ← sequence_mask lengths;
  let mask := transpose01 mask in
  let scores := zip_with (zip_with sadd) unary_score trans_score in
  scores ← masked_fill_steps scores ((λ mrow : list bool, negb <$> mrow) <$> mask) s0;
  let scores := sum0 batch_size scores in
  eos_scores ←
    zip_withM (λ b l, row ← gather1 tags l; tag ← row !! b;
                      trans_at trans end_idx tag)
              (seq 0 (length lengths)) lengths;
  Some (zip_with sadd scores eos_scores).

Definition score_sentence (self : CRF) (unary : list (list (list V)))
    (tags : list (list Z)) (lengths : list Z) (batch_size : nat)
    : option (list V) :=
  let trans := transitions self in
  score_sentence_on trans (start_idx self) (end_idx self) unary tags lengths batch_size.

(** *** neg_log_loss *)

Definition time_major {B : Type} (self : CRF) (t : list (list B)) : list (list B) :=
  if batch_first self then transpose01 t else t.

Definition neg_log_loss (self : CRF) (unary : list (list (list V)))
    (tags : list (list Z)) (lengths : list Z) : option (list V) :=
  let unary := time_major self unary in
  let tags := time_major self tags in
  let batch_size := length (hd [] unary) in
  fwd_score ← forward self unary lengths batch_size;
  gold_score ← score_sentence self unary tags lengths batch_size;
  Some (zip_with ssub fwd_score gold_score).

(** *** decode *)

Definition decode (self : CRF) (unary : list (list (list V))) (lengths : list Z)
    : option (list (list nat) * list V) :=
  let unary := time_major self unary in
  let trans := transitions self in
  viterbi unary trans lengths (start_idx self) (end_idx self).
End crf.

Arguments CRF V : clear implicits.


(** ** The layer as an object: tensors in a store

    For the effects of a call on the stored parameter and mask, the same
    methods once more, with tensors as objects of a store: an out-of-place
    operation allocates its result, an in-place one ([fill_], an index
    assignment, [unsqueeze_]) overwrites the object it is applied to, and an
    assignment of one tensor to a variable aliases it.  The property
    [transitions] returns the parameter object itself when there is no
    mask. *)

Inductive tensor (V : Type) : Type :=
  | Scores (d : list (list V))
  | Flags (d : list (list bool)).
Arguments Scores {V} d.
Arguments Flags {V} d.

(** The store: the tensor objects allocated so far. *)
Abbreviation store V := (list (tensor V)) (only parsing).

Section store.
Context {V : Type} `{Score V} `{LogSumExp V}.

(** Computations on the store. *)
Definition M (A : Type) : Type := store V → A * store V.

Definition ret {A : Type} (a : A) : M A := λ h, (a, h).
Definition bind {A B : Type} (m : M A) (f : A → M B) : M B :=
  λ h, let r := m h in f r.1 r.2.

Notation "x <- m ;; k" := (bind m (λ x, k))
  (at level 100, m at next level, right associativity).

(** A new tensor object. *)
Definition alloc (t : tensor V) : M nat := λ h, (length h, h ++ [t]).

(** The data of an object. *)
Definition scores_of (h : store V) (l : nat) : list (list V) :=
  match h !! l with Some (Scores d) => d | _ => [] end.

Definition flags_of (h : store V) (l : nat) : list (list bool) :=
  match h !! l with Some (Flags d) => d | _ => [] end.

Definition read (l : nat) : M (list (list V)) := λ h, (scores_of h l, h).
Definition read_flags (l : nat) : M (list (list bool)) := λ h, (flags_of h l, h).

(** An in-place operation on the object [l]. *)
Definition update (l : nat) (f : list (list V) → list (list V)) : M unit :=
  λ h, (tt, <[l := Scores (f (scores_of h l))]> h).

Record CRF_obj := {
  o_start_idx : Z;
  o_end_idx : Z;
  o_n_tags : Z;
  o_mask : option nat;          (* the registered buffer, if any *)
  o_transitions_p : nat;        (* the parameter *)
  o_batch_first : bool;
}.

(** The layer a store holds for an object. *)
Definition crf_of (self : CRF_obj) (h : store V) : CRF V :=
  {| start_idx := o_start_idx self; end_idx := o_end_idx self;
     n_tags := o_n_tags self; mask := flags_of h <$> o_mask self;
     transitions_p := scores_of h (o_transitions_p self);
     batch_first := o_batch_first self |}.

(** [self.transitions]: [masked_fill] is out of place; without a mask the
    parameter itself is returned. *)
Definition transitions_m (self : CRF_obj) : M nat :=
  match o_mask self with
  | Some ml =>
      p <- read (o_transitions_p self) ;;
      m <- read_flags ml ;;
      alloc (Scores (zip_with (λ row mrow, masked_fill row mrow sneg1e4) p m))
  | None => ret (o_transitions_p self)
  end.

(** [torch.Tensor(B, 1, N).fill_(-1e4)] then [alphas[:, 0, start_idx] = 0]:
    a new object, filled and assigned in place. *)
Definition init_alphas_m (batch_size tag_size : nat) (start : Z) : M (option nat) :=
  alphas <- alloc (Scores (replicate batch_size (replicate tag_size s0))) ;;
  _ <- update alphas (λ d, (λ row : list V, (λ _, sneg1e4) <$> row) <$> d) ;;
  match py_index tag_size start with
  | None => ret None
  | Some k =>
      _ <- update alphas (λ d, (λ row : list V, <[k := s0]> row) <$> d) ;;
      ret (Some alphas)
  end.

(** The end of a loop body: the blend builds a new object; otherwise the
    variable [alphas] is bound to the object [new_alphas]. *)
Definition select_alphas_m (lengths : list Z) (min_length : Z) (i : nat)
    (alphas new_alphas : nat) : M nat :=
  if bool_decide (min_length ≤ Z.of_nat i)%Z
  then a <- read alphas ;; na <- read new_alphas ;;
       alloc (Scores (blend_alphas (lt_lengths i lengths) a na))
  else ret new_alphas.

Fixpoint forward_loop_m (trans : nat) (lengths : list Z) (min_length : Z)
    (i : nat) (unary : list (list (list V))) (alphas : nat) : M nat :=
  match unary with
  | [] => ret alphas
  | unary_t :: rest =>
      a <- read alphas ;;
      t <- read trans ;;
      new_alphas <- alloc (Scores (forward_new_alphas t a unary_t)) ;;
      alphas <- select_alphas_m lengths min_length i alphas new_alphas ;;
      forward_loop_m trans lengths min_length (S i) rest alphas
  end.

Definition forward_m (self : CRF_obj) (unary : list (list (list V)))
    (lengths : list Z) (batch_size : nat) : M (option (list V)) :=
  match torch_min lengths with
  | None => ret None
  | Some min_length =>
      if bool_decide (o_n_tags self < 0)%Z then ret None
      else
        alphas <- init_alphas_m batch_size (Z.to_nat (o_n_tags self)) (o_start_idx self) ;;
        match alphas with
        | None => ret None
        | Some alphas =>
            trans <- transitions_m self ;;
            alphas <- forward_loop_m trans lengths min_length 0 unary alphas ;;
            t <- read trans ;;
            a <- read alphas ;;
            ret (trans_end ← py_get t (o_end_idx self);
                 Some ((λ alpha, vec_log_sum_exp (zip_with sadd alpha trans_end)) <$> a))
        end
  end.

(** [score_sentence] indexes and gathers out of place: it reads the
    transitions and writes nothing. *)
Definition score_sentence_m (self : CRF_obj) (unary : list (list (list V)))
    (tags : list (list Z)) (lengths : list Z) (batch_size : nat)
    : M (option (list V)) :=
  trans <- transitions_m self ;;
  t <- read trans ;;
  ret (score_sentence_on t (o_start_idx self) (o_end_idx self)
         unary tags lengths batch_size).

Definition neg_log_loss_m (self : CRF_obj) (unary : list (list (list V)))
    (tags : list (list Z)) (lengths : list Z) : M (option (list V)) :=
  let unary := if o_batch_first self then transpose01 unary else unary in
  let tags := if o_batch_first self then transpose01 tags else tags in
  let batch_size := length (hd [] unary) in
  fwd_score <- forward_m self unary lengths batch_size ;;
  gold_score <- score_sentence_m self unary tags lengths batch_size ;;
  ret (f ← fwd_score; g ← gold_score; Some (zip_with ssub f g)).

Fixpoint viterbi_loop_m (trans : nat) (lengths : list Z) (min_length : Z)
    (i : nat) (unary : list (list (list V))) (alphas : nat)
    (backpointers : list (list (list nat))) : M (nat * list (list (list nat))) :=
  match unary with
  | [] => ret (alphas, backpointers)
  | unary_t :: rest =>
      a <- read alphas ;;
      t <- read trans ;;
      let step := viterbi_step t a unary_t in
      new_alphas <- alloc (Scores step.1) ;;
      _ <- update new_alphas (λ d, d) ;;          (* new_alphas.unsqueeze_(1) *)
      alphas <- select_alphas_m lengths min_length i alphas new_alphas ;;
      viterbi_loop_m trans lengths min_length (S i) rest alphas
        (backpointers ++ [step.2])
  end.

Definition viterbi_m (unary : list (list (list V))) (trans : nat)
    (lengths : list Z) (start_idx end_idx : Z)
    : M (option (list (list nat) * list V)) :=
  match unary with
  | [] => ret None
  | unary_0 :: _ =>
      match torch_min lengths with
      | None => ret None
      | Some min_length =>
          alphas <- init_alphas_m (length unary_0) (length (hd [] unary_0)) start_idx ;;
          match alphas with
          | None => ret None
          | Some alphas =>
              r <- viterbi_loop_m trans lengths min_length 0 unary alphas [] ;;
              t <- read trans ;;
              a <- read r.1 ;;
              ret (trans_end ← py_get t end_idx;
                   let terminal_var :=
                     (λ alpha, torch_max (zip_with sadd alpha trans_end)) <$> a in
                   let best_tag_id := snd <$> terminal_var in
                   let rev_len :=
                     (λ l, Z.of_nat (length unary) - l - 1)%Z <$> lengths in
                   best_path ← backtrack rev_len 0 (reverse r.2) best_tag_id [best_tag_id];
                   Some (zip_with (λ path length, py_slice_to length path)
                           (transpose01 (reverse (pop best_path))) lengths,
                         fst <$> terminal_var))
          end
      end
  end.

Definition decode_m (self : CRF_obj) (unary : list (list (list V)))
    (lengths : list Z) : M (option (list (list nat) * list V)) :=
  let unary := if o_batch_first self then transpose01 unary else unary in
  trans <- transitions_m self ;;
  viterbi_m unary trans lengths (o_start_idx self) (o_end_idx self).
End store.

Section store_properties.
Context {V : Type} `{Score V}.

(** A layer object whose parameter and mask are objects of the store. *)
Definition obj_ok (self : CRF_obj) (h : store V) : Prop :=
  o_transitions_p self < length h ∧ ∀ ml, o_mask self = Some ml → ml < length h.

(** A call left the store as it was, up to new objects: the parameter and
    the mask hold what they held, and the store holds the same layer. *)
Definition left_unchanged (self : CRF_obj) (h h' : store V) : Prop :=
  h `prefix_of` h' ∧
  h' !! o_transitions_p self = h !! o_transitions_p self ∧
  (∀ ml, o_mask self = Some ml → h' !! ml = h !! ml) ∧
  crf_of self h' = crf_of self h.

End store_properties.

(** * Further parts of the module *)

(** ** viterbi with its [norm] flag *)

(** [F.log_softmax(v, dim=-1)] of PyTorch on one score vector: every entry
    minus the log of the sum of the exponentials of the entries. *)
Class LogSoftmax (V : Type) := log_softmax : list V → list V.

#[export] Instance R_log_softmax : LogSoftmax R :=
  λ v, (λ x, (x - ln (R_sum_list (exp <$> v)))%R) <$> v.

Section viterbi_norm.
Context {V : Type} `{Score V} `{LogSoftmax V}.

(** [viterbi] with the flag [norm]: the initial state goes through
    [F.log_softmax] when it is set. *)
Definition viterbi_norm (unary : list (list (list V))) (trans : list (list V))
    (lengths : list Z) (start_idx end_idx : Z) (norm : bool)
    : option (list (list nat) * list V) :=
  match unary with
  | [] => None                  (* torch.stack of an empty list raises *)
  | unary_0 :: _ =>
      let seq_len := length unary in
      let batch_size := length unary_0 in
      let tag_size := length (hd [] unary_0) in
      min_length ← torch_min lengths;
      alphas ← init_alphas batch_size tag_size start_idx;
      let alphas := if norm then log_softmax <$> alphas else alphas in
      let '(alphas, backpointers) :=
        viterbi_loop trans lengths min_length 0 unary alphas [] in
      (* Add end tag *)
      trans_end ← py_get trans end_idx;
      let terminal_var := (λ alpha, torch_max (zip_with sadd alpha trans_end)) <$> alphas in
      let path_score := fst <$> terminal_var in
      let best_tag_id := snd <$> terminal_var in
      (* Flip lengths *)
      let rev_len := (λ l, Z.of_nat seq_len - l - 1)%Z <$> lengths in
      best_path ← backtrack rev_len 0 (reverse backpointers) best_tag_id [best_tag_id];
      let best_path := pop best_path in
      let best_path := reverse best_path in
      let best_path := transpose01 best_path in
      let paths := zip_with (λ path length, py_slice_to length path) best_path lengths in
      Some (paths, path_score)
  end.
End viterbi_norm.

(** ** extra_repr *)

Section repr.
Context {V : Type} `{Score V}.

(** [CRF.extra_repr]: ["%d"] prints the integer in decimal, ["%s"] prints
    the Boolean as [True] or [False]. *)
Definition extra_repr (self : CRF V) : string :=
  let str_ := "n_tags=" +:+ pretty (n_tags self) +:+ ", batch_first="
              +:+ (if batch_first self then "True" else "False") in
  match mask self with
  | Some _ => str_ +:+ ", masked=True"
  | None => str_
  end.
End repr.

(** * Specification-level definitions *)

(** ** Shapes *)

Definition shape2 {A : Type} (n m : nat) (t : list (list A)) : Prop :=
  length t = n ∧ Forall (λ r, length r = m) t.

Definition shape3 {A : Type} (n m k : nat) (t : list (list (list A))) : Prop :=
  length t = n ∧ Forall (shape2 m k) t.

(** [is_col b t e]: the entries of batch index [b] of the rows of [t]. *)
Definition is_col {A : Type} (b : nat) (t : list (list A)) (e : list A) : Prop :=
  Forall2 (λ row x, row !! b = Some x) t e.

(** Back-pointer rows of the shape [B, N] whose entries are tags. *)
Definition bp_shape (B N : nat) (bp_t : list (list nat)) : Prop :=
  length bp_t = B ∧ Forall (λ row, length row = N ∧ Forall (λ k, k < N) row) bp_t.

(** ** One batch element on its own

    What the batched loops do to the element of batch index [b], whose
    length is [l]: the state is one score vector, the emissions are the
    column [b] of the emission tensor. *)

Section element.
Context {V : Type} `{Score V}.

#[local] Instance score_inhabited : Inhabited V := populate s0.

Fixpoint forward_loop1 `{LogSumExp V} (trans : list (list V)) (l : Z) (i : nat)
    (us : list (list V)) (a : list V) : list V :=
  match us with
  | [] => a
  | u :: rest =>
      forward_loop1 trans l (S i) rest
        (if bool_decide (Z.of_nat i < l)%Z then forward_cell trans a u else a)
  end.

(** The new alphas and the back-pointers of one step of the max recursion. *)
Definition viterbi_cell (trans : list (list V)) (a u : list V) : list V :=
  zip_with sadd (fst <$> max_into trans a) u.

Definition back_ptr (trans : list (list V)) (a : list V) : list nat :=
  snd <$> max_into trans a.

Fixpoint viterbi_loop1 (trans : list (list V)) (l : Z) (i : nat)
    (us : list (list V)) (a : list V) (bps : list (list nat))
    : list V * list (list nat) :=
  match us with
  | [] => (a, bps)
  | u :: rest =>
      viterbi_loop1 trans l (S i) rest
        (if bool_decide (Z.of_nat i < l)%Z then viterbi_cell trans a u else a)
        (bps ++ [back_ptr trans a])
  end.

(** The tags the backward walk appends for one element, [r] its flipped
    length and [k] its current tag. *)
Fixpoint backtrack1 (r : Z) (i : nat) (bps : list (list nat)) (k : nat) : list nat :=
  match bps with
  | [] => []
  | bp :: rest =>
      let k' := if bool_decide (r < Z.of_nat i)%Z then bp !!! k else k in
      k' :: backtrack1 r (S i) rest k'
  end.

(** The recursions without padding: over exactly the emissions of the
    element. *)
Definition forward_run `{LogSumExp V} (trans : list (list V)) (a : list V)
    (us : list (list V)) : list V :=
  foldl (forward_cell trans) a us.

Definition viterbi_run (trans : list (list V)) (a : list V) (us : list (list V))
    : list V :=
  foldl (viterbi_cell trans) a us.

Fixpoint viterbi_bps (trans : list (list V)) (a : list V) (us : list (list V))
    : list (list nat) :=
  match us with
  | [] => []
  | u :: rest => back_ptr trans a :: viterbi_bps trans (viterbi_cell trans a u) rest
  end.

(** The backward walk without padding: from the tag [k], follow the
    back-pointers, last time step first. *)
Fixpoint walk_back (bps : list (list nat)) (k : nat) : list nat :=
  match bps with
  | [] => []
  | bp :: rest => bp !!! k :: walk_back rest (bp !!! k)
  end.

(** The best path read from the front: the tag before the first step and
    the tags of the steps, from the state [a] over the emissions [us]. *)
Fixpoint viterbi_path (trans : list (list V)) (trans_end a : list V)
    (us : list (list V)) : nat * list nat :=
  match us with
  | [] => ((torch_max (zip_with sadd a trans_end)).2, [])
  | u :: rest =>
      let r := viterbi_path trans trans_end (viterbi_cell trans a u) rest in
      (back_ptr trans a !!! r.1, r.1 :: r.2)
  end.

(** The state before the first step: START at 0, every other tag at -1e4. *)
Definition init_alpha (n start_ : nat) : list V :=
  <[start_ := s0]> (replicate n sneg1e4).

(** One element decoded on its own, over exactly its emissions [us]: the
    best path and its score. *)
Definition viterbi1 (trans : list (list V)) (start_ end_ : nat)
    (us : list (list V)) : list nat * V :=
  let a0 := init_alpha (length trans) start_ in
  let trans_end := trans !!! end_ in
  ((viterbi_path trans trans_end a0 us).2,
   (torch_max (zip_with sadd (viterbi_run trans a0 us) trans_end)).1).

(** One element scored on its own by the forward recursion. *)
Definition forward1 `{LogSumExp V} (trans : list (list V)) (start_ end_ : nat)
    (us : list (list V)) : V :=
  let a0 := init_alpha (length trans) start_ in
  vec_log_sum_exp (zip_with sadd (forward_run trans a0 us) (trans !!! end_)).

(** ** Path scores

    [(trans !!! i) !!! j] is the score of the transition into tag [i] from
    tag [j]. *)

(** The score of each step of the path [q] over the emissions [us], [prev]
    being the tag before the first step: emission of the chosen tag plus
    transition into it from its predecessor. *)
Fixpoint step_scores (trans : list (list V)) (prev : nat) (us : list (list V))
    (q : list nat) {struct q} : list V :=
  match q, us with
  | t :: q', u :: us' => (u !!! t ⊕ (trans !!! t) !!! prev) :: step_scores trans t us' q'
  | _, _ => []
  end.

Definition sum_scores (xs : list V) : V := foldr sadd s0 xs.

(** Total score of the path [q]: its steps, then the transition from its
    last tag into END. *)
Definition path_score (trans : list (list V)) (start_ end_ : nat)
    (us : list (list V)) (q : list nat) : V :=
  sum_scores (step_scores trans start_ us q) ⊕ (trans !!! end_) !!! (List.last q start_).

(** The same total, with the steps and the END transition in the order the
    recursions meet them. *)
Fixpoint tail_score (trans : list (list V)) (end_ prev : nat) (us : list (list V))
    (q : list nat) {struct q} : V :=
  match q, us with
  | t :: q', u :: us' => (u !!! t ⊕ (trans !!! t) !!! prev) ⊕ tail_score trans end_ t us' q'
  | _, _ => (trans !!! end_) !!! prev
  end.

(** The masked step scores of one element, from time step [i] on. *)
Fixpoint masked_steps (trans : list (list V)) (l : Z) (i prev : nat)
    (us : list (list V)) (g : list nat) {struct g} : list V :=
  match g, us with
  | t :: g', u :: us' =>
      (if bool_decide (Z.of_nat i < l)%Z then u !!! t ⊕ (trans !!! t) !!! prev else s0)
      :: masked_steps trans l (S i) t us' g'
  | _, _ => []
  end.

(** A path over [n] tags. *)
Definition valid_path (n len : nat) (q : list nat) : Prop :=
  length q = len ∧ Forall (λ t, t < n) q.

(** All the tag sequences of length [len] over [n] tags. *)
Fixpoint all_paths (n len : nat) : list (list nat) :=
  match len with
  | 0 => [[]]
  | S len' => seq 0 n ≫= λ t, cons t <$> all_paths n len'
  end.

(** ** Valid configurations and inputs *)

(** A layer over [n] tags whose START and END indices are tags. *)
Definition crf_ok (self : CRF V) (n start_ end_ : nat) : Prop :=
  n_tags self = Z.of_nat n ∧
  start_idx self = Z.of_nat start_ ∧ end_idx self = Z.of_nat end_ ∧
  start_ < n ∧ end_ < n ∧
  shape2 n n (transitions self).

(** The length vector of a batch of [B] elements padded to [T] steps. *)
Definition lengths_ok (T B : nat) (lengths : list Z) : Prop :=
  length lengths = B ∧ Forall (λ l, 1 ≤ l ≤ Z.of_nat T)%Z lengths.

(** The results of the element [b] of a batch. *)
Definition decode_at (self : CRF V) (unary : list (list (list V)))
    (lengths : list Z) (b : nat) : option (list nat * V) :=
  r ← decode self unary lengths;
  path ← r.1 !! b; score ← r.2 !! b; Some (path, score).

Definition forward_at `{LogSumExp V} (self : CRF V) (unary : list (list (list V)))
    (lengths : list Z) (batch_size b : nat) : option V :=
  scores ← forward self unary lengths batch_size; scores !! b.

(** The sentinel never beats START: coming from another tag with the
    initial score -1e4 is no better than coming from START with score 0. *)
Definition start_dominates (trans : list (list V)) (n start_ : nat) : Prop :=
  ∀ i j, i < n → j < n → j ≠ start_ →
    sneg1e4 ⊕ (trans !!! i) !!! j ⊑ (trans !!! i) !!! start_.

(** [decode] returns for the element [b], of length [l] and emissions [us],
    a path of [l] tags and a score that are the best when the tag before
    step 0 ranges over all tags [j], each counted with its initial score
    (0 for START, -1e4 for the others). *)
Definition decodes_best_weighted_path (self : CRF V) (n start_ end_ : nat)
    (unary : list (list (list V))) (lengths : list Z) (b : nat) (l : Z)
    (us : list (list V)) : Prop :=
  ∃ path score,
    decode_at self unary lengths b = Some (path, score) ∧
    valid_path n (Z.to_nat l) path ∧
    (∃ j, j < n ∧
       init_alpha n start_ !!! j ⊕ path_score (transitions self) j end_ us path = score) ∧
    ∀ j q, j < n → valid_path n (Z.to_nat l) q →
      init_alpha n start_ !!! j ⊕ path_score (transitions self) j end_ us q ⊑ score.

(** [decode] returns for the element [b], of length [l] and emissions [us],
    a path of [l] tags of maximal total score, and that score. *)
Definition decodes_best_path (self : CRF V) (n start_ end_ : nat)
    (unary : list (list (list V))) (lengths : list Z) (b : nat) (l : Z)
    (us : list (list V)) : Prop :=
  ∃ path score,
    decode_at self unary lengths b = Some (path, score) ∧
    valid_path n (Z.to_nat l) path ∧
    path_score (transitions self) start_ end_ us path = score ∧
    ∀ q, valid_path n (Z.to_nat l) q →
      path_score (transitions self) start_ end_ us q ⊑ score.

(** A row of the gold tag tensor for a batch of [B] elements over [N] tags,
    and a tag tensor of [T] such rows (padding included). *)
Definition tag_row_ok (B N : nat) (trow : list Z) : Prop :=
  length trow = B ∧ Forall (λ g, 0 ≤ g < Z.of_nat N)%Z trow.

Definition tags_ok (T B N : nat) (tags : list (list Z)) : Prop :=
  length tags = T ∧ Forall (tag_row_ok B N) tags.

Definition gold_score_at (self : CRF V) (unary : list (list (list V)))
    (tags : list (list Z)) (lengths : list Z) (batch_size b : nat) : option V :=
  scores ← score_sentence self unary tags lengths batch_size; scores !! b.

Definition loss_at `{LogSumExp V} (self : CRF V) (unary : list (list (list V)))
    (tags : list (list Z)) (lengths : list Z) (b : nat) : option V :=
  losses ← neg_log_loss self unary tags lengths; losses !! b.

(** The gold tags of the element [b] are [gs], padding included. *)
Definition gold_tags_of (self : CRF V) (tags : list (list Z)) (b : nat)
    (gs : list Z) : Prop :=
  is_col b (time_major self tags) gs.

(** The emissions of the element [b] are [us]: one score vector per time
    step of the padded width. *)
Definition emissions_of (self : CRF V) (unary : list (list (list V))) (b : nat)
    (us : list (list V)) : Prop :=
  is_col b (time_major self unary) us.
End element.

(** An index that is no Python index into [n_tags] entries. *)
Definition bad_index (n i : Z) : Prop := ¬ (- n ≤ i < n)%Z.

(** ** The log partition function, over real scores *)

Section log_partition.
#[local] Existing Instance score_inhabited.

(** Sums over the tags [0 .. n-1]. *)
Definition Rsum_n (n : nat) (f : nat → R) : R := R_sum_list (f <$> seq 0 n).

(** The sum, over the paths along [us] from the tag [j], of the
    exponentials of their scores, END transition included. *)
Fixpoint path_weight (n : nat) (trans : list (list R)) (end_ j : nat)
    (us : list (list R)) : R :=
  match us with
  | [] => exp ((trans !!! end_) !!! j)
  | u :: us' =>
      Rsum_n n (λ t, exp (u !!! t + (trans !!! t) !!! j)%R * path_weight n trans end_ t us')%R
  end.

(** The log of the sum, over all tag sequences of length [len], of the
    exponential of the total path score from START. *)
Definition log_partition (trans : list (list R)) (n start_ end_ : nat)
    (us : list (list R)) (len : nat) : R :=
  ln (R_sum_list ((λ q, exp (path_score trans start_ end_ us q)) <$> all_paths n len)).

(** The same with the initial state of the code: the tag before step 0
    ranges over all tags [j], weighted by its initial score, 0 for START and
    -1e4 for the others. *)
Definition log_partition_init (trans : list (list R)) (n start_ end_ : nat)
    (us : list (list R)) (len : nat) : R :=
  ln (R_sum_list
        ((λ j, R_sum_list
                 ((λ q, exp ((init_alpha n start_ : list R) !!! j
                             + path_score trans j end_ us q)%R)
                    <$> all_paths n len))
           <$> seq 0 n)).
End log_partition.

(** ** Definitions for the further properties *)

Section element_from.
Context {V : Type} `{Score V}.

(** One element decoded on its own from the state [a0]: the path read off
    the back-pointers and the terminal maximum. *)
Definition viterbi1_from (trans : list (list V)) (trans_end a0 : list V)
    (us : list (list V)) : list nat * V :=
  ((viterbi_path trans trans_end a0 us).2,
   (torch_max (zip_with sadd (viterbi_run trans a0 us) trans_end)).1).
End element_from.

(** ** Indices and lengths at the edges *)

Section edges.
Context {V : Type} `{Score V}.

(** The layer [self] with other START and END indices. *)
Definition with_idxs (self : CRF V) (idxs : Z * Z) : CRF V :=
  {| start_idx := idxs.1; end_idx := idxs.2; n_tags := n_tags self;
     mask := mask self; transitions_p := transitions_p self;
     batch_first := batch_first self |}.
End edges.

(** ** Scores that can be cancelled *)

(** Addition reflects the order, as it does on numbers, and the sentinel
    -1e4 lies below 0. *)
Class ScoreCancel (V : Type) `{Score V} := {
  sadd_reflect (x y z : V) : x ⊕ z ⊑ y ⊕ z → x ⊑ y;
  sneg1e4_le_0 : (sneg1e4 : V) ⊑ s0;
}.

Section shifts.
Context {V : Type} `{Score V}.

(** A score vector with the constant [d] added to every entry. *)
Definition shift (d : V) (a : list V) : list V := (λ x, x ⊕ d) <$> a.
End shifts.

(** ** Paths that the mask allows *)

(** The path [q], entered from the tag [prev], takes only transitions that
    the mask [m] leaves valid, the transition from its last tag into END
    included ([m] is indexed as the transitions are: row to, column
    from). *)
Fixpoint allowed_from (m : list (list bool)) (end_ prev : nat) (q : list nat) : bool :=
  match q with
  | [] => negb ((m !!! end_) !!! prev)
  | t :: q' => negb ((m !!! t) !!! prev) && allowed_from m end_ t q'
  end.

(** Emission vectors over [n] tags whose entries lie in [-c, c]. *)
Definition bounded_emissions (n : nat) (c : R) (us : list (list R)) : Prop :=
  Forall (λ u, length u = n ∧ Forall (λ x, (- c <= x <= c)%R) u) us.

(** The layer [self] without its mask. *)
Definition without_mask {V : Type} (self : CRF V) : CRF V :=
  {| start_idx := start_idx self; end_idx := end_idx self; n_tags := n_tags self;
     mask := None; transitions_p := transitions_p self;
     batch_first := batch_first self |}.

(** Emissions that are entry by entry at most those of [us']. *)
Definition emissions_le {V : Type} `{Score V} (us us' : list (list V)) : Prop :=
  Forall2 (Forall2 (λ x y, x ⊑ y)) us us'.

(** The layer [self] reading its inputs batch first, or time first. *)
Definition with_batch_first {V : Type} (self : CRF V) (bf : bool) : CRF V :=
  {| start_idx := start_idx self; end_idx := end_idx self; n_tags := n_tags self;
     mask := mask self; transitions_p := transitions_p self;
     batch_first := bf |}.

(** The character [c] occurs in the string [s]. *)
Fixpoint occurs (c : Ascii.ascii) (s : string) : bool :=
  match s with
  | String.EmptyString => false
  | String.String a s' => bool_decide (a = c) || occurs c s'
  end.

(** * Concrete inputs *)

(** The scenario of the specification: tags START = 0, A = 1, B = 2,
    END = 3; the mask leaves the transitions START to A, A to B and B to
    END. *)
Definition crf_chain : CRF Z :=
  {| start_idx := 0; end_idx := 3; n_tags := 4;
     mask := Some [[true; true; true; true]; [false; true; true; true];
                   [true; false; true; true]; [true; true; false; true]];
     transitions_p := replicate 4 (replicate 4 0%Z);
     batch_first := false |}.

(** A batch of two elements padded to three steps, and its second element
    alone. *)
Definition unary_pair : list (list (list Z)) :=
  [ [[-10000; 5; 0; -10000]; [-10000; 0; 5; -10000]];
    [[-10000; 0; 5; -10000]; [1; 2; 3; 4]];
    [[-10000; 3; 3; -10000]; [4; 3; 2; 1]] ]%Z.

Definition unary_alone : list (list (list Z)) := [ [[-10000; 0; 5; -10000]] ]%Z.

(** Transitions on which the -1e4 sentinel beats START. *)
Definition crf_steep : CRF Z :=
  {| start_idx := 0; end_idx := 1; n_tags := 2; mask := None;
     transitions_p := [[0; 0]; [-30000; 0]]%Z; batch_first := false |}.

Definition unary_steep : list (list (list Z)) := [ [[0; -10000]] ]%Z.

Section real_inputs_data.
Local Open Scope R_scope.

Definition crf_steep_R : CRF R :=
  {| start_idx := 0; end_idx := 1; n_tags := 2; mask := None;
     transitions_p := [[0; 0]; [-30000; 0]]; batch_first := false |}.

Definition unary_steep_R : list (list (list R)) := [ [[0; -10000]] ].

Definition crf_chain_R : CRF R :=
  {| start_idx := 0; end_idx := 3; n_tags := 4;
     mask := Some [[true; true; true; true]; [false; true; true; true];
                   [true; false; true; true]; [true; true; false; true]];
     transitions_p := replicate 4 (replicate 4 0);
     batch_first := false |}.

Definition unary_pair_R : list (list (list R)) :=
  [ [[-10000; 5; 0; -10000]; [-10000; 0; 5; -10000]];
    [[-10000; 0; 5; -10000]; [1; 2; 3; 4]];
    [[-10000; 3; 3; -10000]; [4; 3; 2; 1]] ].

Definition unary_alone_R : list (list (list R)) := [ [[-10000; 0; 5; -10000]] ].

End real_inputs_data.

(** Gold tags for the batch [unary_pair]: the second element has length 1,
    its entries at steps 1 and 2 are padding. *)
Definition tags_pair : list (list Z) := [[1; 2]; [2; 0]; [2; 0]]%Z.
Definition tags_pair' : list (list Z) := [[1; 2]; [2; 3]; [2; 1]]%Z.

(** A store holding the parameter and the mask of the chain layer. *)
Definition store_chain : store R :=
  [ Scores (replicate 4 (replicate 4 0%R));
    Flags [[true; true; true; true]; [false; true; true; true];
           [true; false; true; true]; [true; true; false; true]] ].

Definition obj_chain : CRF_obj :=
  {| o_start_idx := 0; o_end_idx := 3; o_n_tags := 4; o_mask := Some 1;
     o_transitions_p := 0; o_batch_first := false |}.

(** The chain layer with START and END given from the end: -4 and -1. *)
Definition crf_chain_neg_R : CRF R := with_idxs crf_chain_R (-4, -1)%Z.

Section small_inputs_data.
Local Open Scope R_scope.

(** One element of two steps with small emissions, favouring A then B. *)
Definition unary_small_R : list (list (list R)) :=
  [ [[0; 5; 0; 0]]; [[0; 0; 5; 0]] ].

(** [unary_pair_R] with 7 added to the emissions of the first element at
    step 1. *)
Definition unary_pair_shifted_R : list (list (list R)) :=
  [ [[-10000; 5; 0; -10000]; [-10000; 0; 5; -10000]];
    [[-10000 + 7; 0 + 7; 5 + 7; -10000 + 7]; [1; 2; 3; 4]];
    [[-10000; 3; 3; -10000]; [4; 3; 2; 1]] ].

(** A layer over four tags whose mask marks every transition valid. *)
Definition crf_open_R : CRF R :=
  {| start_idx := 0; end_idx := 3; n_tags := 4;
     mask := Some (replicate 4 (replicate 4 false));
     transitions_p := [[0; 1; 0; 2]; [3; 0; -1; 0]; [0; -2; 0; 1]; [1; 0; 2; 0]];
     batch_first := false |}.

(** A layer over four tags as [CRF.__init__] leaves it, over real scores. *)
Definition crf_fresh_R : CRF R :=
  {| start_idx := 0; end_idx := 3; n_tags := 4; mask := None;
     transitions_p := replicate 4 (replicate 4 0); batch_first := false |}.

(** Two elements of length 1 in a batch padded to three steps: the
    emissions favour the tag A at every step, the padded ones included. *)
Definition unary_padded_R : list (list (list R)) :=
  [ [[0; 5; 0; 0]; [0; 5; 0; 0]];
    [[0; 5; 0; 0]; [0; 5; 0; 0]];
    [[0; 5; 0; 0]; [0; 5; 0; 0]] ].
End small_inputs_data.

(** The gold tags of [unary_padded_R]: the tag A at every position. *)
Definition tags_padded : list (list Z) := [[1; 1]; [1; 1]; [1; 1]]%Z.

(** [unary_pair] with 7 added to the emissions of the first element at
    step 1. *)
Definition unary_pair_shifted : list (list (list Z)) :=
  [ [[-10000; 5; 0; -10000]; [-10000; 0; 5; -10000]];
    [[-9993; 7; 12; -9993]; [1; 2; 3; 4]];
    [[-10000; 3; 3; -10000]; [4; 3; 2; 1]] ]%Z.


(** * Properties *)

(** Shapes and ranges of concrete inputs. *)
Ltac shape_tac :=
  repeat first [ split | reflexivity | lia | constructor ].

(** ** Instances of exact arithmetic *)

#[export] Instance Z_score_laws : ScoreLaws Z.
Proof.
  split; cbn; intros; rewrite ?Z.leb_le in *; lia.
Qed.

Lemma R_sleb_le (x y : R) : x ⊑ y ↔ (x <= y)%R.
Proof. cbn. destruct (Rle_dec x y); split; (done || lra). Qed.

#[export] Instance R_score_laws : ScoreLaws R.
Proof.
  split; intros *; rewrite ?R_sleb_le; cbn; intros; lra.
Qed.

(** ** Primitives *)

Section primitives.
Context {V : Type} `{ScoreLaws V}.
#[local] Existing Instance score_inhabited.

Lemma sadd_0_r (x : V) : x ⊕ s0 = x.
Proof. by rewrite sadd_comm, sadd_0_l. Qed.

Lemma sadd_mono_l (x y z : V) : x ⊑ y → z ⊕ x ⊑ z ⊕ y.
Proof. rewrite !(sadd_comm z). apply sadd_mono_r. Qed.

Lemma sadd_mono (x y x' y' : V) : x ⊑ y → x' ⊑ y' → x ⊕ x' ⊑ y ⊕ y'.
Proof.
  intros Hx Hy. eapply sleb_trans; [by apply sadd_mono_r | by apply sadd_mono_l].
Qed.

Lemma sleb_false (x y : V) : sleb x y = false → y ⊑ x.
Proof. intros Hf. destruct (sleb_total x y) as [Hxy|Hyx]; congruence. Qed.

Lemma torch_max_from_spec (v : list V) (best : V) (bi i : nat) :
  let r := torch_max_from best bi i v in
  best ⊑ r.1 ∧ (∀ x, x ∈ v → x ⊑ r.1) ∧
  ((r.1 = best ∧ r.2 = bi) ∨ (∃ p, v !! p = Some r.1 ∧ r.2 = i + p)).
Proof.
  revert best bi i. induction v as [|x v IH]; intros best bi i; cbn.
  - split; [apply sleb_refl|]. split; [by intros x Hx; inversion Hx | by left].
  - destruct (sleb x best) eqn:Hx.
    + destruct (IH best bi (S i)) as (Hb & Hall & Hk). split; [done|]. split.
      * intros y Hy. apply elem_of_cons in Hy as [->|Hy]; [|by apply Hall].
        by eapply sleb_trans.
      * destruct Hk as [Hk | (p & Hp & Hk)]; [by left | right].
        exists (S p). split; [done | lia].
    + apply sleb_false in Hx.
      destruct (IH x i (S i)) as (Hb & Hall & Hk). split; [by eapply sleb_trans|].
      split.
      * intros y Hy. apply elem_of_cons in Hy as [->|Hy]; [done | by apply Hall].
      * right. destruct Hk as [[Hm Hk] | (p & Hp & Hk)].
        -- exists 0. cbn. rewrite Hm, Hk. split; [done | lia].
        -- exists (S p). split; [done | lia].
Qed.

Lemma torch_max_spec (v : list V) :
  v ≠ [] →
  v !! (torch_max v).2 = Some (torch_max v).1 ∧ ∀ x, x ∈ v → x ⊑ (torch_max v).1.
Proof.
  destruct v as [|x v]; [done | intros _]. cbn [torch_max].
  destruct (torch_max_from_spec v x 0 1) as (Hb & Hall & Hk). split.
  - destruct Hk as [[Hm Hk] | (p & Hp & Hk)].
    + by rewrite Hm, Hk.
    + by rewrite Hk.
  - intros y Hy. apply elem_of_cons in Hy as [->|Hy]; [done | by apply Hall].
Qed.

Lemma torch_max_lt (v : list V) : v ≠ [] → (torch_max v).2 < length v.
Proof.
  intros Hv. destruct (torch_max_spec v Hv) as [Hk _]. by eapply lookup_lt_Some.
Qed.

Lemma torch_max_ge (v : list V) (k : nat) (x : V) :
  v !! k = Some x → x ⊑ (torch_max v).1.
Proof.
  intros Hk. apply torch_max_spec; [by intros -> | by eapply list_elem_of_lookup_2].
Qed.
End primitives.

(** ** From the batch to one element *)

Section columns.
Context {A : Type}.
Implicit Types (t : list (list A)) (e : list A).

Lemma is_col_col b t e : is_col b t e → col b t = e.
Proof.
  induction 1 as [|row x t e Hx _ IH]; [done|].
  unfold col in *. cbn. by rewrite Hx, IH.
Qed.

Lemma is_col_app b t1 t2 e1 e2 :
  is_col b t1 e1 → is_col b t2 e2 → is_col b (t1 ++ t2) (e1 ++ e2).
Proof. apply Forall2_app. Qed.

Lemma is_col_reverse b t e : is_col b t e → is_col b (reverse t) (reverse e).
Proof. by apply Forall2_reverse. Qed.

Lemma is_col_take b n t e : is_col b t e → is_col b (take n t) (take n e).
Proof. by apply Forall2_take. Qed.

Lemma is_col_length b t e : is_col b t e → length e = length t.
Proof. intros Hc. symmetry. by eapply Forall2_length. Qed.

Lemma is_col_exists b m t :
  Forall (λ r, length r = m) t → b < m → ∃ e, is_col b t e.
Proof.
  intros Ht Hb. induction Ht as [|r t Hr _ [e IH]]; [by exists []; constructor|].
  destruct (lookup_lt_is_Some_2 r b) as [x Hx]; [lia|].
  exists (x :: e). by constructor.
Qed.

Lemma transpose01_length m t :
  t ≠ [] → Forall (λ r, length r = m) t → length (transpose01 t) = m.
Proof.
  intros Hne Ht. destruct t as [|r0 t]; [done|]. unfold transpose01.
  rewrite length_fmap, length_seq. by inversion Ht.
Qed.

Lemma transpose01_lookup b m t e :
  t ≠ [] → Forall (λ r, length r = m) t → is_col b t e → b < m →
  transpose01 t !! b = Some e.
Proof.
  intros Hne Ht Hc Hb. destruct t as [|r0 t]; [done|]. unfold transpose01.
  rewrite list_lookup_fmap, lookup_seq_lt by (by inversion Ht; subst).
  cbn [fmap option_fmap option_map plus]. f_equal. by apply is_col_col.
Qed.
End columns.

Lemma torch_min_le (lengths : list Z) (m l : Z) :
  torch_min lengths = Some m → l ∈ lengths → (m ≤ l)%Z.
Proof.
  destruct lengths as [|x r]; [done|]. cbn. intros [= <-].
  assert (Hgen : ∀ r x, (foldl Z.min x r ≤ x)%Z ∧ ∀ y, y ∈ r → (foldl Z.min x r ≤ y)%Z).
  { clear. induction r as [|z r IH]; intros x; cbn.
    - split; [lia | by intros y Hy; inversion Hy].
    - destruct (IH (x `min` z)%Z) as [H1 H2]. split; [lia|].
      intros y Hy. apply elem_of_cons in Hy as [->|Hy]; [lia | by apply H2]. }
  destruct (Hgen r x) as [H1 H2].
  intros Hl. apply elem_of_cons in Hl as [->|Hl]; [done | by apply H2].
Qed.

Section zip_withM.
Context {A B C : Type} (f : A → B → option C).

Lemma zip_withM_cons (x : A) (y : B) (l : list A) (k : list B) :
  zip_withM f (x :: l) (y :: k) = z ← f x y; r ← zip_withM f l k; Some (z :: r).
Proof. done. Qed.

Lemma zip_withM_Some (l : list A) (k : list B) :
  (∀ i x y, l !! i = Some x → k !! i = Some y → is_Some (f x y)) →
  ∃ r, zip_withM f l k = Some r ∧ length r = length l `min` length k ∧
       ∀ i x y, l !! i = Some x → k !! i = Some y → r !! i = f x y.
Proof.
  revert k. induction l as [|x l IH]; intros k Hf.
  { exists []. cbn. split; [done|]. split; [done|]. by intros i ? ? ?. }
  destruct k as [|y k].
  { exists []. cbn. split; [done|]. split; [done|]. by intros i ? ? ? ?. }
  destruct (Hf 0 x y eq_refl eq_refl) as [z Hz].
  destruct (IH k) as (r & Hr & Hlen & Hlk).
  { intros i x' y' Hx' Hy'. by apply (Hf (S i)). }
  exists (z :: r). cbn. rewrite Hz, Hr. cbn. split; [done|]. split; [lia|].
  intros [|i] x' y' Hx' Hy'; cbn in *; [by simplify_eq | by apply Hlk].
Qed.

Lemma zip_withM_inv (l : list A) (k : list B) (r : list C) :
  zip_withM f l k = Some r →
  length r = length l `min` length k ∧
  ∀ i x y, l !! i = Some x → k !! i = Some y → r !! i = f x y.
Proof.
  revert k r. induction l as [|x l IH]; intros k r; cbn.
  { intros [= <-]. split; [done|]. by intros i ? ? ?. }
  destruct k as [|y k].
  { intros [= <-]. split; [done|]. by intros i ? ? ? ?. }
  destruct (f x y) as [z|] eqn:Hz; [cbn | done].
  destruct (zip_withM f l k) as [r'|] eqn:Hr; [cbn | done].
  intros [= <-]. destruct (IH k r' Hr) as [Hlen Hlk]. split; [cbn; lia|].
  intros [|i] x' y' Hx' Hy'; cbn in *; [by simplify_eq | by apply Hlk].
Qed.

Lemma zip_withM_None (l : list A) (k : list B) (i : nat) (x : A) (y : B) :
  l !! i = Some x → k !! i = Some y → f x y = None → zip_withM f l k = None.
Proof.
  intros Hx Hy Hf. destruct (zip_withM f l k) as [r|] eqn:Hr; [|done].
  destruct (zip_withM_inv l k r Hr) as [Hlen Hlk].
  specialize (Hlk i x y Hx Hy). rewrite Hf in Hlk.
  apply lookup_ge_None in Hlk. apply lookup_lt_Some in Hx, Hy. lia.
Qed.
End zip_withM.

(** ** The length masks select, per element, the new state or the old one *)

Section blend.
Context {V : Type} `{ScoreLaws V}.

Lemma zip_with_zero_l (a na : list V) :
  length a = length na → zip_with sadd ((λ _, s0) <$> a) na = na.
Proof.
  revert na. induction a as [|x a IH]; intros [|y na]; cbn; try done.
  intros [= Hlen]. by rewrite sadd_0_l, IH.
Qed.

Lemma zip_with_zero_r (a na : list V) :
  length a = length na → zip_with sadd a ((λ _, s0) <$> na) = a.
Proof.
  revert na. induction a as [|x a IH]; intros [|y na]; cbn; try done.
  intros [= Hlen]. by rewrite sadd_0_r, IH.
Qed.

Lemma blend_alphas_lookup (i b : nat) (lengths : list Z) (l : Z)
    (alphas new_alphas : list (list V)) (a na : list V) :
  lengths !! b = Some l → alphas !! b = Some a → new_alphas !! b = Some na →
  length a = length na →
  blend_alphas (lt_lengths i lengths) alphas new_alphas !! b
  = Some (if bool_decide (Z.of_nat i < l)%Z then na else a).
Proof.
  intros Hl Ha Hna Hlen. unfold blend_alphas, masked_fill_rows, lt_lengths.
  rewrite !lookup_zip_with, !list_lookup_fmap, Ha, Hna, Hl. cbn.
  destruct (bool_decide (Z.of_nat i < l)%Z); cbn; f_equal.
  - rewrite list_fmap_id. by apply zip_with_zero_l.
  - rewrite list_fmap_id. by apply zip_with_zero_r.
Qed.

(** One step of either loop, seen from the element [b]. *)
Lemma loop_select_lookup (i b : nat) (lengths : list Z) (l m : Z)
    (alphas new_alphas : list (list V)) (a na : list V) :
  torch_min lengths = Some m →
  lengths !! b = Some l → alphas !! b = Some a → new_alphas !! b = Some na →
  length a = length na →
  (if bool_decide (m ≤ Z.of_nat i)%Z
   then blend_alphas (lt_lengths i lengths) alphas new_alphas
   else new_alphas) !! b
  = Some (if bool_decide (Z.of_nat i < l)%Z then na else a).
Proof.
  intros Hm Hl Ha Hna Hlen. case_bool_decide as Hi.
  - by apply blend_alphas_lookup.
  - rewrite bool_decide_eq_true_2; [done|].
    pose proof (torch_min_le lengths m l Hm (list_elem_of_lookup_2 _ _ _ Hl)). lia.
Qed.
End blend.

(** ** The batched loops act on each element as the one-element loops *)

Section loops.
Context {V : Type} `{ScoreLaws V}.
#[local] Arguments viterbi_step : simpl never.
#[local] Arguments forward_new_alphas : simpl never.

Lemma forward_cell_length `{LogSumExp V} (trans : list (list V)) (a u : list V) :
  length (forward_cell trans a u) = length trans `min` length u.
Proof. unfold forward_cell. by rewrite length_zip_with. Qed.

Lemma viterbi_cell_length (trans : list (list V)) (a u : list V) :
  length (viterbi_cell trans a u) = length trans `min` length u.
Proof. unfold viterbi_cell, max_into. by rewrite length_zip_with, !length_fmap. Qed.

Lemma back_ptr_length (trans : list (list V)) (a : list V) :
  length (back_ptr trans a) = length trans.
Proof. unfold back_ptr, max_into. by rewrite !length_fmap. Qed.

Lemma forward_loop_lookup `{LogSumExp V} (trans : list (list V)) (lengths : list Z)
    (m l : Z) (b n : nat) (unary : list (list (list V))) (us : list (list V)) :
  torch_min lengths = Some m → lengths !! b = Some l → length trans = n →
  is_col b unary us → Forall (λ u, length u = n) us →
  ∀ (i : nat) (alphas : list (list V)) (a : list V),
    alphas !! b = Some a → length a = n →
    forward_loop trans lengths m i unary alphas !! b
    = Some (forward_loop1 trans l i us a).
Proof.
  intros Hm Hl Htr Hcol. induction Hcol as [|row u unary us Hu _ IH];
    intros Hlen i alphas a Ha Hla; [done|].
  apply Forall_cons_1 in Hlen as [Hlu Hlen]. cbn.
  apply IH; [done| |].
  - apply loop_select_lookup; try done.
    + unfold forward_new_alphas. by rewrite lookup_zip_with, Ha, Hu.
    + rewrite forward_cell_length. lia.
  - case_bool_decide; [|done]. rewrite forward_cell_length. lia.
Qed.

Lemma viterbi_step_lookup (trans alphas unary_t : list (list V)) (b : nat)
    (a u : list V) :
  alphas !! b = Some a → unary_t !! b = Some u →
  (viterbi_step trans alphas unary_t).1 !! b = Some (viterbi_cell trans a u) ∧
  (viterbi_step trans alphas unary_t).2 !! b = Some (back_ptr trans a).
Proof.
  intros Ha Hu. unfold viterbi_step. cbn. split.
  - by rewrite lookup_zip_with, !list_lookup_fmap, Ha, Hu.
  - by rewrite !list_lookup_fmap, Ha.
Qed.

Lemma viterbi_loop_lookup (trans : list (list V)) (lengths : list Z)
    (m l : Z) (b n : nat) (unary : list (list (list V))) (us : list (list V)) :
  torch_min lengths = Some m → lengths !! b = Some l → length trans = n →
  is_col b unary us → Forall (λ u, length u = n) us →
  ∀ (i : nat) (alphas : list (list V)) (a : list V)
    (bps : list (list (list nat))) (bps1 : list (list nat)),
    alphas !! b = Some a → length a = n → is_col b bps bps1 →
    (viterbi_loop trans lengths m i unary alphas bps).1 !! b
    = Some (viterbi_loop1 trans l i us a bps1).1 ∧
    is_col b (viterbi_loop trans lengths m i unary alphas bps).2
             (viterbi_loop1 trans l i us a bps1).2.
Proof.
  intros Hm Hl Htr Hcol. induction Hcol as [|row u unary us Hu _ IH];
    intros Hlen i alphas a bps bps1 Ha Hla Hbps; [done|].
  apply Forall_cons_1 in Hlen as [Hlu Hlen]. cbn.
  destruct (viterbi_step_lookup trans alphas row b a u Ha Hu) as [Hs1 Hs2].
  destruct (viterbi_step trans alphas row) as [new_alphas best_tag_ids]. cbn in Hs1, Hs2.
  apply IH; [done| | |].
  - apply loop_select_lookup; [done | done | done | exact Hs1 |].
    rewrite viterbi_cell_length. lia.
  - case_bool_decide; [|done]. rewrite viterbi_cell_length. lia.
  - apply is_col_app; [done|]. by repeat constructor.
Qed.

(** The loops of the code record one row of back-pointers per time step. *)
Lemma viterbi_loop_bps_length (trans : list (list V)) (lengths : list Z) (m : Z)
    (unary : list (list (list V))) :
  ∀ (i : nat) (alphas : list (list V)) (bps : list (list (list nat))),
    length (viterbi_loop trans lengths m i unary alphas bps).2
    = length bps + length unary.
Proof.
  induction unary as [|row unary IH]; intros i alphas bps; cbn; [lia|].
  destruct (viterbi_step trans alphas row) as [new_alphas best_tag_ids].
  rewrite IH, length_app. cbn. lia.
Qed.
End loops.

(** ** Padding: the one-element loops run over the true length only *)

Lemma last_cons_default {A : Type} (x : A) (w : list A) (d d' : A) :
  List.last (x :: w) d = List.last (x :: w) d'.
Proof. revert x. induction w as [|y w IH]; intros x; [done|]. apply (IH y). Qed.

Lemma last_snoc_default {A : Type} (x : A) (w : list A) (d : A) :
  List.last (w ++ [x]) d = x.
Proof. apply List.last_last. Qed.

Section padding.
Context {V : Type} `{Score V}.

Lemma forward_loop1_take `{LogSumExp V} (trans : list (list V)) (l : Z)
    (us : list (list V)) :
  ∀ (i : nat) (a : list V),
    forward_loop1 trans l i us a = forward_run trans a (take (Z.to_nat l - i) us).
Proof.
  induction us as [|u us IH]; intros i a; cbn.
  { by rewrite take_nil. }
  rewrite IH. case_bool_decide as Hi.
  - replace (Z.to_nat l - i) with (S (Z.to_nat l - S i)) by lia. done.
  - replace (Z.to_nat l - i) with 0 by lia.
    replace (Z.to_nat l - S i) with 0 by lia. by rewrite take_0.
Qed.

Lemma viterbi_loop1_take (trans : list (list V)) (l : Z) (us : list (list V)) :
  ∀ (i : nat) (a : list V) (bps : list (list nat)),
    let n := Z.to_nat l - i in
    let a' := viterbi_run trans a (take n us) in
    viterbi_loop1 trans l i us a bps
    = (a', bps ++ viterbi_bps trans a (take n us)
               ++ replicate (length us - n) (back_ptr trans a')).
Proof.
  induction us as [|u us IH]; intros i a bps; cbn.
  { rewrite take_nil. cbn. by rewrite app_nil_r. }
  rewrite IH. case_bool_decide as Hi.
  - replace (Z.to_nat l - i) with (S (Z.to_nat l - S i)) by lia. cbn.
    by rewrite <- app_assoc.
  - replace (Z.to_nat l - i) with 0 by lia.
    replace (Z.to_nat l - S i) with 0 by lia. rewrite !take_0. cbn.
    rewrite <- app_assoc. cbn. by rewrite Nat.sub_0_r.
Qed.

Lemma backtrack1_length (r : Z) (bps : list (list nat)) :
  ∀ (i k : nat), length (backtrack1 r i bps k) = length bps.
Proof. induction bps as [|bp bps IH]; intros i k; cbn; [done | by rewrite IH]. Qed.

Lemma walk_back_length (bps : list (list nat)) :
  ∀ k : nat, length (walk_back bps k) = length bps.
Proof. induction bps as [|bp bps IH]; intros k; cbn; [done | by rewrite IH]. Qed.

Lemma backtrack1_walk (r : Z) (bps : list (list nat)) :
  ∀ (i k : nat), (r < Z.of_nat i)%Z → backtrack1 r i bps k = walk_back bps k.
Proof.
  induction bps as [|bp bps IH]; intros i k Hi; cbn; [done|].
  rewrite bool_decide_eq_true_2 by done. rewrite IH by lia. done.
Qed.

(** The walk holds its tag through the padding, then follows the
    back-pointers of the element's own steps. *)
Lemma backtrack1_hold_walk (r : Z) (vb : list (list nat)) (k : nat)
    (pad : list (list nat)) :
  ∀ i : nat, Z.of_nat (i + length pad) = (r + 1)%Z →
    backtrack1 r i (pad ++ vb) k = replicate (length pad) k ++ walk_back vb k.
Proof.
  induction pad as [|bp pad IH]; intros i Hi; cbn in *.
  - apply backtrack1_walk. lia.
  - rewrite bool_decide_eq_false_2 by lia. rewrite IH by lia. done.
Qed.

Lemma walk_back_snoc (bps : list (list nat)) (bp : list nat) :
  ∀ k : nat, walk_back (bps ++ [bp]) k
             = walk_back bps k ++ [bp !!! List.last (walk_back bps k) k].
Proof.
  induction bps as [|bp' bps IH]; intros k; [done|].
  cbn [app walk_back]. rewrite IH. cbn [app]. do 3 f_equal.
  destruct (walk_back bps (bp' !!! k)) as [|x w] eqn:Hw; [done|].
  change (List.last (bp' !!! k :: x :: w) k) with (List.last (x :: w) k).
  f_equal. by apply last_cons_default.
Qed.
End padding.

(** ** The backward walk rebuilds the best path *)

Section walk.
Context {V : Type} `{Score V}.

Lemma last_cons_self {A : Type} (w : list A) (k d : A) :
  List.last w k = List.last (k :: w) d.
Proof.
  destruct w as [|x w]; [done|].
  change (List.last (k :: x :: w) d) with (List.last (x :: w) d).
  apply last_cons_default.
Qed.

Lemma pop_snoc {A : Type} (w : list A) (x : A) : pop (w ++ [x]) = w.
Proof.
  unfold pop. rewrite length_app. cbn.
  replace (length w + 1 - 1) with (length w) by lia. by rewrite take_app_length.
Qed.

Lemma viterbi_path_walk (trans : list (list V)) (trans_end : list V)
    (us : list (list V)) :
  ∀ a : list V,
    let k0 := (torch_max (zip_with sadd (viterbi_run trans a us) trans_end)).2 in
    reverse (k0 :: walk_back (reverse (viterbi_bps trans a us)) k0)
    = (viterbi_path trans trans_end a us).1 :: (viterbi_path trans trans_end a us).2.
Proof.
  induction us as [|u us IH]; intros a; [done|].
  cbn [viterbi_bps viterbi_path fst snd]. cbv zeta in *.
  change (viterbi_run trans a (u :: us))
    with (viterbi_run trans (viterbi_cell trans a u) us).
  specialize (IH (viterbi_cell trans a u)).
  set (k0 := (torch_max (zip_with sadd (viterbi_run trans (viterbi_cell trans a u) us)
                                   trans_end)).2) in *.
  rewrite (reverse_cons (viterbi_bps _ _ _)), walk_back_snoc, app_comm_cons, reverse_app.
  change (reverse [?x]) with [x]. cbn [app]. rewrite IH. do 2 f_equal.
  rewrite (last_cons_self _ k0 0).
  apply (f_equal reverse) in IH. rewrite reverse_involutive, reverse_cons in IH.
  rewrite IH. apply last_snoc_default.
Qed.

Lemma decoded_path_unpadded (trans : list (list V)) (trans_end a : list V)
    (us : list (list V)) :
  let k0 := (torch_max (zip_with sadd (viterbi_run trans a us) trans_end)).2 in
  reverse (pop (k0 :: walk_back (reverse (viterbi_bps trans a us)) k0))
  = (viterbi_path trans trans_end a us).2.
Proof.
  intros k0. pose proof (viterbi_path_walk trans trans_end us a) as Hw.
  cbv zeta in Hw. fold k0 in Hw.
  apply (f_equal reverse) in Hw. rewrite reverse_involutive, reverse_cons in Hw.
  rewrite Hw, pop_snoc. apply reverse_involutive.
Qed.

(** Dropping the padding of the walk of the code. *)
Lemma decoded_path_take (r : Z) (vb pad : list (list nat)) (k0 : nat) :
  Z.of_nat (length pad) = (r + 1)%Z →
  take (length vb) (reverse (pop (k0 :: backtrack1 r 0 (reverse (vb ++ pad)) k0)))
  = reverse (pop (k0 :: walk_back (reverse vb) k0)).
Proof.
  intros Hr. rewrite reverse_app, backtrack1_hold_walk
    by (rewrite length_reverse; lia).
  rewrite length_reverse, app_comm_cons, replicate_cons_app, <- app_assoc.
  cbn [app]. set (w := k0 :: walk_back (reverse vb) k0).
  assert (Hlw : length w = S (length vb)).
  { unfold w. cbn. by rewrite walk_back_length, length_reverse. }
  unfold pop at 1. rewrite length_app, length_replicate, Hlw.
  replace (length pad + S (length vb) - 1) with (length pad + length vb) by lia.
  rewrite take_app_add' by (by rewrite length_replicate).
  rewrite reverse_app.
  replace (take (length vb) w) with (pop w)
    by (unfold pop; rewrite Hlw; f_equal; lia).
  apply take_app_length'. rewrite length_reverse. unfold pop.
  rewrite length_take, Hlw. lia.
Qed.
End walk.

(** ** The batched backward walk never fails and walks each element *)

Section backtrack_batch.

Lemma select_tag_lookup (rev_len : list Z) (i b : nat) (r : Z)
    (best_tag_id new_best_tag_id : list nat) (k k' : nat) :
  let mask := (λ r, bool_decide (r < Z.of_nat i)%Z) <$> rev_len in
  rev_len !! b = Some r → best_tag_id !! b = Some k →
  new_best_tag_id !! b = Some k' →
  zip_with Nat.add (masked_fill best_tag_id mask 0)
                   (masked_fill new_best_tag_id (negb <$> mask) 0) !! b
  = Some (if bool_decide (r < Z.of_nat i)%Z then k' else k).
Proof.
  intros mask Hr Hk Hk'. unfold masked_fill, mask.
  rewrite !lookup_zip_with, !list_lookup_fmap, Hr, Hk, Hk'. cbn.
  destruct (bool_decide (r < Z.of_nat i)%Z); cbn; f_equal; lia.
Qed.

Lemma backtrack_cols (rev_len : list Z) (B N : nat) :
  length rev_len = B →
  ∀ (bps : list (list (list nat))) (i : nat) (best_tag_id : list nat)
    (best_path : list (list nat)),
    Forall (bp_shape B N) bps →
    length best_tag_id = B → Forall (λ k, k < N) best_tag_id →
    ∃ rows,
      backtrack rev_len i bps best_tag_id best_path = Some (best_path ++ rows) ∧
      Forall (λ row, length row = B ∧ Forall (λ k, k < N) row) rows ∧
      length rows = length bps ∧
      ∀ b r k bps1, rev_len !! b = Some r → best_tag_id !! b = Some k →
        is_col b bps bps1 → is_col b rows (backtrack1 r i bps1 k).
Proof.
  intros Hrl. induction bps as [|bp_t bps IH]; intros i btid path Hbps Hlb Hran.
  { exists []. cbn. rewrite app_nil_r. repeat split; try done.
    intros b r k bps1 _ _ Hc. inversion Hc; subst. constructor. }
  apply Forall_cons_1 in Hbps as [[Hbl Hbrows] Hbps]. cbn [backtrack].
  destruct (zip_withM_Some (λ (row : list nat) (k : nat), row !! k) bp_t btid)
    as (new & Hnew & Hnl & Hnlk).
  { intros j row k Hrow Hk. apply lookup_lt_is_Some_2.
    rewrite Forall_lookup in Hbrows. destruct (Hbrows j row Hrow) as [-> _].
    rewrite Forall_lookup in Hran. by apply (Hran j). }
  rewrite Hnew. cbn [mbind option_bind].
  set (mask := (λ r, bool_decide (r < Z.of_nat i)%Z) <$> rev_len).
  set (btid' := zip_with Nat.add (masked_fill btid mask 0)
                                 (masked_fill new (negb <$> mask) 0)).
  assert (Hsel : ∀ b r k row, rev_len !! b = Some r → btid !! b = Some k →
            bp_t !! b = Some row →
            k < N ∧ length row = N ∧ Forall (λ k, k < N) row ∧
            btid' !! b = Some (if bool_decide (r < Z.of_nat i)%Z then row !!! k else k)).
  { intros b r k row Hr Hk Hrow.
    rewrite Forall_lookup in Hbrows. destruct (Hbrows b row Hrow) as [Hrl' Hrr].
    rewrite Forall_lookup in Hran. pose proof (Hran b k Hk) as Hklt.
    repeat split; try done. apply select_tag_lookup; try done.
    rewrite (Hnlk b row k Hrow Hk). apply list_lookup_lookup_total_lt. lia. }
  assert (Hlb' : length btid' = B).
  { unfold btid', masked_fill, mask.
    rewrite !length_zip_with, !length_fmap. lia. }
  assert (Hran' : Forall (λ k, k < N) btid').
  { apply Forall_lookup. intros b x Hx.
    pose proof (lookup_lt_Some _ _ _ Hx) as Hb. rewrite Hlb' in Hb.
    destruct (lookup_lt_is_Some_2 rev_len b) as [r Hr]; [lia|].
    destruct (lookup_lt_is_Some_2 btid b) as [k Hk]; [lia|].
    destruct (lookup_lt_is_Some_2 bp_t b) as [row Hrow]; [lia|].
    destruct (Hsel b r k row Hr Hk Hrow) as (Hklt & Hrl' & Hrr & Hb').
    rewrite Hb' in Hx. injection Hx as <-. case_bool_decide; [|done].
    rewrite Forall_lookup in Hrr. apply (Hrr k).
    apply list_lookup_lookup_total_lt. lia. }
  destruct (IH (S i) btid' (path ++ [btid']) Hbps Hlb' Hran')
    as (rows & Hrows & Hshape & Hlen & Hcols).
  exists (btid' :: rows). rewrite Hrows, <- app_assoc. cbn [app].
  repeat split; try done.
  - by constructor.
  - cbn. by rewrite Hlen.
  - intros b r k bps1 Hr Hk Hc. inversion Hc as [|row x ? bps1' Hrow Hc']; subst.
    destruct (Hsel b r k x Hr Hk Hrow) as (Hklt & Hrl' & Hrr & Hb').
    cbn [backtrack1]. constructor; [done|]. by apply Hcols.
Qed.
End backtrack_batch.

(** ** Shapes are kept by the loops *)

Section shapes.
Context {V : Type} `{ScoreLaws V}.
#[local] Arguments viterbi_step : simpl never.

Lemma shape2_lookup {A : Type} (n m : nat) (t : list (list A)) :
  shape2 n m t ↔ length t = n ∧ ∀ b row, t !! b = Some row → length row = m.
Proof. unfold shape2. by rewrite Forall_lookup. Qed.

Lemma blend_alphas_shape (B N : nat) (m : list bool)
    (alphas new_alphas : list (list V)) :
  length m = B → shape2 B N alphas → shape2 B N new_alphas →
  shape2 B N (blend_alphas m alphas new_alphas).
Proof.
  rewrite !shape2_lookup. intros Hm [Hla Ha] [Hln Hn]. unfold blend_alphas, masked_fill_rows.
  split; [rewrite !length_zip_with, length_fmap; lia|].
  intros b row Hrow. apply lookup_zip_with_Some in Hrow as (r1 & r2 & -> & Hr1 & Hr2).
  apply lookup_zip_with_Some in Hr1 as (a & m1 & -> & Ha1 & _).
  apply lookup_zip_with_Some in Hr2 as (na & m2 & -> & Hn1 & _).
  rewrite length_zip_with, !length_fmap, (Ha _ _ Ha1), (Hn _ _ Hn1). lia.
Qed.

Lemma back_ptr_lt (N : nat) (trans : list (list V)) (a : list V) :
  0 < N → Forall (λ r, length r = N) trans → length a = N →
  Forall (λ k, k < N) (back_ptr trans a).
Proof.
  intros HN Htr Ha. unfold back_ptr, max_into. rewrite <- list_fmap_compose.
  apply Forall_fmap. eapply List.Forall_impl; [|exact Htr]. intros row Hrow. cbn in *.
  assert (Hlen : length (zip_with sadd a row) = N)
    by (rewrite length_zip_with; lia).
  rewrite <- Hlen. apply torch_max_lt. intros Hnil. rewrite Hnil in Hlen. cbn in Hlen. lia.
Qed.

Lemma viterbi_step_shape (B N : nat) (trans alphas unary_t : list (list V)) :
  0 < N → shape2 N N trans → shape2 B N alphas → shape2 B N unary_t →
  shape2 B N (viterbi_step trans alphas unary_t).1 ∧
  bp_shape B N (viterbi_step trans alphas unary_t).2.
Proof.
  intros HN [Htl Htr] Hal Hun.
  pose proof Hal as [Hla Ha]. pose proof Hun as [Hlu Hu].
  rewrite Forall_lookup in Ha, Hu. split.
  - apply shape2_lookup. split.
    { unfold viterbi_step. cbn. rewrite length_zip_with, !length_fmap. lia. }
    intros b row Hrow. pose proof (lookup_lt_Some _ _ _ Hrow) as Hb.
    unfold viterbi_step in Hb. cbn in Hb. rewrite length_zip_with, !length_fmap in Hb.
    destruct (lookup_lt_is_Some_2 alphas b) as [a Hab]; [lia|].
    destruct (lookup_lt_is_Some_2 unary_t b) as [u Hub]; [lia|].
    destruct (viterbi_step_lookup trans alphas unary_t b a u Hab Hub) as [Hs _].
    rewrite Hs in Hrow. injection Hrow as <-.
    rewrite viterbi_cell_length, (Hu _ _ Hub). lia.
  - split.
    { unfold viterbi_step. cbn. by rewrite !length_fmap. }
    apply Forall_lookup. intros b row Hrow.
    pose proof (lookup_lt_Some _ _ _ Hrow) as Hb.
    unfold viterbi_step in Hb. cbn in Hb. rewrite !length_fmap in Hb.
    destruct (lookup_lt_is_Some_2 alphas b) as [a Hab]; [lia|].
    destruct (lookup_lt_is_Some_2 unary_t b) as [u Hub]; [lia|].
    destruct (viterbi_step_lookup trans alphas unary_t b a u Hab Hub) as [_ Hs].
    rewrite Hs in Hrow. injection Hrow as <-.
    split; [by rewrite back_ptr_length|].
    apply back_ptr_lt; [done | done | by apply (Ha b)].
Qed.

Lemma viterbi_loop_shape (B N : nat) (trans : list (list V)) (lengths : list Z)
    (m : Z) (unary : list (list (list V))) :
  0 < N → shape2 N N trans → length lengths = B → Forall (shape2 B N) unary →
  ∀ (i : nat) (alphas : list (list V)) (bps : list (list (list nat))),
    shape2 B N alphas → Forall (bp_shape B N) bps →
    shape2 B N (viterbi_loop trans lengths m i unary alphas bps).1 ∧
    Forall (bp_shape B N) (viterbi_loop trans lengths m i unary alphas bps).2.
Proof.
  intros HN Htr Hll Hun. induction Hun as [|unary_t unary Hut _ IH];
    intros i alphas bps Hal Hbps; [done|].
  cbn [viterbi_loop].
  destruct (viterbi_step_shape B N trans alphas unary_t HN Htr Hal Hut) as [Hs1 Hs2].
  destruct (viterbi_step trans alphas unary_t) as [new_alphas best_tag_ids].
  cbn [fst snd] in Hs1, Hs2. apply IH.
  - case_bool_decide; [|done]. apply blend_alphas_shape; try done.
    unfold lt_lengths. by rewrite length_fmap.
  - apply Forall_app. split; [done | by constructor].
Qed.
End shapes.

(** ** The result of [viterbi] and of [forward] for each batch element *)

Section elements.
Context {V : Type} `{ScoreLaws V}.
#[local] Existing Instance score_inhabited.

Lemma py_index_nat (n k : nat) : k < n → py_index n (Z.of_nat k) = Some k.
Proof.
  intros Hk. unfold py_index. rewrite bool_decide_eq_true_2 by lia.
  by rewrite Nat2Z.id.
Qed.

Lemma py_get_nat {A : Type} (t : list A) (k : nat) (x : A) :
  t !! k = Some x → py_get t (Z.of_nat k) = Some x.
Proof.
  intros Hx. unfold py_get. rewrite py_index_nat by (by eapply lookup_lt_Some).
  done.
Qed.

Lemma init_alphas_nat (B N st : nat) :
  st < N →
  init_alphas B N (Z.of_nat st) = Some (replicate B (init_alpha N st : list V)).
Proof. intros Hst. unfold init_alphas. by rewrite py_index_nat. Qed.

Lemma init_alpha_length (N st : nat) : length (init_alpha N st : list V) = N.
Proof. unfold init_alpha. by rewrite length_insert, length_replicate. Qed.

Lemma torch_min_is_Some (lengths : list Z) :
  0 < length lengths → ∃ m, torch_min lengths = Some m.
Proof. destruct lengths; cbn; [lia | eauto]. Qed.

Lemma viterbi_bps_length (trans : list (list V)) (us : list (list V)) :
  ∀ a : list V, length (viterbi_bps trans a us) = length us.
Proof. induction us as [|u us IH]; intros a; cbn; [done | by rewrite IH]. Qed.

(** What [viterbi] returns for a batch, element by element. *)
Lemma viterbi_elements (T B N st en : nat) (unary : list (list (list V)))
    (trans : list (list V)) (lengths : list Z) :
  shape3 T B N unary → shape2 N N trans → length lengths = B →
  0 < T → 0 < B → st < N → en < N →
  ∃ paths scores,
    viterbi unary trans lengths (Z.of_nat st) (Z.of_nat en) = Some (paths, scores) ∧
    length paths = B ∧ length scores = B ∧
    ∀ b l us, lengths !! b = Some l → (1 ≤ l ≤ Z.of_nat T)%Z → is_col b unary us →
      paths !! b = Some (viterbi1 trans st en (take (Z.to_nat l) us)).1 ∧
      scores !! b = Some (viterbi1 trans st en (take (Z.to_nat l) us)).2.
Proof.
  intros [HT Hun] Htr Hll HT1 HB Hst Hen.
  pose proof Htr as [Htl Htrows].
  destruct (torch_min_is_Some lengths) as [m Hm]; [lia|].
  destruct unary as [|unary_0 rest]; [cbn in HT; lia|].
  unfold viterbi. cbv beta iota.
  assert (Hu0 : shape2 B N unary_0) by (by apply Forall_cons_1 in Hun as [? _]).
  remember (unary_0 :: rest) as unary eqn:Hunary.
  rewrite Hm. cbn [mbind option_bind].
  destruct Hu0 as [Hu0l Hu0r]. rewrite Hu0l.
  assert (Hhd : length (hd [] unary_0) = N).
  { destruct unary_0 as [|v ?]; [cbn in Hu0l; lia|].
    by apply Forall_cons_1 in Hu0r as [? _]. }
  rewrite Hhd, init_alphas_nat by done. cbn [mbind option_bind].
  assert (Hal0 : shape2 B N (replicate B (init_alpha N st : list V))).
  { split; [by rewrite length_replicate|]. apply Forall_replicate.
    apply init_alpha_length. }
  pose proof (viterbi_loop_shape B N trans lengths m unary ltac:(lia) Htr Hll Hun 0
                _ [] Hal0 (Forall_nil_2 _)) as [Hal Hbps].
  pose proof (viterbi_loop_bps_length trans lengths m unary 0
                (replicate B (init_alpha N st)) []) as Hbl.
  assert (Hcols : ∀ b l us, lengths !! b = Some l → is_col b unary us →
    (viterbi_loop trans lengths m 0 unary (replicate B (init_alpha N st)) []).1 !! b
    = Some (viterbi_loop1 trans l 0 us (init_alpha N st) []).1 ∧
    is_col b (viterbi_loop trans lengths m 0 unary (replicate B (init_alpha N st)) []).2
             (viterbi_loop1 trans l 0 us (init_alpha N st) []).2).
  { intros b l us Hl Hc.
    apply (viterbi_loop_lookup trans lengths m l b N); try done.
    - apply Forall_lookup. intros t u Hu.
      destruct (Forall2_lookup_r _ _ _ _ _ Hc Hu) as (row & Hrow & Hru).
      rewrite Forall_lookup in Hun. destruct (Hun _ _ Hrow) as [_ Hrr].
      rewrite Forall_lookup in Hrr. by apply (Hrr b).
    - apply lookup_replicate_2. apply lookup_lt_Some in Hl. lia.
    - apply init_alpha_length.
    - constructor. }
  destruct (viterbi_loop trans lengths m 0 unary (replicate B (init_alpha N st)) [])
    as [alphas bps]. cbn [fst snd] in *.
  destruct (lookup_lt_is_Some_2 trans en) as [trans_end Hte]; [lia|].
  rewrite (py_get_nat _ _ _ Hte). cbn [mbind option_bind].
  assert (Htel : length trans_end = N).
  { rewrite Forall_lookup in Htrows. by apply (Htrows en). }
  set (terminal_var := (λ alpha, torch_max (zip_with sadd alpha trans_end)) <$> alphas).
  set (rev_len := (λ l, Z.of_nat (length unary) - l - 1)%Z <$> lengths).
  destruct Hal as [Hall Halr].
  assert (Hk0 : Forall (λ k, k < N) (snd <$> terminal_var)).
  { unfold terminal_var. rewrite <- list_fmap_compose. apply Forall_fmap.
    eapply List.Forall_impl; [|exact Halr]. intros a Ha. cbn in *.
    assert (Hz : length (zip_with sadd a trans_end) = N)
      by (rewrite length_zip_with; lia).
    rewrite <- Hz. apply torch_max_lt. intros Hnil. rewrite Hnil in Hz. cbn in Hz. lia. }
  destruct (backtrack_cols rev_len B N ltac:(unfold rev_len; by rewrite length_fmap)
              (reverse bps) 0 (snd <$> terminal_var) [snd <$> terminal_var])
    as (rows & Hrows & Hrsh & Hrl & Hrcols).
  { by apply Forall_reverse. }
  { unfold terminal_var. by rewrite !length_fmap. }
  { done. }
  rewrite Hrows. cbn [mbind option_bind].
  eexists _, _. split; [reflexivity|].
  set (X := [terminal_var.*2] ++ rows).
  assert (HXl : length X = S T).
  { unfold X. cbn [app length]. rewrite Hrl, length_reverse, Hbl. cbn. lia. }
  assert (HXr : Forall (λ row, length row = B) X).
  { unfold X. cbn. constructor.
    - unfold terminal_var. by rewrite !length_fmap.
    - eapply List.Forall_impl; [|exact Hrsh]. by intros row [? _]. }
  assert (HPr : Forall (λ row, length row = B) (reverse (pop X))).
  { apply Forall_reverse. unfold pop. by apply Forall_take. }
  assert (HPn : reverse (pop X) ≠ []).
  { intros Hnil. apply (f_equal length) in Hnil. unfold pop in Hnil.
    rewrite length_reverse, length_take, HXl in Hnil. cbn in Hnil. lia. }
  split; [|split].
  - rewrite length_zip_with, (transpose01_length B) by done. lia.
  - unfold terminal_var. by rewrite !length_fmap.
  - intros b l us Hl Hlr Hc. destruct (Hcols b l us Hl Hc) as [Hab Hbc].
    pose proof (lookup_lt_Some _ _ _ Hl) as Hb.
    pose proof (is_col_length _ _ _ Hc) as Hus.
    rewrite viterbi_loop1_take in Hab, Hbc. cbv zeta in Hab, Hbc.
    rewrite Nat.sub_0_r in Hab, Hbc. cbn [fst snd app] in Hab, Hbc.
    set (us' := take (Z.to_nat l) us) in *.
    set (a' := viterbi_run trans (init_alpha N st) us') in *.
    set (vb := viterbi_bps trans (init_alpha N st) us') in *.
    set (pad := replicate (length us - Z.to_nat l) (back_ptr trans a')) in *.
    set (k0 := (torch_max (zip_with sadd a' trans_end)).2).
    assert (Hk0b : terminal_var.*2 !! b = Some k0).
    { unfold terminal_var. by rewrite !list_lookup_fmap, Hab. }
    assert (Hvbl : length vb = Z.to_nat l).
    { unfold vb, us'. rewrite viterbi_bps_length, length_take. lia. }
    set (r := (Z.of_nat (length unary) - l - 1)%Z).
    assert (Hr : rev_len !! b = Some r).
    { unfold rev_len. by rewrite list_lookup_fmap, Hl. }
    pose proof (Hrcols b r k0 (reverse (vb ++ pad)) Hr Hk0b
                  (is_col_reverse _ _ _ Hbc)) as Hrc.
    assert (HXc : is_col b X (k0 :: backtrack1 r 0 (reverse (vb ++ pad)) k0)).
    { unfold X. cbn. by constructor. }
    assert (HPc : is_col b (reverse (pop X))
                    (reverse (pop (k0 :: backtrack1 r 0 (reverse (vb ++ pad)) k0)))).
    { apply is_col_reverse. unfold pop. rewrite (is_col_length _ _ _ HXc).
      by apply is_col_take. }
    unfold viterbi1. cbn [fst snd]. rewrite Htl.
    rewrite (list_lookup_total_correct _ _ _ Hte). fold us' a'. split.
    + rewrite lookup_zip_with, (transpose01_lookup b B _ _ HPn HPr HPc) by lia.
      rewrite Hl. cbn [mbind option_bind]. f_equal. unfold py_slice_to.
      rewrite bool_decide_eq_true_2 by lia. rewrite <- Hvbl.
      rewrite decoded_path_take.
      * apply decoded_path_unpadded.
      * unfold pad, r. rewrite length_replicate, HT. lia.
    + unfold terminal_var. by rewrite !list_lookup_fmap, Hab.
Qed.

(** What [forward] returns for a batch, element by element. *)
Lemma forward_elements `{LogSumExp V} (self : CRF V) (T B N st en : nat)
    (unary : list (list (list V))) (lengths : list Z) :
  n_tags self = Z.of_nat N → start_idx self = Z.of_nat st →
  end_idx self = Z.of_nat en → st < N → en < N →
  shape2 N N (transitions self) →
  shape3 T B N unary → length lengths = B → 0 < B →
  ∃ scores,
    forward self unary lengths B = Some scores ∧ length scores = B ∧
    ∀ b l us, lengths !! b = Some l → is_col b unary us →
      scores !! b = Some (forward1 (transitions self) st en (take (Z.to_nat l) us)).
Proof.
  intros Hn Hs He Hst Hen Htr [HT Hun] Hll HB. pose proof Htr as [Htl Htrows].
  destruct (torch_min_is_Some lengths) as [m Hm]; [lia|].
  unfold forward. rewrite Hm, Hn, Hs, He. cbn [mbind option_bind].
  rewrite bool_decide_eq_false_2 by lia.
  rewrite Nat2Z.id, init_alphas_nat by done. cbn [mbind option_bind].
  destruct (lookup_lt_is_Some_2 (transitions self) en) as [trans_end Hte]; [lia|].
  rewrite (py_get_nat _ _ _ Hte). cbn [mbind option_bind].
  eexists. split; [reflexivity|].
  assert (Hcols : ∀ b l us, lengths !! b = Some l → is_col b unary us →
    forward_loop (transitions self) lengths m 0 unary (replicate B (init_alpha N st)) !! b
    = Some (forward_loop1 (transitions self) l 0 us (init_alpha N st))).
  { intros b l us Hl Hc.
    apply (forward_loop_lookup (transitions self) lengths m l b N); try done.
    - apply Forall_lookup. intros t u Hu.
      destruct (Forall2_lookup_r _ _ _ _ _ Hc Hu) as (row & Hrow & Hru).
      rewrite Forall_lookup in Hun. destruct (Hun _ _ Hrow) as [_ Hrr].
      rewrite Forall_lookup in Hrr. by apply (Hrr b).
    - apply lookup_replicate_2. apply lookup_lt_Some in Hl. lia.
    - apply init_alpha_length. }
  split.
  - rewrite length_fmap. clear Hcols. 
    assert (Hgen : ∀ i alphas, length alphas = B →
      length (forward_loop (transitions self) lengths m i unary alphas) = B).
    { clear HT. induction Hun as [|unary_t unary [Hut _] _ IH]; intros i alphas Hal; [done|].
      cbn [forward_loop]. apply IH. case_bool_decide.
      - unfold blend_alphas, masked_fill_rows, forward_new_alphas, lt_lengths.
        rewrite !length_zip_with, !length_fmap. lia.
      - unfold forward_new_alphas. rewrite length_zip_with. lia. }
    apply Hgen. by rewrite length_replicate.
  - intros b l us Hl Hc. rewrite list_lookup_fmap, (Hcols b l us Hl Hc).
    cbn [fmap option_fmap option_map]. rewrite forward_loop1_take, Nat.sub_0_r.
    unfold forward1. by rewrite Htl, (list_lookup_total_correct _ _ _ Hte).
Qed.
End elements.

(** ** Decoding one element: the path is a path, and it is the best one *)

Section optimal.
Context {V : Type} `{ScoreLaws V}.
#[local] Existing Instance score_inhabited.
Context (N : nat) (trans : list (list V)) (trans_end : list V).
Context (HN : 0 < N) (Htrans : shape2 N N trans) (Htend : length trans_end = N).

Lemma viterbi_path_length (us : list (list V)) :
  ∀ a : list V, length (viterbi_path trans trans_end a us).2 = length us.
Proof. induction us as [|u us IH]; intros a; cbn; [done | by rewrite IH]. Qed.

Lemma terminal_lt (a : list V) :
  length a = N → (torch_max (zip_with sadd a trans_end)).2 < N.
Proof.
  intros Ha. assert (Hz : length (zip_with sadd a trans_end) = N)
    by (rewrite length_zip_with; lia).
  rewrite <- Hz. apply torch_max_lt. intros Hnil. rewrite Hnil in Hz. cbn in Hz. lia.
Qed.

Lemma viterbi_path_lt (us : list (list V)) :
  Forall (λ u, length u = N) us →
  ∀ a : list V, length a = N →
    (viterbi_path trans trans_end a us).1 < N ∧
    Forall (λ t, t < N) (viterbi_path trans trans_end a us).2.
Proof.
  destruct Htrans as [Htl Htr].
  induction 1 as [|u us Hu _ IH]; intros a Ha; cbn [viterbi_path fst snd].
  { split; [by apply terminal_lt | constructor]. }
  destruct (IH (viterbi_cell trans a u)) as [Hj Hq].
  { rewrite viterbi_cell_length. lia. }
  split; [|by constructor].
  pose proof (back_ptr_lt N trans a HN Htr Ha) as Hbp.
  rewrite Forall_lookup in Hbp. eapply Hbp.
  apply list_lookup_lookup_total_lt. rewrite back_ptr_length. lia.
Qed.

(** The best score into tag [t] and the tag it comes from. *)
Lemma max_into_lookup (a : list V) (t : nat) :
  length a = N → t < N →
  max_into trans a !! t = Some (torch_max (zip_with sadd a (trans !!! t))).
Proof.
  intros Ha Ht. destruct Htrans as [Htl Htr]. unfold max_into.
  rewrite list_lookup_fmap, list_lookup_lookup_total_lt by lia. done.
Qed.

Lemma viterbi_cell_lookup (a u : list V) (t : nat) :
  length a = N → length u = N → t < N →
  viterbi_cell trans a u !!! t
  = (torch_max (zip_with sadd a (trans !!! t))).1 ⊕ u !!! t.
Proof.
  intros Ha Hu Ht. apply list_lookup_total_correct. unfold viterbi_cell.
  rewrite lookup_zip_with, list_lookup_fmap, max_into_lookup by done.
  cbn. by rewrite list_lookup_lookup_total_lt by lia.
Qed.

Lemma back_ptr_lookup (a : list V) (t : nat) :
  length a = N → t < N →
  back_ptr trans a !!! t = (torch_max (zip_with sadd a (trans !!! t))).2.
Proof.
  intros Ha Ht. apply list_lookup_total_correct. unfold back_ptr.
  by rewrite list_lookup_fmap, max_into_lookup.
Qed.

Lemma trans_row_length (t : nat) : t < N → length (trans !!! t) = N.
Proof using Htrans.
  clear HN Htend. intros Ht. destruct Htrans as [Htl Htr]. rewrite Forall_lookup in Htr.
  apply (Htr t). apply list_lookup_lookup_total_lt. lia.
Qed.

Lemma zip_sadd_lookup (a row : list V) (j : nat) :
  length a = N → length row = N → j < N →
  zip_with sadd a row !! j = Some (a !!! j ⊕ row !!! j).
Proof using Type.
  clear HN Htrans Htend. intros Ha Hr Hj. rewrite lookup_zip_with.
  by rewrite !list_lookup_lookup_total_lt by lia.
Qed.

(** Every path scores at most the terminal maximum. *)
Lemma viterbi_upper_bound (en : nat) (us : list (list V)) :
  trans !!! en = trans_end →
  Forall (λ u, length u = N) us →
  ∀ (a : list V) (j : nat) (q : list nat),
    length a = N → j < N → valid_path N (length us) q →
    a !!! j ⊕ tail_score trans en j us q
    ⊑ (torch_max (zip_with sadd (viterbi_run trans a us) trans_end)).1.
Proof.
  intros Hen. induction 1 as [|u us Hu _ IH]; intros a j q Ha Hj [Hql Hqr].
  - destruct q; [|done]. cbn. rewrite Hen.
    eapply torch_max_ge. by apply zip_sadd_lookup.
  - destruct q as [|t q]; [done|]. apply Forall_cons_1 in Hqr as [Ht Hqr].
    cbn [tail_score]. injection Hql as Hql.
    change (viterbi_run trans a (u :: us))
      with (viterbi_run trans (viterbi_cell trans a u) us).
    eapply sleb_trans; [|apply (IH (viterbi_cell trans a u) t q)]; try done.
    + rewrite sadd_assoc. apply sadd_mono_r.
      rewrite viterbi_cell_lookup by done.
      rewrite (sadd_comm (u !!! t)), sadd_assoc. apply sadd_mono_r.
      eapply torch_max_ge. apply zip_sadd_lookup; [done | by apply trans_row_length | done].
    + rewrite viterbi_cell_length. destruct Htrans. lia.
Qed.

(** The path read off the back-pointers scores exactly that maximum. *)
Lemma viterbi_attained (en : nat) (us : list (list V)) :
  trans !!! en = trans_end →
  Forall (λ u, length u = N) us →
  ∀ a : list V, length a = N →
    let r := viterbi_path trans trans_end a us in
    a !!! r.1 ⊕ tail_score trans en r.1 us r.2
    = (torch_max (zip_with sadd (viterbi_run trans a us) trans_end)).1.
Proof.
  intros Hen Hus. induction Hus as [|u us Hu Hus IH]; intros a Ha; cbv zeta.
  - cbn [viterbi_path tail_score viterbi_run foldl fst snd]. rewrite Hen.
    pose proof (terminal_lt a Ha) as Hk.
    destruct (torch_max_spec (zip_with sadd a trans_end)) as [Hk0 _].
    { intros Hnil. apply (f_equal length) in Hnil.
      rewrite length_zip_with in Hnil. cbn in Hnil. lia. }
    rewrite zip_sadd_lookup in Hk0 by done. by injection Hk0.
  - cbn [viterbi_path tail_score fst snd].
    change (viterbi_run trans a (u :: us))
      with (viterbi_run trans (viterbi_cell trans a u) us).
    assert (Hc : length (viterbi_cell trans a u) = N).
    { rewrite viterbi_cell_length. destruct Htrans. lia. }
    specialize (IH (viterbi_cell trans a u) Hc). cbv zeta in IH.
    destruct (viterbi_path_lt us Hus (viterbi_cell trans a u) Hc) as [Hj _].
    set (r := viterbi_path trans trans_end (viterbi_cell trans a u) us) in *.
    rewrite <- IH. rewrite sadd_assoc. f_equal.
    rewrite viterbi_cell_lookup, back_ptr_lookup by done.
    rewrite (sadd_comm (u !!! r.1)), sadd_assoc. f_equal.
    destruct (torch_max_spec (zip_with sadd a (trans !!! r.1))) as [Hk0 _].
    { intros Hnil. apply (f_equal length) in Hnil.
      rewrite length_zip_with, trans_row_length in Hnil by done. cbn in Hnil. lia. }
    assert (Hk : (torch_max (zip_with sadd a (trans !!! r.1))).2 < N).
    { apply lookup_lt_Some in Hk0.
      rewrite length_zip_with, trans_row_length in Hk0 by done. lia. }
    rewrite zip_sadd_lookup in Hk0; [| done | by apply trans_row_length | done].
    by injection Hk0.
Qed.
End optimal.

(** ** Decoding a batch *)

Section decode.
Context {V : Type} `{ScoreLaws V}.
#[local] Existing Instance score_inhabited.

Lemma lengths_ok_lookup (T B : nat) (lengths : list Z) (b : nat) (l : Z) :
  lengths_ok T B lengths → lengths !! b = Some l →
  b < B ∧ 0 < B ∧ 0 < T ∧ (1 ≤ l ≤ Z.of_nat T)%Z ∧ Z.to_nat l ≤ T.
Proof.
  intros [Hll Hl] Hb. rewrite Forall_lookup in Hl. specialize (Hl b l Hb).
  apply lookup_lt_Some in Hb. repeat split; lia.
Qed.

Lemma shape3_col {A : Type} (T B N : nat) (t : list (list (list A))) (b : nat)
    (us : list (list A)) :
  shape3 T B N t → is_col b t us → length us = T ∧ Forall (λ u, length u = N) us.
Proof.
  intros [HT Ht] Hc. split; [by rewrite (is_col_length _ _ _ Hc)|].
  apply Forall_lookup. intros i u Hu.
  destruct (Forall2_lookup_r _ _ _ _ _ Hc Hu) as (row & Hrow & Hru).
  rewrite Forall_lookup in Ht. destruct (Ht _ _ Hrow) as [_ Hrr].
  rewrite Forall_lookup in Hrr. by apply (Hrr b).
Qed.

(** [decode] on a valid batch returns, for each element, what [viterbi1]
    returns for that element alone. *)
Lemma decode_elements (self : CRF V) (T B N st en : nat)
    (unary : list (list (list V))) (lengths : list Z) (b : nat) (l : Z)
    (us : list (list V)) :
  crf_ok self N st en → shape3 T B N (time_major self unary) →
  lengths_ok T B lengths → lengths !! b = Some l → emissions_of self unary b us →
  decode_at self unary lengths b
  = Some (viterbi1 (transitions self) st en (take (Z.to_nat l) us)).
Proof.
  intros (Hn & Hs & He & Hst & Hen & Htr) Hun Hlen Hl Hc.
  destruct (lengths_ok_lookup T B lengths b l Hlen Hl) as (Hb & HB & HT & Hlr & _).
  destruct Hlen as [Hll _].
  destruct (viterbi_elements T B N st en _ (transitions self) lengths
              Hun Htr Hll HT HB Hst Hen) as (paths & scores & Hv & _ & _ & Hel).
  destruct (Hel b l us Hl Hlr Hc) as [Hp Hsc].
  unfold decode_at, decode. rewrite Hs, He, Hv. cbn [mbind option_bind fst snd].
  rewrite Hp, Hsc. cbn [mbind option_bind]. by rewrite <- surjective_pairing.
Qed.

Lemma viterbi1_valid_path (N st en : nat) (trans : list (list V))
    (us : list (list V)) :
  st < N → en < N → shape2 N N trans → Forall (λ u, length u = N) us →
  valid_path N (length us) (viterbi1 trans st en us).1.
Proof.
  intros Hst Hen Htr Hus. pose proof Htr as [Htl Htrows]. unfold viterbi1. cbn [fst].
  assert (Hte : length (trans !!! en) = N) by (by apply (trans_row_length N)).
  split.
  - apply (viterbi_path_length trans).
  - rewrite Htl. apply (viterbi_path_lt N trans (trans !!! en)); try done; [lia|].
    apply init_alpha_length.
Qed.
End decode.

(** ** Path scores in the order of the recursion *)

Section path_scores.
Context {V : Type} `{ScoreLaws V}.
#[local] Existing Instance score_inhabited.

Lemma path_score_tail (trans : list (list V)) (en : nat) (q : list nat) :
  ∀ (st : nat) (us : list (list V)),
    length q ≤ length us →
    path_score trans st en us q = tail_score trans en st us q.
Proof.
  unfold path_score. induction q as [|t q IH]; intros st us Hlen.
  { cbn. apply sadd_0_l. }
  destruct us as [|u us]; [cbn in Hlen; lia|].
  cbn [step_scores sum_scores foldr tail_score].
  rewrite <- sadd_assoc. f_equal. rewrite <- (last_cons_self q t st).
  apply IH. cbn in Hlen. lia.
Qed.

Lemma tail_score_take (trans : list (list V)) (en : nat) (q : list nat) :
  ∀ (prev n : nat) (us : list (list V)),
    length q ≤ n →
    tail_score trans en prev (take n us) q = tail_score trans en prev us q.
Proof.
  induction q as [|t q IH]; intros prev n us Hlen; [done|].
  destruct n as [|n]; [cbn in Hlen; lia|].
  destruct us as [|u us]; [done|]. cbn [take tail_score]. f_equal.
  apply IH. cbn in Hlen. lia.
Qed.

Lemma path_score_take (trans : list (list V)) (st en n : nat) (us : list (list V))
    (q : list nat) :
  length q = n → n ≤ length us →
  path_score trans st en (take n us) q = path_score trans st en us q.
Proof.
  intros Hq Hn. rewrite !path_score_tail by (rewrite ?length_take; lia).
  apply tail_score_take. lia.
Qed.

Lemma init_alpha_start (N st : nat) : st < N → init_alpha N st !!! st = (s0 : V).
Proof.
  intros Hst. apply list_lookup_total_correct. unfold init_alpha.
  apply list_lookup_insert_eq. by rewrite length_replicate.
Qed.

Lemma init_alpha_other (N st j : nat) :
  j < N → j ≠ st → init_alpha N st !!! j = (sneg1e4 : V).
Proof.
  intros Hj Hne. apply list_lookup_total_correct. unfold init_alpha.
  rewrite list_lookup_insert_ne by done. by apply lookup_replicate_2.
Qed.

(** The element decoded alone gets a best path and its score, the tag
    before step 0 ranging over all tags with their initial scores. *)
Lemma viterbi1_weighted_optimal (N st en : nat) (trans : list (list V))
    (us : list (list V)) :
  st < N → en < N → shape2 N N trans → Forall (λ u, length u = N) us →
  (∃ j, j < N ∧
     init_alpha N st !!! j ⊕ path_score trans j en us (viterbi1 trans st en us).1
     = (viterbi1 trans st en us).2) ∧
  ∀ j q, j < N → valid_path N (length us) q →
    init_alpha N st !!! j ⊕ path_score trans j en us q ⊑ (viterbi1 trans st en us).2.
Proof.
  intros Hst Hen Htr Hus. pose proof Htr as [Htl _].
  assert (HN : 0 < N) by lia.
  assert (Hte : length (trans !!! en) = N) by (by apply (trans_row_length N)).
  assert (Ha0 : length (init_alpha N st : list V) = N) by apply init_alpha_length.
  pose proof (viterbi_upper_bound N trans (trans !!! en) HN Htr Hte en us eq_refl Hus
                (init_alpha N st)) as Hub.
  pose proof (viterbi_attained N trans (trans !!! en) HN Htr Hte en us eq_refl Hus
                (init_alpha N st) Ha0) as Hatt.
  destruct (viterbi_path_lt N trans (trans !!! en) HN Htr Hte us Hus
              (init_alpha N st) Ha0) as [Hj Hq].
  pose proof (viterbi_path_length trans (trans !!! en) us (init_alpha N st)) as Hql.
  unfold viterbi1. rewrite Htl. cbn [fst snd]. cbv zeta in Hatt. split.
  - eexists. split; [exact Hj|]. rewrite path_score_tail by lia. exact Hatt.
  - intros j q Hjn Hqv. rewrite path_score_tail by (destruct Hqv; lia).
    by apply Hub.
Qed.

(** With START dominating the sentinel, the element decoded alone gets a
    best path from START, with its score. *)
Lemma viterbi1_optimal (N st en : nat) (trans : list (list V)) (us : list (list V)) :
  st < N → en < N → shape2 N N trans → Forall (λ u, length u = N) us →
  0 < length us → start_dominates trans N st →
  path_score trans st en us (viterbi1 trans st en us).1 = (viterbi1 trans st en us).2 ∧
  ∀ q, valid_path N (length us) q →
    path_score trans st en us q ⊑ (viterbi1 trans st en us).2.
Proof.
  intros Hst Hen Htr Hus Hpos Hdom. pose proof Htr as [Htl _].
  assert (HN : 0 < N) by lia.
  assert (Hte : length (trans !!! en) = N) by (by apply (trans_row_length N)).
  assert (Ha0 : length (init_alpha N st : list V) = N) by apply init_alpha_length.
  pose proof (viterbi_upper_bound N trans (trans !!! en) HN Htr Hte en us eq_refl Hus
                (init_alpha N st)) as Hub.
  pose proof (viterbi_attained N trans (trans !!! en) HN Htr Hte en us eq_refl Hus
                (init_alpha N st) Ha0) as Hatt.
  destruct (viterbi_path_lt N trans (trans !!! en) HN Htr Hte us Hus
              (init_alpha N st) Ha0) as [Hj Hq].
  pose proof (viterbi_path_length trans (trans !!! en) us (init_alpha N st)) as Hql.
  unfold viterbi1. rewrite Htl. cbn [fst snd]. cbv zeta in Hatt.
  set (r := viterbi_path trans (trans !!! en) (init_alpha N st) us) in *.
  set (best := (torch_max (zip_with sadd (viterbi_run trans (init_alpha N st) us)
                                    (trans !!! en))).1) in *.
  assert (Hfrom_start : ∀ q, valid_path N (length us) q →
            path_score trans st en us q ⊑ best).
  { intros q Hq'. rewrite path_score_tail by (destruct Hq'; lia).
    rewrite <- (sadd_0_l (tail_score _ _ _ _ _)), <- (init_alpha_start N st Hst).
    by apply Hub. }
  split; [|done].
  apply sleb_antisym; [by apply Hfrom_start|].
  rewrite path_score_tail by lia. rewrite <- Hatt.
  destruct (decide (r.1 = st)) as [->|Hne].
  { rewrite init_alpha_start, sadd_0_l by done. apply sleb_refl. }
  rewrite init_alpha_other by done.
  destruct us as [|u us']; [cbn in Hpos; lia|].
  destruct r.2 as [|t q] eqn:Hr2; [done|]. cbn [tail_score].
  apply Forall_cons_1 in Hq as [Ht _].
  rewrite sadd_assoc. apply sadd_mono_r.
  rewrite !(sadd_comm (u !!! t)), sadd_assoc. apply sadd_mono_r.
  by apply Hdom.
Qed.
End path_scores.

(** * The claims about decoding *)

Section decode_claims.
Context {V : Type} `{ScoreLaws V}.
#[local] Existing Instance score_inhabited.

Lemma emissions_exist (self : CRF V) (T B N : nat) (unary : list (list (list V)))
    (b : nat) :
  shape3 T B N (time_major self unary) → b < B → ∃ us, emissions_of self unary b us.
Proof.
  intros [_ Hun] Hb. apply (is_col_exists b B); [|done].
  eapply List.Forall_impl; [|exact Hun]. by intros row [? _].
Qed.

(** C6.  For a valid input (every length between 1 and the padded width T),
    the tag sequence that [decode] returns for the batch element [b] has
    exactly [length[b]] entries. *)
Theorem decode_path_length (self : CRF V) (T B N st en : nat)
    (unary : list (list (list V))) (lengths : list Z) (b : nat) (l : Z) :
  crf_ok self N st en → shape3 T B N (time_major self unary) →
  lengths_ok T B lengths → lengths !! b = Some l →
  ∃ path score,
    decode_at self unary lengths b = Some (path, score) ∧ Z.of_nat (length path) = l.
Proof.
  intros Hcrf Hun Hlen Hl.
  destruct (lengths_ok_lookup T B lengths b l Hlen Hl) as (Hb & _ & _ & Hlr & HlT).
  destruct (emissions_exist self T B N unary b Hun Hb) as [us Hus].
  destruct (shape3_col T B N _ b us Hun Hus) as [HusT HusN].
  pose proof Hcrf as (_ & _ & _ & Hst & Hen & Htr).
  rewrite (decode_elements self T B N st en unary lengths b l us) by done.
  destruct (viterbi1_valid_path N st en (transitions self) (take (Z.to_nat l) us))
    as [Hpl _]; try done; [by apply Forall_take|].
  set (r := viterbi1 _ _ _ _) in *.
  exists r.1, r.2. split; [by rewrite <- surjective_pairing|].
  rewrite Hpl, length_take. lia.
Qed.

(** C10.  For a valid input, every tag index of the path that [decode]
    returns for a batch element lies in [0, n_tags): the terminal arg-max,
    the back-pointer lookups of the backward walk (none of which fails) and
    the masked hold all yield tags. *)
Theorem decode_tags_in_range (self : CRF V) (T B N st en : nat)
    (unary : list (list (list V))) (lengths : list Z) (b : nat) (l : Z) :
  crf_ok self N st en → shape3 T B N (time_major self unary) →
  lengths_ok T B lengths → lengths !! b = Some l →
  ∃ path score,
    decode_at self unary lengths b = Some (path, score) ∧
    Forall (λ t, (0 ≤ Z.of_nat t < n_tags self)%Z) path.
Proof.
  intros Hcrf Hun Hlen Hl.
  destruct (lengths_ok_lookup T B lengths b l Hlen Hl) as (Hb & _ & _ & Hlr & HlT).
  destruct (emissions_exist self T B N unary b Hun Hb) as [us Hus].
  destruct (shape3_col T B N _ b us Hun Hus) as [HusT HusN].
  pose proof Hcrf as (Hn & _ & _ & Hst & Hen & Htr).
  rewrite (decode_elements self T B N st en unary lengths b l us) by done.
  destruct (viterbi1_valid_path N st en (transitions self) (take (Z.to_nat l) us))
    as [_ Hpr]; try done; [by apply Forall_take|].
  set (r := viterbi1 _ _ _ _) in *.
  exists r.1, r.2. split; [by rewrite <- surjective_pairing|].
  eapply List.Forall_impl; [|exact Hpr]. intros t Ht. cbn in Ht. lia.
Qed.

(** C1 (amended).  For a valid input, [decode] returns for each batch
    element a tag sequence of exactly [length[b]] tags and a score that are
    maximal when the virtual predecessor of step 0 ranges over all tags [j],
    each counted with its initial score, 0 for START and -1e4 for the
    others: the returned score is the maximum of that initial score plus the
    total path score (emissions of the chosen tags, transitions into each
    tag from its predecessor, transition from the last tag into END), and
    the returned path attains it.  When START dominates the sentinel
    ([-1e4 + transition[i][j] <= transition[i][START]] for all tags [i] and
    [j <> START]), the path maximizes the total path score with START as
    the virtual predecessor, and the returned score is that maximum. *)
Theorem decode_optimal (self : CRF V) (T B N st en : nat)
    (unary : list (list (list V))) (lengths : list Z) (b : nat) (l : Z)
    (us : list (list V)) :
  crf_ok self N st en → shape3 T B N (time_major self unary) →
  lengths_ok T B lengths → lengths !! b = Some l → emissions_of self unary b us →
  decodes_best_weighted_path self N st en unary lengths b l us ∧
  (start_dominates (transitions self) N st →
   decodes_best_path self N st en unary lengths b l us).
Proof.
  intros Hcrf Hun Hlen Hl Hus.
  destruct (lengths_ok_lookup T B lengths b l Hlen Hl) as (Hb & _ & _ & Hlr & HlT).
  destruct (shape3_col T B N _ b us Hun Hus) as [HusT HusN].
  pose proof Hcrf as (_ & _ & _ & Hst & Hen & Htr).
  unfold decodes_best_weighted_path, decodes_best_path.
  rewrite (decode_elements self T B N st en unary lengths b l us) by done.
  assert (Htk : length (take (Z.to_nat l) us) = Z.to_nat l)
    by (rewrite length_take; lia).
  destruct (viterbi1_valid_path N st en (transitions self) (take (Z.to_nat l) us))
    as [Hpl Hpr]; try done; [by apply Forall_take|].
  destruct (viterbi1_weighted_optimal N st en (transitions self) (take (Z.to_nat l) us))
    as [(j & Hj & Hwsc) Hwopt]; try done; [by apply Forall_take|].
  assert (Hps : ∀ j q, length q = Z.to_nat l →
            path_score (transitions self) j en us q
            = path_score (transitions self) j en (take (Z.to_nat l) us) q).
  { intros j' q Hq. symmetry. apply path_score_take; lia. }
  set (r := viterbi1 _ _ _ _) in *. split.
  - exists r.1, r.2. split; [by rewrite <- surjective_pairing|].
    split; [split; [lia | done]|]. split.
    + exists j. split; [done|]. rewrite Hps by lia. done.
    + intros j' q Hj' [Hq1 Hq2]. rewrite Hps by done.
      apply Hwopt; [done|]. split; [lia | done].
  - intros Hdom.
    destruct (viterbi1_optimal N st en (transitions self) (take (Z.to_nat l) us))
      as [Hsc Hopt]; try done; [by apply Forall_take | lia |].
    exists r.1, r.2. split; [by rewrite <- surjective_pairing|].
    split; [split; [lia | done]|]. split.
    + rewrite Hps by lia. done.
    + intros q [Hq1 Hq2]. rewrite Hps by done. apply Hopt. split; [lia | done].
Qed.
End decode_claims.

(** * The claims about padding and batching *)

Section padding_claims.
Context {V : Type} `{ScoreLaws V} `{LogSumExp V}.
#[local] Existing Instance score_inhabited.

Lemma forward_at_element (self : CRF V) (T B N st en : nat)
    (unary : list (list (list V))) (lengths : list Z) (b : nat) (l : Z)
    (us : list (list V)) :
  crf_ok self N st en → shape3 T B N unary → length lengths = B →
  lengths !! b = Some l → is_col b unary us →
  forward_at self unary lengths B b
  = Some (forward1 (transitions self) st en (take (Z.to_nat l) us)).
Proof.
  intros (Hn & Hs & He & Hst & Hen & Htr) Hun Hll Hl Hc.
  pose proof (lookup_lt_Some _ _ _ Hl) as Hb.
  destruct (forward_elements self T B N st en unary lengths Hn Hs He Hst Hen Htr
              Hun Hll ltac:(lia)) as (scores & Hf & _ & Hel).
  unfold forward_at. rewrite Hf. cbn [mbind option_bind]. by apply Hel.
Qed.

(** C5.  The forward score, the decoded path and the path score of a batch
    element depend only on its own emissions before its length: they are the
    same in any two valid batches, of any padded widths and any other
    elements, in which the element has the same length [l] and the same
    first [l] emission vectors; in particular they are those of the element
    run alone at padded width [l]. *)
Theorem padding_and_batch_independence (self : CRF V) (T B T' B' N st en : nat)
    (unary unary' : list (list (list V))) (lengths lengths' : list Z)
    (b b' : nat) (l : Z) (us us' : list (list V)) :
  crf_ok self N st en →
  shape3 T B N (time_major self unary) → lengths_ok T B lengths →
  shape3 T' B' N (time_major self unary') → lengths_ok T' B' lengths' →
  lengths !! b = Some l → lengths' !! b' = Some l →
  emissions_of self unary b us → emissions_of self unary' b' us' →
  take (Z.to_nat l) us = take (Z.to_nat l) us' →
  is_Some (decode_at self unary lengths b) ∧
  decode_at self unary lengths b = decode_at self unary' lengths' b' ∧
  is_Some (forward_at self (time_major self unary) lengths B b) ∧
  forward_at self (time_major self unary) lengths B b
  = forward_at self (time_major self unary') lengths' B' b'.
Proof.
  intros Hcrf Hun Hlen Hun' Hlen' Hl Hl' Hus Hus' Heq.
  rewrite (decode_elements self T B N st en unary lengths b l us) by done.
  rewrite (decode_elements self T' B' N st en unary' lengths' b' l us') by done.
  rewrite (forward_at_element self T B N st en _ lengths b l us)
    by (done || by destruct Hlen).
  rewrite (forward_at_element self T' B' N st en _ lengths' b' l us')
    by (done || by destruct Hlen').
  rewrite Heq. eauto.
Qed.
End padding_claims.

(** * The theorems about decoding at concrete inputs *)

Lemma crf_chain_ok : crf_ok crf_chain 4 0 3.
Proof. unfold crf_ok. cbn. shape_tac. Defined.

Lemma crf_chain_dominates : start_dominates (transitions crf_chain) 4 0.
Proof.
  intros i j Hi Hj Hne.
  destruct i as [|[|[|[|i]]]]; [| | | | lia];
    (destruct j as [|[|[|[|j]]]]; [done | | | | lia]); reflexivity.
Defined.

(** The decoding scenario of the specification (section 8): one element of
    length 2 whose emissions favour A then B; the chain START, A, B, END is
    decoded with score 5 + 0 + 0 + 5 + 0. *)
Example decode_spec_scenario :
  decode_at crf_chain
    [[[-10000; 5; 0; -10000]]; [[-10000; 0; 5; -10000]]]%Z [2%Z] 0
  = Some ([1; 2], 10%Z).
Proof. reflexivity. Qed.

Lemma decode_path_length_witness :
  ∃ path score,
    decode_at crf_chain unary_pair [3; 1]%Z 1 = Some (path, score) ∧
    Z.of_nat (length path) = 1%Z.
Proof.
  apply (decode_path_length crf_chain 3 2 4 0 3 unary_pair [3; 1]%Z 1 1%Z);
    [exact crf_chain_ok | shape_tac | shape_tac | reflexivity].
Defined.

Lemma decode_tags_in_range_witness :
  ∃ path score,
    decode_at crf_chain unary_pair [3; 1]%Z 0 = Some (path, score) ∧
    Forall (λ t, (0 ≤ Z.of_nat t < 4)%Z) path.
Proof.
  apply (decode_tags_in_range crf_chain 3 2 4 0 3 unary_pair [3; 1]%Z 0 3%Z);
    [exact crf_chain_ok | shape_tac | shape_tac | reflexivity].
Defined.

Lemma decode_optimal_witness :
  decodes_best_weighted_path crf_chain 4 0 3 unary_pair [3; 1]%Z 0 3%Z
    [[-10000; 5; 0; -10000]; [-10000; 0; 5; -10000]; [-10000; 3; 3; -10000]]%Z ∧
  decodes_best_path crf_chain 4 0 3 unary_pair [3; 1]%Z 0 3%Z
    [[-10000; 5; 0; -10000]; [-10000; 0; 5; -10000]; [-10000; 3; 3; -10000]]%Z.
Proof.
  destruct (decode_optimal crf_chain 3 2 4 0 3 unary_pair [3; 1]%Z 0 3%Z
              [[-10000; 5; 0; -10000]; [-10000; 0; 5; -10000]; [-10000; 3; 3; -10000]]%Z)
    as [Hw Hb]; [exact crf_chain_ok | shape_tac | shape_tac | reflexivity | shape_tac |].
  split; [exact Hw | exact (Hb crf_chain_dominates)].
Defined.

(** C1 as stated fails: on a valid input, [decode] returns the path [1]
    with score -20000, while the path [0] scores -30000 and the path [1]
    scores -40000. *)
Lemma decode_not_optimal :
  crf_ok crf_steep 2 0 1 ∧ shape3 1 1 2 (time_major crf_steep unary_steep) ∧
  lengths_ok 1 1 [1%Z] ∧ emissions_of crf_steep unary_steep 0 [[0; -10000]%Z] ∧
  decode_at crf_steep unary_steep [1%Z] 0 = Some ([1], (-20000)%Z) ∧
  path_score (transitions crf_steep) 0 1 [[0; -10000]%Z] [0] = (-30000)%Z ∧
  path_score (transitions crf_steep) 0 1 [[0; -10000]%Z] [1] = (-40000)%Z ∧
  ¬ decodes_best_path crf_steep 2 0 1 unary_steep [1%Z] 0 1%Z [[0; -10000]%Z].
Proof.
  repeat split; try (vm_compute; (reflexivity || lia)); shape_tac.
  intros (path & score & Hd & _ & Hs & _).
  vm_compute in Hd. injection Hd as <- <-. vm_compute in Hs. discriminate.
Qed.

(** * The gold-path scorer *)

Section gold.
Context {V : Type} `{ScoreLaws V}.
#[local] Existing Instance score_inhabited.

Lemma masked_steps_sum (trans : list (list V)) (l : Z) (g : list nat) :
  ∀ (i prev : nat) (us : list (list V)),
    sum_scores (masked_steps trans l i prev us g)
    = sum_scores (step_scores trans prev us (take (Z.to_nat l - i) g)).
Proof.
  induction g as [|t g IH]; intros i prev us.
  { by rewrite take_nil. }
  destruct us as [|u us].
  { cbn. by destruct (take _ _). }
  cbn [masked_steps sum_scores foldr]. fold (sum_scores (masked_steps trans l (S i) t us g)).
  rewrite IH. case_bool_decide as Hi.
  - replace (Z.to_nat l - i) with (S (Z.to_nat l - S i)) by lia. done.
  - replace (Z.to_nat l - i) with 0 by lia.
    replace (Z.to_nat l - S i) with 0 by lia. rewrite !take_0. cbn. apply sadd_0_l.
Qed.

Lemma trans_at_nat (N : nat) (trans : list (list V)) (c p : Z) :
  shape2 N N trans → (0 ≤ c < Z.of_nat N)%Z → (0 ≤ p < Z.of_nat N)%Z →
  trans_at trans c p = Some ((trans !!! Z.to_nat c) !!! Z.to_nat p).
Proof.
  intros [Htl Htr] Hc Hp. unfold trans_at.
  rewrite <- (Z2Nat.id c), <- (Z2Nat.id p), !Nat2Z.id by lia.
  assert (Hrow : trans !! Z.to_nat c = Some (trans !!! Z.to_nat c))
    by (apply list_lookup_lookup_total_lt; lia).
  rewrite (py_get_nat _ _ _ Hrow). cbn [mbind option_bind].
  apply py_get_nat, list_lookup_lookup_total_lt.
  rewrite Forall_lookup in Htr. rewrite (Htr _ _ Hrow). lia.
Qed.

Lemma gather1_nat (N : nat) (u : list V) (g : Z) :
  length u = N → (0 ≤ g < Z.of_nat N)%Z → gather1 u g = Some (u !!! Z.to_nat g).
Proof.
  intros Hu Hg. unfold gather1. rewrite bool_decide_eq_true_2 by lia.
  apply list_lookup_lookup_total_lt. lia.
Qed.

Lemma sum0_cons_lookup (B b : nat) (row : list V) (rows : list (list V)) (x y : V) :
  row !! b = Some x → sum0 B rows !! b = Some y →
  sum0 B (row :: rows) !! b = Some (x ⊕ y).
Proof.
  intros Hx Hy. unfold sum0 in *. cbn [foldr]. by rewrite lookup_zip_with, Hx, Hy.
Qed.

Lemma score_rows (N B : nat) (trans : list (list V))
    (unary : list (list (list V))) (tags : list (list Z)) :
  shape2 N N trans →
  Forall2 (λ urow trow, shape2 B N urow ∧ tag_row_ok B N trow) unary tags →
  ∀ (prev : list Z), tag_row_ok B N prev →
    ∃ trans_score unary_score,
      zip_withM (zip_withM (λ prev cur, trans_at trans cur prev)) (prev :: tags) tags
      = Some trans_score ∧
      zip_withM (zip_withM gather1) unary tags = Some unary_score ∧
      length unary_score = length tags ∧
      length trans_score = length tags ∧
      ∀ (i : nat) (l : Z) (eff : list (list bool)) b us gs p, b < B →
        is_col b unary us → is_col b tags gs → prev !! b = Some p →
        length eff = length tags →
        (∀ t mrow, eff !! t = Some mrow →
           mrow !! b = Some (bool_decide (Z.of_nat i + Z.of_nat t < l)%Z)) →
        sum0 B (zip_with (λ row mrow, masked_fill row (negb <$> mrow) s0)
                  (zip_with (zip_with sadd) unary_score trans_score) eff) !! b
        = Some (sum_scores (masked_steps trans l i (Z.to_nat p) us (Z.to_nat <$> gs))).
Proof.
  intros Htr Hrows. induction Hrows as [|urow trow unary tags [Hur Htg] _ IH];
    intros prev Hprev.
  { exists [], []. repeat split; try done.
    intros i l eff b us gs p Hb Hus Hgs Hp Heffl Heff.
    inversion Hus; inversion Hgs; subst.
    cbn. by apply lookup_replicate_2. }
  destruct Hprev as [Hpl Hpr]. pose proof Htg as [Htl Htgr]. pose proof Hur as [Hul Hurr].
  rewrite Forall_lookup in Hpr. rewrite Forall_lookup in Htgr.
  rewrite Forall_lookup in Hurr.
  destruct (zip_withM_Some (λ prev cur, trans_at trans cur prev) prev trow)
    as (z & Hz & Hzl & Hzlk).
  { intros b p g Hp Hg. rewrite (trans_at_nat N); eauto. }
  destruct (zip_withM_Some gather1 urow trow) as (y & Hy & Hyl & Hylk).
  { intros b u g Hu Hg. rewrite (gather1_nat N); eauto. }
  destruct (IH trow Htg) as (Tr & U & HTr & HU & HUl & HTrl & Hsum).
  exists (z :: Tr), (y :: U).
  split; [|split; [|split; [|split]]].
  - by rewrite zip_withM_cons, Hz, HTr.
  - by rewrite zip_withM_cons, Hy, HU.
  - cbn. by rewrite HUl.
  - cbn. by rewrite HTrl.
  - intros i l eff b us gs p Hb Hus Hgs Hp Heffl Heff.
    inversion Hus as [|? u ? us' Hu Hus']; inversion Hgs as [|? g ? gs' Hg Hgs']; subst.
    destruct eff as [|mrow eff]; [done|]. injection Heffl as Heffl.
    cbn [length seq fmap list_fmap zip_with masked_steps].
    assert (Hgr : (0 ≤ g < Z.of_nat N)%Z) by eauto.
    assert (Hpr' : (0 ≤ p < Z.of_nat N)%Z) by eauto.
    pose proof (Heff 0 mrow eq_refl) as Hm.
    apply sum0_cons_lookup.
    + unfold masked_fill.
      rewrite !lookup_zip_with, !list_lookup_fmap, Hm.
      rewrite (Hylk b u g Hu Hg), (Hzlk b p g Hp Hg).
      rewrite (gather1_nat N), (trans_at_nat N) by eauto. cbn.
      rewrite (bool_decide_ext (Z.of_nat i + Z.of_nat 0 < l)%Z (Z.of_nat i < l)%Z)
        by lia.
      by destruct (bool_decide (Z.of_nat i < l)%Z).
    + apply Hsum; try done. intros t mrow' Ht.
      rewrite (Heff (S t) mrow' Ht). f_equal. apply bool_decide_ext. lia.
Qed.

Lemma last_fmap_take {A C : Type} (f : A → C) (gs : list A) (n : nat) (g : A) (d : C) :
  gs !! n = Some g → List.last (f <$> take (S n) gs) d = f g.
Proof.
  intros Hg. rewrite (take_S_r _ _ _ Hg), fmap_app. cbn. apply last_snoc_default.
Qed.

Lemma rows_Forall2 (T B N : nat) (unary : list (list (list V))) (tags : list (list Z)) :
  shape3 T B N unary → tags_ok T B N tags →
  Forall2 (λ urow trow, shape2 B N urow ∧ tag_row_ok B N trow) unary tags.
Proof.
  intros [HuT Hu] [HtT Ht]. apply Forall2_same_length_lookup_2; [lia|].
  intros t urow trow Hur Htr. rewrite Forall_lookup in Hu. rewrite Forall_lookup in Ht.
  split; eauto.
Qed.

(** *** The mask of the padded steps *)

Lemma torch_max_len_longest (lengths : list Z) (m : Z) :
  Forall (λ l, (l ≤ m)%Z) lengths → m ∈ lengths → torch_max_len lengths = Some m.
Proof.
  intros Hle Hin. destruct lengths as [|x r]; [by apply elem_of_nil in Hin|].
  cbn. f_equal.
  assert (Hgen : ∀ r x, (x ≤ m)%Z → Forall (λ l, (l ≤ m)%Z) r →
            (foldl Z.max x r ≤ m)%Z ∧ (x ≤ foldl Z.max x r)%Z ∧
            ∀ y, y ∈ r → (y ≤ foldl Z.max x r)%Z).
  { clear. induction r as [|z r IH]; intros x Hx Hr; cbn.
    { split; [done|]. split; [lia|]. intros y Hy. by apply elem_of_nil in Hy. }
    apply Forall_cons_1 in Hr as [Hz Hr].
    destruct (IH (Z.max x z) ltac:(lia) Hr) as (Hm & Hge & Hall).
    split; [done|]. split; [lia|].
    intros y [-> | Hy]%elem_of_cons; [lia | by apply Hall]. }
  apply Forall_cons_1 in Hle as [Hx Hr].
  destruct (Hgen r x Hx Hr) as (Hm & Hge & Hall).
  apply elem_of_cons in Hin as [-> | Hin]; [lia|]. specialize (Hall m Hin). lia.
Qed.

(** The transposed mask has a row for each step below the longest length. *)
Lemma sequence_mask_steps (lengths : list Z) (M : nat) :
  torch_max_len lengths = Some (Z.of_nat M) →
  ∃ mask, sequence_mask lengths = Some mask ∧
          transpose01 mask = (λ t, lt_lengths t lengths) <$> seq 0 M.
Proof.
  intros Hmax. unfold sequence_mask. rewrite Hmax. cbn [mbind option_bind].
  rewrite bool_decide_eq_false_2 by lia. rewrite Nat2Z.id.
  eexists. split; [reflexivity|].
  destruct lengths as [|x r]; [done|].
  unfold transpose01. cbn [fmap list_fmap]. rewrite length_fmap, length_seq.
  apply Forall_fmap_ext, list.Forall_forall. intros k Hk. apply elem_of_seq in Hk.
  assert (Hcol : ∀ ls : list Z,
            col k ((λ l, (λ t, bool_decide (Z.of_nat t < l)%Z) <$> seq 0 M) <$> ls)
            = lt_lengths k ls).
  { induction ls as [|l ls IH]; [done|]. unfold col, lt_lengths in *.
    cbn [fmap list_fmap omap list_omap].
    rewrite list_lookup_fmap, lookup_seq_lt by lia.
    cbn [fmap option_fmap option_map]. f_equal. exact IH. }
  apply (Hcol (x :: r)).
Qed.

Lemma masked_fill_steps_same {A : Type} (t : list (list A)) (mask : list (list bool))
    (v : A) :
  length mask = length t →
  masked_fill_steps t ((λ mrow : list bool, negb <$> mrow) <$> mask) v
  = Some (zip_with (λ row mrow, masked_fill row (negb <$> mrow) v) t mask).
Proof.
  intros Hlen. unfold masked_fill_steps.
  rewrite bool_decide_eq_true_2 by (by rewrite length_fmap).
  f_equal. by rewrite zip_with_fmap_r.
Qed.

Lemma masked_fill_steps_one {A : Type} (t : list (list A)) (mrow : list bool) (v : A) :
  masked_fill_steps t ((λ mrow : list bool, negb <$> mrow) <$> [mrow]) v
  = Some (zip_with (λ row mrow, masked_fill row (negb <$> mrow) v) t
            (replicate (length t) mrow)).
Proof.
  unfold masked_fill_steps. cbn [fmap list_fmap length].
  assert (Hrep : ∀ t : list (list A),
            (λ row, masked_fill row (negb <$> mrow) v) <$> t
            = zip_with (λ row mrow, masked_fill row (negb <$> mrow) v) t
                (replicate (length t) mrow)).
  { clear. induction t as [|row t IH]; [done|]. cbn. by rewrite <- IH. }
  case_bool_decide as Hone.
  - destruct t as [|row [|row' t]]; try done.
  - f_equal. apply Hrep.
Qed.

(** What [score_sentence] returns for a batch element when the mask leaves,
    for that element, the steps below [l']: the scores of the gold tags at
    these steps, and the transition into END from the tag at its length. *)
Lemma score_sentence_steps (self : CRF V) (T B N st en : nat)
    (unary : list (list (list V))) (tags : list (list Z)) (lengths : list Z)
    (b : nat) (l l' : Z) (us : list (list V)) (gs : list Z) (eff : list (list bool)) :
  crf_ok self N st en → shape3 T B N unary → tags_ok T B N tags → 0 < T →
  length lengths = B → Forall (λ l, 0 ≤ l ≤ Z.of_nat T)%Z lengths →
  lengths !! b = Some l → is_col b unary us → is_col b tags gs →
  length eff = T →
  (∃ mask, sequence_mask lengths = Some mask ∧
     ∀ scores : list (list V), length scores = T →
       masked_fill_steps scores ((λ mrow : list bool, negb <$> mrow) <$> transpose01 mask) s0
       = Some (zip_with (λ row mrow, masked_fill row (negb <$> mrow) s0) scores eff)) →
  (∀ t mrow, eff !! t = Some mrow → mrow !! b = Some (bool_decide (Z.of_nat t < l')%Z)) →
  ∃ scores,
    score_sentence self unary tags lengths B = Some scores ∧
    scores !! b
    = Some (sum_scores (step_scores (transitions self) st us
                          (Z.to_nat <$> take (Z.to_nat l') gs))
            ⊕ (transitions self !!! en) !!! List.last (Z.to_nat <$> take (Z.to_nat l) gs) st).
Proof.
  intros (Hn & Hs & He & Hst & Hen & Htr) Hun Htags HT Hll Hlall Hl Hus Hgs
    Heffl (mask & Hmask & Hfill) Heff.
  pose proof (lookup_lt_Some _ _ _ Hl) as Hb. rewrite Hll in Hb.
  assert (Hlr : (0 ≤ l ≤ Z.of_nat T)%Z).
  { rewrite Forall_lookup in Hlall. by apply (Hlall b). }
  pose proof Htags as [HtT Htrows].
  assert (Hprev : tag_row_ok B N (replicate B (start_idx self))).
  { split; [by rewrite length_replicate|]. apply Forall_replicate. lia. }
  destruct (score_rows N B (transitions self) unary tags Htr
              (rows_Forall2 T B N unary tags Hun Htags) _ Hprev)
    as (Tr & U & HTr & HU & HUl & HTrl & Hsum).
  unfold score_sentence, score_sentence_on. cbn [tail].
  rewrite bool_decide_eq_false_2 by (cbn [length]; lia).
  rewrite HTr, HU. cbn [mbind option_bind]. rewrite Hmask. cbn [mbind option_bind].
  rewrite Hfill by (rewrite length_zip_with; lia). cbn [mbind option_bind].
  set (tags' := replicate B (start_idx self) :: tags).
  assert (Hrows : ∀ l' : Z, (0 ≤ l' ≤ Z.of_nat T)%Z →
            ∃ row, gather1 tags' l' = Some row ∧ tag_row_ok B N row).
  { intros l0 Hl0r. unfold gather1. rewrite bool_decide_eq_true_2 by lia.
    destruct (lookup_lt_is_Some_2 tags' (Z.to_nat l0)) as [row Hrow].
    { unfold tags'. cbn. lia. }
    exists row. split; [done|].
    unfold tags' in Hrow. destruct (Z.to_nat l0) as [|n]; cbn in Hrow.
    - by injection Hrow as <-.
    - rewrite Forall_lookup in Htrows. eauto. }
  destruct (zip_withM_Some
              (λ (b : nat) (l : Z), row ← gather1 tags' l; tag ← row !! b;
                                    trans_at (transitions self) (end_idx self) tag)
              (seq 0 (length lengths)) lengths) as (eos & Heos & _ & Heoslk).
  { intros i b' l0 Hb' Hl0. apply lookup_seq in Hb' as [-> Hi]. cbn in Hi.
    change (0 + i) with i.
    rewrite Forall_lookup in Hlall. pose proof (Hlall _ _ Hl0) as Hl0r.
    destruct (Hrows l0 Hl0r) as (row & Hrow & [Hrl Hrr]).
    destruct (lookup_lt_is_Some_2 row i) as [tag Htag]; [lia|].
    rewrite Hrow. cbn [mbind option_bind]. rewrite Htag. cbn [mbind option_bind].
    rewrite Forall_lookup in Hrr. rewrite (trans_at_nat N); eauto. lia. }
  rewrite Heos. cbn [mbind option_bind]. eexists. split; [reflexivity|].
  rewrite lookup_zip_with.
  rewrite (Hsum 0 l' eff b us gs (start_idx self) Hb Hus Hgs)
    by (done || lia || by apply lookup_replicate_2).
  cbn [mbind option_bind].
  assert (Hgl : length gs = T) by (by rewrite (is_col_length _ _ _ Hgs)).
  rewrite (Heoslk b b l) by ((apply lookup_seq; split; [done | lia]) || done).
  rewrite masked_steps_sum, Nat.sub_0_r, fmap_take.
  rewrite <- !fmap_take.
  destruct (decide (l = 0%Z)) as [-> | Hl0].
  - change (gather1 tags' 0%Z) with (Some (replicate B (start_idx self))).
    cbn [mbind option_bind]. rewrite lookup_replicate_2 by done.
    cbn [mbind option_bind].
    rewrite He, Hs, (trans_at_nat N) by (done || lia). cbn [mbind option_bind].
    by rewrite !Nat2Z.id.
  - destruct (lookup_lt_is_Some_2 gs (Z.to_nat l - 1)) as [g Hg]; [lia|].
    destruct (Forall2_lookup_r _ _ _ _ _ Hgs Hg) as (row & Hrow & Hrg).
    assert (Hgr : (0 ≤ g < Z.of_nat N)%Z).
    { rewrite Forall_lookup in Htrows. destruct (Htrows _ _ Hrow) as [_ Hrr].
      rewrite Forall_lookup in Hrr. eauto. }
    assert (Hrow' : gather1 tags' l = Some row).
    { unfold gather1, tags'. rewrite bool_decide_eq_true_2 by lia.
      replace (Z.to_nat l) with (S (Z.to_nat l - 1)) by lia. done. }
    rewrite Hrow'. cbn [mbind option_bind]. rewrite Hrg. cbn [mbind option_bind].
    rewrite He, (trans_at_nat N) by (done || lia). cbn [mbind option_bind].
    rewrite Nat2Z.id, Hs, Nat2Z.id. do 3 f_equal.
    replace (Z.to_nat l) with (S (Z.to_nat l - 1)) by lia.
    by rewrite (last_fmap_take _ _ _ g).
Qed.

(** What [score_sentence] returns for an element of a batch padded to its
    longest element (some length is the padded width [T]), lengths of zero
    allowed: the total score of its gold path over its length. *)
Lemma score_sentence_element_nonneg (self : CRF V) (T B N st en : nat)
    (unary : list (list (list V))) (tags : list (list Z)) (lengths : list Z)
    (b : nat) (l : Z) (us : list (list V)) (gs : list Z) :
  crf_ok self N st en → shape3 T B N unary → tags_ok T B N tags → 0 < T →
  length lengths = B → Forall (λ l, 0 ≤ l ≤ Z.of_nat T)%Z lengths →
  Z.of_nat T ∈ lengths →
  lengths !! b = Some l → is_col b unary us → is_col b tags gs →
  ∃ scores,
    score_sentence self unary tags lengths B = Some scores ∧
    scores !! b
    = Some (path_score (transitions self) st en us (Z.to_nat <$> take (Z.to_nat l) gs)).
Proof.
  intros Hcrf Hun Htags HT Hll Hlall Hlong Hl Hus Hgs.
  assert (Hmax : torch_max_len lengths = Some (Z.of_nat T)).
  { apply torch_max_len_longest; [|done].
    eapply List.Forall_impl; [|exact Hlall]. cbn. intros; lia. }
  destruct (sequence_mask_steps lengths T Hmax) as (mask & Hmask & Hmt).
  apply (score_sentence_steps self T B N st en unary tags lengths b l l us gs
           ((λ t, lt_lengths t lengths) <$> seq 0 T)); try done.
  - by rewrite length_fmap, length_seq.
  - exists mask. split; [done|]. intros scores Hsl. rewrite Hmt.
    apply masked_fill_steps_same. by rewrite length_fmap, length_seq.
  - intros t mrow Ht. rewrite list_lookup_fmap in Ht.
    destruct (seq 0 T !! t) as [k|] eqn:Hk; [|done].
    apply lookup_seq in Hk as [-> _]. injection Ht as <-.
    unfold lt_lengths. by rewrite list_lookup_fmap, Hl.
Qed.

(** The same for a batch of lengths between 1 and [T]. *)
Lemma score_sentence_element (self : CRF V) (T B N st en : nat)
    (unary : list (list (list V))) (tags : list (list Z)) (lengths : list Z)
    (b : nat) (l : Z) (us : list (list V)) (gs : list Z) :
  crf_ok self N st en → shape3 T B N unary → tags_ok T B N tags →
  lengths_ok T B lengths → Z.of_nat T ∈ lengths → lengths !! b = Some l →
  is_col b unary us → is_col b tags gs →
  ∃ scores,
    score_sentence self unary tags lengths B = Some scores ∧
    scores !! b
    = Some (path_score (transitions self) st en us (Z.to_nat <$> take (Z.to_nat l) gs)).
Proof.
  intros Hcrf Hun Htags Hlen Hlong Hl Hus Hgs.
  destruct (lengths_ok_lookup T B lengths b l Hlen Hl) as (Hb & HB & HT & Hlr & HlT).
  destruct Hlen as [Hll Hlall].
  apply (score_sentence_element_nonneg self T B N st en); try done.
  eapply List.Forall_impl; [|exact Hlall]. cbn. intros; lia.
Qed.

(** When every length is 1, the mask has one step, which [masked_fill]
    uses at every step of the scores: no step is masked out, and the gold
    tags of all the [T] steps are scored, the padded ones included, while
    the transition into END is taken from the first tag. *)
Lemma score_sentence_element_unmasked (self : CRF V) (T B N st en : nat)
    (unary : list (list (list V))) (tags : list (list Z)) (lengths : list Z)
    (b : nat) (us : list (list V)) (gs : list Z) :
  crf_ok self N st en → shape3 T B N unary → tags_ok T B N tags → 0 < T →
  length lengths = B → Forall (λ l, l = 1%Z) lengths → b < B →
  is_col b unary us → is_col b tags gs →
  ∃ scores,
    score_sentence self unary tags lengths B = Some scores ∧
    scores !! b
    = Some (sum_scores (step_scores (transitions self) st us (Z.to_nat <$> gs))
            ⊕ (transitions self !!! en) !!! List.last (Z.to_nat <$> take 1 gs) st).
Proof.
  intros Hcrf Hun Htags HT Hll Hones Hb Hus Hgs.
  destruct (lookup_lt_is_Some_2 lengths b) as [l Hl]; [lia|].
  assert (l = 1%Z) as -> by (rewrite Forall_lookup in Hones; eauto).
  assert (Hmax : torch_max_len lengths = Some (Z.of_nat 1)).
  { apply torch_max_len_longest.
    - eapply List.Forall_impl; [|exact Hones]. cbn. intros; lia.
    - by eapply list_elem_of_lookup_2. }
  destruct (sequence_mask_steps lengths 1 Hmax) as (mask & Hmask & Hmt).
  assert (Hgl : length gs = T).
  { rewrite (is_col_length _ _ _ Hgs). by destruct Htags. }
  destruct (score_sentence_steps self T B N st en unary tags lengths b 1 (Z.of_nat T)
              us gs (replicate T (lt_lengths 0 lengths)))
    as (scores & Hsc & Hscb); try done.
  - eapply List.Forall_impl; [|exact Hones]. cbn. intros; lia.
  - by rewrite length_replicate.
  - exists mask. split; [done|]. intros scores Hsl. rewrite Hmt.
    change ((λ t, lt_lengths t lengths) <$> seq 0 1) with [lt_lengths 0 lengths].
    by rewrite masked_fill_steps_one, Hsl.
  - intros t mrow Ht. apply lookup_replicate in Ht as [-> Ht].
    unfold lt_lengths. rewrite list_lookup_fmap, Hl. cbn.
    f_equal. rewrite !bool_decide_eq_true_2 by lia. done.
  - exists scores. split; [done|]. rewrite Hscb, Nat2Z.id.
    by rewrite <- Hgl, firstn_all.
Qed.

Lemma gold_score_at_element (self : CRF V) (T B N st en : nat)
    (unary : list (list (list V))) (tags : list (list Z)) (lengths : list Z)
    (b : nat) (l : Z) (us : list (list V)) (gs : list Z) :
  crf_ok self N st en → shape3 T B N unary → tags_ok T B N tags →
  lengths_ok T B lengths → Z.of_nat T ∈ lengths → lengths !! b = Some l →
  is_col b unary us → is_col b tags gs →
  gold_score_at self unary tags lengths B b
  = Some (path_score (transitions self) st en us (Z.to_nat <$> take (Z.to_nat l) gs)).
Proof.
  intros Hcrf Hun Htags Hlen Hlong Hl Hus Hgs.
  destruct (score_sentence_element self T B N st en unary tags lengths b l us gs)
    as (scores & Hsc & Hb); try done.
  unfold gold_score_at. by rewrite Hsc.
Qed.

(** [neg_log_loss] for a batch element: the forward score of the element
    minus the score of its gold path. *)
Lemma loss_at_element `{LogSumExp V} (self : CRF V) (T B N st en : nat)
    (unary : list (list (list V))) (tags : list (list Z)) (lengths : list Z)
    (b : nat) (l : Z) (us : list (list V)) (gs : list Z) :
  crf_ok self N st en → shape3 T B N (time_major self unary) →
  tags_ok T B N (time_major self tags) →
  lengths_ok T B lengths → Z.of_nat T ∈ lengths → lengths !! b = Some l →
  emissions_of self unary b us → gold_tags_of self tags b gs →
  loss_at self unary tags lengths b
  = Some (forward1 (transitions self) st en (take (Z.to_nat l) us)
          ⊖ path_score (transitions self) st en us
              (Z.to_nat <$> take (Z.to_nat l) gs)).
Proof.
  intros Hcrf Hun Htags Hlen Hlong Hl Hus Hgs.
  destruct (lengths_ok_lookup T B lengths b l Hlen Hl) as (Hb & HB & HT & Hlr & HlT).
  pose proof Hcrf as (Hn & Hs & He & Hst & Hen & Htr). pose proof Hlen as [Hll _].
  destruct (forward_elements self T B N st en _ lengths Hn Hs He Hst Hen Htr
              Hun Hll HB) as (fwd & Hf & _ & Hfel).
  destruct (score_sentence_element self T B N st en _ _ lengths b l us gs
              Hcrf Hun Htags Hlen Hlong Hl Hus Hgs) as (gold & Hg & Hgb).
  assert (Hbs : length (hd [] (time_major self unary)) = B).
  { destruct Hun as [HuT Hrows]. destruct (time_major self unary) as [|r0 ?];
      [cbn in HuT; lia|]. apply Forall_cons_1 in Hrows as [[? _] _]. done. }
  unfold loss_at, neg_log_loss. rewrite Hbs, Hf, Hg. cbn [mbind option_bind].
  by rewrite lookup_zip_with, (Hfel b l us Hl Hus), Hgb.
Qed.

(** [neg_log_loss] for an element of a batch whose lengths are all 1: the
    forward score of its first step, minus the score of all its steps. *)
Lemma loss_at_unmasked `{LogSumExp V} (self : CRF V) (T B N st en : nat)
    (unary : list (list (list V))) (tags : list (list Z)) (lengths : list Z)
    (b : nat) (us : list (list V)) (gs : list Z) :
  crf_ok self N st en → shape3 T B N (time_major self unary) →
  tags_ok T B N (time_major self tags) →
  lengths_ok T B lengths → Forall (λ l, l = 1%Z) lengths → b < B →
  emissions_of self unary b us → gold_tags_of self tags b gs →
  let gold := sum_scores (step_scores (transitions self) st us (Z.to_nat <$> gs))
              ⊕ (transitions self !!! en) !!! List.last (Z.to_nat <$> take 1 gs) st in
  gold_score_at self (time_major self unary) (time_major self tags) lengths B b
  = Some gold ∧
  loss_at self unary tags lengths b
  = Some (forward1 (transitions self) st en (take 1 us) ⊖ gold).
Proof.
  intros Hcrf Hun Htags Hlen Hones Hb Hus Hgs gold.
  destruct (lookup_lt_is_Some_2 lengths b) as [l Hl]; [destruct Hlen; lia|].
  assert (l = 1%Z) as -> by (rewrite Forall_lookup in Hones; eauto).
  destruct (lengths_ok_lookup T B lengths b 1 Hlen Hl) as (_ & HB & HT & _ & _).
  pose proof Hcrf as (Hn & Hs & He & Hst & Hen & Htr). pose proof Hlen as [Hll _].
  destruct (forward_elements self T B N st en _ lengths Hn Hs He Hst Hen Htr
              Hun Hll HB) as (fwd & Hf & _ & Hfel).
  destruct (score_sentence_element_unmasked self T B N st en _ _ lengths b us gs
              Hcrf Hun Htags HT Hll Hones Hb Hus Hgs) as (scores & Hg & Hgb).
  assert (Hbs : length (hd [] (time_major self unary)) = B).
  { destruct Hun as [HuT Hrows]. destruct (time_major self unary) as [|r0 ?];
      [cbn in HuT; lia|]. apply Forall_cons_1 in Hrows as [[? _] _]. done. }
  split.
  - unfold gold_score_at. by rewrite Hg.
  - unfold loss_at, neg_log_loss. rewrite Hbs, Hf, Hg. cbn [mbind option_bind].
    by rewrite lookup_zip_with, (Hfel b 1%Z us Hl Hus), Hgb.
Qed.
End gold.

(** * The claims about the gold-path scorer *)

Section gold_claims.
Context {V : Type} `{ScoreLaws V}.
#[local] Existing Instance score_inhabited.

(** C3 (amended).  In a batch padded to its longest element (some length
    is the padded width [T]) whose tag tensor holds tag indices only, at
    the padded positions and for the other elements too, for an element
    [b] of length [l] (between 1 and [T]) with gold tags [gs],
    [score_sentence] returns the sum over the time steps [t < l] of
    [emission[t][tag[t]] + transition[tag[t], tag[t-1]]], [tag[-1]] being
    START, plus the transition from the tag at position [l - 1] into END;
    the steps at or beyond [l] contribute nothing. *)
Theorem score_sentence_gold_path (self : CRF V) (T B N st en : nat)
    (unary : list (list (list V))) (tags : list (list Z)) (lengths : list Z)
    (b : nat) (l : Z) (us : list (list V)) (gs : list Z) :
  crf_ok self N st en → shape3 T B N unary → tags_ok T B N tags →
  lengths_ok T B lengths → Z.of_nat T ∈ lengths → lengths !! b = Some l →
  is_col b unary us → is_col b tags gs →
  let gold := Z.to_nat <$> take (Z.to_nat l) gs in
  gold_score_at self unary tags lengths B b
  = Some (sum_scores (step_scores (transitions self) st us gold)
          ⊕ (transitions self !!! en) !!! List.last gold st).
Proof. intros. by apply (gold_score_at_element self T B N st en). Qed.

(** C8 (amended).  In a batch padded to its longest element (some length
    is the padded width [T]), the result of [score_sentence], and hence of
    [neg_log_loss], for a batch element is independent of the values stored
    in the gold tag tensor at its padded positions [t >= length[b]] (and in
    the columns of the other elements), as long as every stored value is a
    tag index in [0, n_tags). *)
Theorem gold_score_padding_independent `{LogSumExp V} (self : CRF V)
    (T B N st en : nat) (unary : list (list (list V))) (tags tags' : list (list Z))
    (lengths : list Z) (b : nat) (l : Z) (gs gs' : list Z) :
  crf_ok self N st en → shape3 T B N (time_major self unary) →
  tags_ok T B N (time_major self tags) → tags_ok T B N (time_major self tags') →
  lengths_ok T B lengths → Z.of_nat T ∈ lengths → lengths !! b = Some l →
  gold_tags_of self tags b gs → gold_tags_of self tags' b gs' →
  take (Z.to_nat l) gs = take (Z.to_nat l) gs' →
  is_Some (gold_score_at self (time_major self unary) (time_major self tags) lengths B b) ∧
  gold_score_at self (time_major self unary) (time_major self tags) lengths B b
  = gold_score_at self (time_major self unary) (time_major self tags') lengths B b ∧
  is_Some (loss_at self unary tags lengths b) ∧
  loss_at self unary tags lengths b = loss_at self unary tags' lengths b.
Proof.
  intros Hcrf Hun Htags Htags' Hlen Hlong Hl Hgs Hgs' Heq.
  destruct (lengths_ok_lookup T B lengths b l Hlen Hl) as (Hb & _).
  destruct (emissions_exist self T B N unary b Hun Hb) as [us Hus].
  rewrite (gold_score_at_element self T B N st en _ _ lengths b l us gs) by done.
  rewrite (gold_score_at_element self T B N st en _ _ lengths b l us gs') by done.
  rewrite (loss_at_element self T B N st en unary tags lengths b l us gs) by done.
  rewrite (loss_at_element self T B N st en unary tags' lengths b l us gs') by done.
  rewrite Heq. eauto.
Qed.
End gold_claims.

(** C3 as stated fails.  A value that is no tag index, stored at a padded
    position of the second element, makes the call raise: the first
    element, of length 3 with gold tags A, B, B, gets no score.  And with
    the lengths [1; 1] in a batch padded to three steps the mask has one
    step, used at all three, so the padded steps of the first element are
    summed: its score is -19987, where the sum over its one step and the
    transition into END is -9995; with the lengths [2; 1] the mask of two
    steps fits no score tensor of three, and the call raises. *)
Lemma score_sentence_gold_path_fails :
  gold_score_at crf_chain unary_pair [[1; 2]; [2; 9]; [2; 0]]%Z [3; 1]%Z 2 0 = None ∧
  gold_score_at crf_chain unary_pair tags_pair [1; 1]%Z 2 0 = Some (-19987)%Z ∧
  (let gold := Z.to_nat <$> take (Z.to_nat 1) [1; 2; 2]%Z in
   sum_scores (step_scores (transitions crf_chain) 0
                 [[-10000; 5; 0; -10000]; [-10000; 0; 5; -10000]; [-10000; 3; 3; -10000]]%Z
                 gold)
   ⊕ (transitions crf_chain !!! 3%nat) !!! List.last gold 0%nat = (-9995)%Z) ∧
  gold_score_at crf_chain unary_pair tags_pair [2; 1]%Z 2 0 = None.
Proof. by vm_compute. Qed.

(** C8 as stated fails: a padding value that is not a tag index makes
    [score_sentence] raise, whatever the lengths.  And where no element
    has the padded width as its length, here with the lengths [1; 1] in a
    batch of three steps, the padded steps are not masked out: two tag
    tensors that differ at padded positions only give the second element
    the scores -29990 and -19988. *)
Lemma gold_score_padding_value :
  gold_score_at crf_chain unary_pair [[1; 2]; [2; 0]; [2; 0]]%Z [3; 1]%Z 2 1 = Some (-9995)%Z ∧
  gold_score_at crf_chain unary_pair [[1; 2]; [2; 7]; [2; 0]]%Z [3; 1]%Z 2 1 = None ∧
  gold_score_at crf_chain unary_pair [[1; 2]; [2; -1]; [2; 0]]%Z [3; 1]%Z 2 1 = None ∧
  gold_score_at crf_chain unary_pair tags_pair [1; 1]%Z 2 1 = Some (-29990)%Z ∧
  gold_score_at crf_chain unary_pair tags_pair' [1; 1]%Z 2 1 = Some (-19988)%Z.
Proof. by vm_compute. Qed.

(** * The forward score dominates every path *)

Section forward_bound.
Context {V : Type} `{ScoreLaws V} `{LogSumExp V}.
#[local] Existing Instance score_inhabited.
Context (lse_ge : ∀ (v : list V) (k : nat) (x : V),
                    v !! k = Some x → x ⊑ vec_log_sum_exp v).
Context (N : nat) (trans : list (list V)) (Htrans : shape2 N N trans).

Lemma forward_cell_lookup (a u : list V) (t : nat) :
  length u = N → t < N →
  forward_cell trans a u !!! t
  = vec_log_sum_exp (zip_with (λ aj tij, aj ⊕ tij ⊕ u !!! t) a (trans !!! t)).
Proof using Htrans.
  clear lse_ge. intros Hu Ht. destruct Htrans as [Htl _].
  apply list_lookup_total_correct. unfold forward_cell.
  by rewrite lookup_zip_with, !list_lookup_lookup_total_lt by lia.
Qed.

Lemma forward_upper_bound (en : nat) (us : list (list V)) :
  en < N → Forall (λ u, length u = N) us →
  ∀ (a : list V) (j : nat) (q : list nat),
    length a = N → j < N → valid_path N (length us) q →
    a !!! j ⊕ tail_score trans en j us q
    ⊑ vec_log_sum_exp (zip_with sadd (forward_run trans a us) (trans !!! en)).
Proof using All.
  intros Hen. induction 1 as [|u us Hu _ IH]; intros a j q Ha Hj [Hql Hqr].
  - destruct q; [|done]. cbn. eapply lse_ge.
    apply (zip_sadd_lookup N); [done | by apply (trans_row_length N trans) | done].
  - destruct q as [|t q]; [done|]. apply Forall_cons_1 in Hqr as [Ht Hqr].
    cbn [tail_score]. injection Hql as Hql.
    change (forward_run trans a (u :: us))
      with (forward_run trans (forward_cell trans a u) us).
    eapply sleb_trans; [|apply (IH (forward_cell trans a u) t q)]; try done.
    + rewrite sadd_assoc. apply sadd_mono_r.
      rewrite forward_cell_lookup by done.
      rewrite (sadd_comm (u !!! t)), sadd_assoc.
      apply (lse_ge _ j). rewrite lookup_zip_with.
      rewrite (list_lookup_lookup_total_lt a j) by lia.
      rewrite (list_lookup_lookup_total_lt (trans !!! t) j); [done|].
      by rewrite (trans_row_length N trans).
    + rewrite forward_cell_length. destruct Htrans. lia.
Qed.

(** The forward score of an element is at least the score of any of its
    paths, the gold path among them. *)
Lemma forward1_ge_path (st en : nat) (us : list (list V)) (q : list nat) :
  st < N → en < N → Forall (λ u, length u = N) us → valid_path N (length us) q →
  path_score trans st en us q ⊑ forward1 trans st en us.
Proof using All.
  intros Hst Hen Hus Hq. unfold forward1. destruct Htrans as [Htl _]. rewrite Htl.
  rewrite path_score_tail by (destruct Hq; lia).
  rewrite <- (sadd_0_l (tail_score _ _ _ _ _)), <- (init_alpha_start N st Hst).
  apply forward_upper_bound; try done. apply init_alpha_length.
Qed.
End forward_bound.

(** ** Real scores: the stabilised log-sum-exp *)

Section real_lse.
Local Open Scope R_scope.

Lemma R_sum_list_cons (x : R) (v : list R) : R_sum_list (x :: v) = x + R_sum_list v.
Proof. done. Qed.

Lemma R_sum_list_nonneg (v : list R) : Forall (λ x, 0 <= x) v → 0 <= R_sum_list v.
Proof.
  induction 1 as [|x v Hx _ IH]; [cbn; lra|]. rewrite R_sum_list_cons. lra.
Qed.

Lemma R_sum_list_ge (v : list R) (k : nat) (x : R) :
  Forall (λ x, 0 <= x) v → v !! k = Some x → x <= R_sum_list v.
Proof.
  intros Hv. revert k. induction Hv as [|y v Hy Hv IH]; intros k Hk; [done|].
  rewrite R_sum_list_cons. destruct k as [|k]; cbn in Hk.
  - injection Hk as ->. pose proof (R_sum_list_nonneg v Hv). lra.
  - specialize (IH k Hk). lra.
Qed.

Lemma ln_le_mono (x y : R) : 0 < x → x <= y → ln x <= ln y.
Proof.
  intros Hx [Hlt | ->]; [|lra]. left. by apply ln_increasing.
Qed.

Lemma R_lse_ge (v : list R) (k : nat) (x : R) :
  v !! k = Some x → x ⊑ vec_log_sum_exp v.
Proof.
  intros Hk. apply R_sleb_le. unfold vec_log_sum_exp, R_log_sum_exp.
  set (m := R_max_list v).
  assert (Hge : exp (x - m) <= R_sum_list ((λ x, exp (x - m)) <$> v)).
  { apply (R_sum_list_ge _ k).
    - apply Forall_fmap, Forall_true. intros y. cbn. left. apply exp_pos.
    - by rewrite list_lookup_fmap, Hk. }
  pose proof (ln_le_mono _ _ (exp_pos (x - m)) Hge) as Hln.
  rewrite ln_exp in Hln. lra.
Qed.
End real_lse.

(** * The claims about the loss *)

Section loss_claims.
Local Open Scope R_scope.

Lemma gold_tags_exist {V : Type} `{Score V} (self : CRF V) (T B N : nat)
    (tags : list (list Z)) (b : nat) :
  tags_ok T B N (time_major self tags) → (b < B)%nat → ∃ gs, gold_tags_of self tags b gs.
Proof.
  intros [_ Htags] Hb. apply (is_col_exists b B); [|done].
  eapply List.Forall_impl; [|exact Htags]. by intros row [? _].
Qed.

Lemma gold_path_valid (T B N : nat) (tags : list (list Z)) (b : nat) (gs : list Z)
    (n : nat) :
  tags_ok T B N tags → is_col b tags gs → (n ≤ T)%nat →
  valid_path N n (Z.to_nat <$> take n gs).
Proof.
  intros [HtT Htags] Hgs Hn. split.
  - rewrite length_fmap, length_take, (is_col_length _ _ _ Hgs). lia.
  - apply Forall_fmap, Forall_take, Forall_lookup. intros t g Hg.
    destruct (Forall2_lookup_r _ _ _ _ _ Hgs Hg) as (row & Hrow & Hrg).
    rewrite Forall_lookup in Htags. destruct (Htags _ _ Hrow) as [_ Hrr].
    rewrite Forall_lookup in Hrr. specialize (Hrr _ _ Hrg). cbn. lia.
Qed.

(** X21.  For a valid input (gold tags all in [0, N), lengths between 1 and
    T) padded to its longest element (some length is [T]), the forward
    score of every batch element is at least the score of its gold path,
    so [neg_log_loss], their difference, is nonnegative. *)
Theorem neg_log_loss_nonneg (self : CRF R) (T B N st en : nat)
    (unary : list (list (list R))) (tags : list (list Z)) (lengths : list Z)
    (b : nat) (l : Z) :
  crf_ok self N st en → shape3 T B N (time_major self unary) →
  tags_ok T B N (time_major self tags) →
  lengths_ok T B lengths → Z.of_nat T ∈ lengths → lengths !! b = Some l →
  ∃ fwd gold,
    forward_at self (time_major self unary) lengths B b = Some fwd ∧
    gold_score_at self (time_major self unary) (time_major self tags) lengths B b
    = Some gold ∧
    loss_at self unary tags lengths b = Some (fwd - gold) ∧
    gold <= fwd ∧ 0 <= fwd - gold.
Proof.
  intros Hcrf Hun Htags Hlen Hlong Hl.
  destruct (lengths_ok_lookup T B lengths b l Hlen Hl) as (Hb & _ & _ & Hlr & HlT).
  destruct (emissions_exist self T B N unary b Hun Hb) as [us Hus].
  destruct (gold_tags_exist self T B N tags b Htags Hb) as [gs Hgs].
  destruct (shape3_col T B N _ b us Hun Hus) as [HusT HusN].
  pose proof Hcrf as (_ & _ & _ & Hst & Hen & Htr).
  eexists _, _. split; [|split; [|split]].
  - apply (forward_at_element self T B N st en _ lengths b l us); try done.
    by destruct Hlen.
  - by apply (gold_score_at_element self T B N st en _ _ lengths b l us gs).
  - rewrite (loss_at_element self T B N st en unary tags lengths b l us gs) by done.
    reflexivity.
  - assert (Hle : path_score (transitions self) st en us
                    (Z.to_nat <$> take (Z.to_nat l) gs)
                  <= forward1 (transitions self) st en (take (Z.to_nat l) us)).
    { apply R_sleb_le.
      rewrite <- (path_score_take _ _ _ (Z.to_nat l)).
      - apply (forward1_ge_path R_lse_ge N); try done; [by apply Forall_take|].
        rewrite length_take, HusT, Nat.min_l by lia.
        by apply (gold_path_valid T B N (time_major self tags) b).
      - rewrite length_fmap, length_take, (is_col_length _ _ _ Hgs).
        destruct Htags as [-> _]. lia.
      - lia. }
    split; lra.
Qed.
End loss_claims.

(** * The forward recursion computes the log partition function *)

Section partition.
Local Open Scope R_scope.
#[local] Existing Instance score_inhabited.

Lemma R_sum_list_ext {A : Type} (f g : A → R) (l : list A) :
  (∀ x, x ∈ l → f x = g x) → R_sum_list (f <$> l) = R_sum_list (g <$> l).
Proof.
  induction l as [|x l IH]; intros Hfg; [done|]. cbn [fmap list_fmap].
  rewrite !R_sum_list_cons, Hfg, IH; [done | | by left].
  intros y Hy. apply Hfg. by right.
Qed.

Lemma R_sum_list_scal {A : Type} (c : R) (f : A → R) (l : list A) :
  R_sum_list ((λ x, c * f x) <$> l) = c * R_sum_list (f <$> l).
Proof.
  induction l as [|x l IH]; cbn [fmap list_fmap]; [cbn; lra|].
  rewrite !R_sum_list_cons, IH. lra.
Qed.

Lemma R_sum_list_plus {A : Type} (f g : A → R) (l : list A) :
  R_sum_list ((λ x, f x + g x) <$> l) = R_sum_list (f <$> l) + R_sum_list (g <$> l).
Proof.
  induction l as [|x l IH]; cbn [fmap list_fmap]; [cbn; lra|].
  rewrite !R_sum_list_cons, IH. lra.
Qed.

Lemma R_sum_list_swap {A C : Type} (f : A → C → R) (l : list A) (k : list C) :
  R_sum_list ((λ x, R_sum_list ((λ y, f x y) <$> k)) <$> l)
  = R_sum_list ((λ y, R_sum_list ((λ x, f x y) <$> l)) <$> k).
Proof.
  induction l as [|x l IH]; cbn [fmap list_fmap].
  - cbn. induction k as [|y k IHk]; [done|]. cbn [fmap list_fmap].
    rewrite R_sum_list_cons, <- IHk. cbn. lra.
  - rewrite R_sum_list_cons, IH, <- R_sum_list_plus. done.
Qed.

Lemma R_sum_list_bind {A C : Type} (g : C → R) (h : A → list C) (l : list A) :
  R_sum_list (g <$> (l ≫= h)) = R_sum_list ((λ x, R_sum_list (g <$> h x)) <$> l).
Proof.
  induction l as [|x l IH]; [done|]. cbn [mbind list_bind fmap list_fmap].
  rewrite fmap_app, R_sum_list_cons, <- IH.
  generalize (g <$> h x) (g <$> (l ≫= h)). clear. intros v w.
  induction v as [|y v IHv]; [change (R_sum_list []) with 0; cbn [app]; lra|].
  cbn [app]. rewrite !R_sum_list_cons, IHv. lra.
Qed.

Lemma R_sum_list_pos (v : list R) :
  v ≠ [] → Forall (λ x, 0 < x) v → 0 < R_sum_list v.
Proof.
  intros Hne Hv. destruct Hv as [|x v Hx Hv]; [done|]. rewrite R_sum_list_cons.
  assert (0 <= R_sum_list v); [|lra].
  apply R_sum_list_nonneg. eapply List.Forall_impl; [|exact Hv]. cbn. intros; lra.
Qed.

(** A list as the table of its entries. *)
Lemma R_sum_list_index (g : R → R) (l : list R) :
  R_sum_list (g <$> l) = Rsum_n (length l) (λ j, g (l !!! j)).
Proof.
  unfold Rsum_n. induction l as [|x l IH]; [done|].
  cbn [fmap list_fmap length seq]. rewrite !R_sum_list_cons, IH. f_equal.
  by rewrite <- fmap_S_seq, <- list_fmap_compose.
Qed.

Lemma zip_with_index (f : R → R → R) (a row : list R) (n j : nat) :
  length a = n → length row = n → (j < n)%nat →
  zip_with f a row !!! j = f (a !!! j) (row !!! j).
Proof.
  intros Ha Hr Hj. apply list_lookup_total_correct. rewrite lookup_zip_with.
  by rewrite !list_lookup_lookup_total_lt by lia.
Qed.

Lemma Rsum_n_ext (n : nat) (f g : nat → R) :
  (∀ j, (j < n)%nat → f j = g j) → Rsum_n n f = Rsum_n n g.
Proof.
  intros Hfg. apply R_sum_list_ext. intros j Hj. apply Hfg.
  apply elem_of_seq in Hj. lia.
Qed.

(** The stabilised form computes the log of the sum of exponentials. *)
Lemma R_lse_eq (v : list R) :
  v ≠ [] → vec_log_sum_exp v = ln (R_sum_list (exp <$> v)).
Proof.
  intros Hne. unfold vec_log_sum_exp, R_log_sum_exp. set (m := R_max_list v).
  assert (Hsh : R_sum_list ((λ x, exp (x - m)) <$> v)
                = exp (- m) * R_sum_list (exp <$> v)).
  { rewrite <- R_sum_list_scal. apply R_sum_list_ext. intros x _.
    rewrite <- exp_plus. f_equal. lra. }
  assert (Hpos : 0 < R_sum_list (exp <$> v)).
  { apply R_sum_list_pos; [by destruct v|].
    apply Forall_fmap, Forall_true. intros x. apply exp_pos. }
  rewrite Hsh, ln_mult, ln_exp by (done || apply exp_pos). lra.
Qed.

Section forward_sum.
Context (N : nat) (trans : list (list R)) (en : nat).
Context (HN : (0 < N)%nat) (Htrans : shape2 N N trans) (Hen : (en < N)%nat).

Lemma path_weight_paths (us : list (list R)) :
  ∀ j : nat,
    path_weight N trans en j us
    = R_sum_list ((λ q, exp (tail_score trans en j us q)) <$> all_paths N (length us)).
Proof using Type.
  clear. induction us as [|u us IH]; intros j.
  { cbn. lra. }
  cbn [path_weight length all_paths]. rewrite R_sum_list_bind. unfold Rsum_n.
  apply R_sum_list_ext. intros t _. rewrite IH, <- list_fmap_compose.
  rewrite <- R_sum_list_scal. apply R_sum_list_ext. intros q _. cbn.
  symmetry. apply exp_plus.
Qed.

Lemma path_weight_pos (us : list (list R)) : ∀ j : nat, 0 < path_weight N trans en j us.
Proof using HN.
  clear Htrans Hen. induction us as [|u us IH]; intros j; cbn [path_weight].
  { apply exp_pos. }
  apply R_sum_list_pos.
  - destruct N; [lia | done].
  - apply Forall_fmap, Forall_true. intros t. cbn.
    apply Rmult_lt_0_compat; [apply exp_pos | apply IH].
Qed.

Lemma Rsum_n_pos (f : nat → R) : (∀ j, 0 < f j) → 0 < Rsum_n N f.
Proof using HN.
  clear Htrans Hen. intros Hf. apply R_sum_list_pos.
  - destruct N; [lia | done].
  - by apply Forall_fmap, Forall_true.
Qed.

(** One step of the forward recursion, on the exponentials. *)
Lemma forward_cell_exp (a u : list R) (t : nat) :
  length a = N → length u = N → (t < N)%nat →
  exp (forward_cell trans a u !!! t)
  = Rsum_n N (λ j, exp (a !!! j) * exp (u !!! t + (trans !!! t) !!! j)).
Proof using HN Htrans.
  clear Hen. intros Ha Hu Ht.
  pose proof (trans_row_length N trans Htrans t Ht) as Hrow.
  rewrite (forward_cell_lookup N trans Htrans) by done.
  set (v := zip_with _ a (trans !!! t)).
  assert (Hv : length v = N) by (unfold v; rewrite length_zip_with; lia).
  rewrite R_lse_eq by (intros Hnil; rewrite Hnil in Hv; cbn in Hv; lia).
  rewrite exp_ln.
  - rewrite R_sum_list_index, Hv. apply Rsum_n_ext. intros j Hj. unfold v.
    rewrite (zip_with_index _ _ _ N) by done. cbn.
    rewrite <- exp_plus. f_equal. lra.
  - apply R_sum_list_pos; [intros Hnil; apply fmap_nil_inv in Hnil;
      rewrite Hnil in Hv; cbn in Hv; lia|].
    apply Forall_fmap, Forall_true. intros x. apply exp_pos.
Qed.

(** The terminal sum of the forward recursion from the state [a]. *)
Lemma forward_run_weight (us : list (list R)) :
  Forall (λ u, length u = N) us →
  ∀ a : list R, length a = N →
    R_sum_list (exp <$> zip_with sadd (forward_run trans a us) (trans !!! en))
    = Rsum_n N (λ j, exp (a !!! j) * path_weight N trans en j us).
Proof using HN Htrans Hen.
  pose proof (trans_row_length N trans Htrans en Hen) as Hrow.
  induction 1 as [|u us Hu Hus IH]; intros a Ha.
  - cbn [forward_run foldl path_weight]. rewrite R_sum_list_index, length_zip_with.
    rewrite Ha, Hrow, Nat.min_id. apply Rsum_n_ext. intros j Hj.
    rewrite (zip_with_index _ _ _ N) by done. apply exp_plus.
  - change (forward_run trans a (u :: us))
      with (forward_run trans (forward_cell trans a u) us).
    rewrite IH by (rewrite forward_cell_length; destruct Htrans; lia).
    cbn [path_weight]. unfold Rsum_n.
    transitivity (R_sum_list ((λ t, R_sum_list ((λ j,
        exp (a !!! j) * (exp (u !!! t + (trans !!! t) !!! j) * path_weight N trans en t us))
          <$> seq 0 N)) <$> seq 0 N)).
    + apply R_sum_list_ext. intros t Ht. apply elem_of_seq in Ht.
      rewrite forward_cell_exp by (done || lia). unfold Rsum_n.
      rewrite Rmult_comm, <- R_sum_list_scal. apply R_sum_list_ext. intros j _. lra.
    + rewrite R_sum_list_swap. apply R_sum_list_ext. intros j _.
      by rewrite R_sum_list_scal.
Qed.

(** The forward score of an element alone is the log of the sum over the
    initial tags and the paths. *)
Lemma forward1_sum (st : nat) (us : list (list R)) :
  Forall (λ u, length u = N) us →
  forward1 trans st en us
  = ln (Rsum_n N (λ j, exp ((init_alpha N st : list R) !!! j) * path_weight N trans en j us)).
Proof using HN Htrans Hen.
  intros Hus. unfold forward1. destruct Htrans as [Htl _]. rewrite Htl.
  pose proof (trans_row_length N trans Htrans en Hen) as Hrow.
  pose proof (init_alpha_length N st : length (init_alpha N st : list R) = N) as Ha0.
  rewrite R_lse_eq, forward_run_weight; try done.
  intros Hnil. apply (f_equal length) in Hnil. rewrite length_zip_with, Hrow in Hnil.
  assert (Hfl : ∀ us a, Forall (λ u, length u = N) us → length a = N →
            length (forward_run trans a us) = N).
  { clear -Htl. intros us'. induction us' as [|u us' IH]; intros a Hus' Ha; [done|].
    apply Forall_cons_1 in Hus' as [Hu Hus']. cbn. apply IH; [done|].
    rewrite forward_cell_length. lia. }
  rewrite Hfl in Hnil by done. cbn in Hnil. lia.
Qed.
End forward_sum.
End partition.

(** * The claims about the forward score *)

Section forward_claims.
Local Open Scope R_scope.
#[local] Existing Instance score_inhabited.

Lemma all_paths_length (n len : nat) (q : list nat) :
  q ∈ all_paths n len → length q = len.
Proof.
  revert q. induction len as [|len IH]; intros q Hq; cbn in Hq.
  - apply list_elem_of_singleton in Hq. by subst.
  - apply list_elem_of_bind in Hq as (t & Hq & _).
    apply list_elem_of_fmap in Hq as (q' & -> & Hq'). cbn. by rewrite (IH q').
Qed.

(** C2 (amended).  For a batch element of length [l] between 1 and T, the
    forward pass returns the log of the sum, over all tag sequences of
    length exactly [l] and over all tags [j] standing before step 0, of
    exp(initial score of [j] + total path score), where the initial score
    is 0 for START and -1e4 for every other tag, and the total path score
    comprises the transition from [j] into the first tag, the emission and
    incoming transition of each of the [l] steps, and the transition from
    the last tag into END. *)
Theorem forward_log_partition (self : CRF R) (T B N st en : nat)
    (unary : list (list (list R))) (lengths : list Z) (b : nat) (l : Z)
    (us : list (list R)) :
  crf_ok self N st en → shape3 T B N unary → lengths_ok T B lengths →
  lengths !! b = Some l → is_col b unary us →
  forward_at self unary lengths B b
  = Some (log_partition_init (transitions self) N st en us (Z.to_nat l)).
Proof.
  intros Hcrf Hun Hlen Hl Hus.
  destruct (lengths_ok_lookup T B lengths b l Hlen Hl) as (Hb & _ & _ & Hlr & HlT).
  destruct (shape3_col T B N _ b us Hun Hus) as [HusT HusN].
  pose proof Hcrf as (_ & _ & _ & Hst & Hen & Htr).
  rewrite (forward_at_element self T B N st en unary lengths b l us)
    by (done || by destruct Hlen).
  assert (Htk : length (take (Z.to_nat l) us) = Z.to_nat l)
    by (rewrite length_take; lia).
  rewrite (forward1_sum N) by (done || lia || by apply Forall_take).
  unfold log_partition_init, Rsum_n. do 2 f_equal.
  apply R_sum_list_ext. intros j _.
  rewrite path_weight_paths, Htk, <- R_sum_list_scal.
  apply R_sum_list_ext. intros q Hq. apply all_paths_length in Hq.
  rewrite <- exp_plus. do 2 f_equal.
  rewrite path_score_tail by lia. apply tail_score_take. lia.
Qed.
End forward_claims.

(** * The forward score at a concrete input *)

Section real_inputs.
Local Open Scope R_scope.
#[local] Existing Instance score_inhabited.

Lemma crf_steep_R_ok : crf_ok crf_steep_R 2 0 1.
Proof. unfold crf_ok. cbn. shape_tac. Defined.

Lemma ln_2_le_1 : ln 2 <= 1.
Proof.
  rewrite <- (ln_exp 1). apply ln_le_mono; [lra|].
  pose proof (exp_ineq1 1 ltac:(lra)). lra.
Qed.

(** C2 as stated fails: on this valid input the forward score is at least
    -20000, while the log of the sum over the two paths from START is below
    -29999. *)
Lemma forward_not_log_partition :
  crf_ok crf_steep_R 2 0 1 ∧ shape3 1 1 2 unary_steep_R ∧ lengths_ok 1 1 [1%Z] ∧
  ∃ fwd,
    forward_at crf_steep_R unary_steep_R [1%Z] 1 0 = Some fwd ∧
    -20000 <= fwd ∧
    log_partition (transitions crf_steep_R) 2 0 1 [[0; -10000]] 1 <= -29999 ∧
    fwd ≠ log_partition (transitions crf_steep_R) 2 0 1 [[0; -10000]] 1.
Proof.
  split; [exact crf_steep_R_ok|]. split; [shape_tac|]. split; [shape_tac|].
  eexists. split.
  { apply (forward_at_element crf_steep_R 1 1 2 0 1 unary_steep_R [1%Z] 0 1%Z
             [[0; -10000]]); [exact crf_steep_R_ok | shape_tac..]. }
  assert (Hfwd : -20000 <= forward1 (transitions crf_steep_R) 0 1
                             (take (Z.to_nat 1) [[0; -10000]])).
  { pose proof (forward_upper_bound R_lse_ge 2 (transitions crf_steep_R)
                  ltac:(shape_tac) 1 [[0; -10000]] ltac:(lia) ltac:(shape_tac)
                  (init_alpha 2 0) 1%nat [1%nat] ltac:(reflexivity) ltac:(lia)
                  ltac:(shape_tac)) as Hub.
    apply R_sleb_le in Hub. unfold forward1.
    change (take (Z.to_nat 1) [[0; -10000]]) with [[0; -10000]].
    change (length (transitions crf_steep_R)) with 2%nat.
    eapply Rle_trans; [|exact Hub]. cbn. lra. }
  assert (Hpart : log_partition (transitions crf_steep_R) 2 0 1 [[0; -10000]] 1
                  <= -29999).
  { unfold log_partition. cbn.
    replace (0 + 0 + 0 + -30000) with (-30000) by lra.
    replace (-10000 + -30000 + 0 + 0) with (-40000) by lra.
    assert (Hlt : exp (-40000) < exp (-30000)) by (apply exp_increasing; lra).
    pose proof (exp_pos (-40000)) as Hpos.
    eapply Rle_trans.
    - apply (ln_le_mono _ (2 * exp (-30000))); lra.
    - rewrite ln_mult, ln_exp by (lra || apply exp_pos).
      pose proof ln_2_le_1. lra. }
  split; [done|]. split; [done|]. lra.
Qed.
End real_inputs.

(** * The claim about construction *)

Section construction.
Context {V : Type} `{Score V} `{LogSumExp V}.

Lemma py_index_None (n : nat) (i : Z) :
  ¬ (- Z.of_nat n ≤ i < Z.of_nat n)%Z → py_index n i = None.
Proof.
  intros Hi. unfold py_index. by rewrite !bool_decide_eq_false_2 by lia.
Qed.

Lemma py_get_None {A : Type} (t : list A) (n : nat) (i : Z) :
  length t ≤ n → ¬ (- Z.of_nat n ≤ i < Z.of_nat n)%Z → py_get t i = None.
Proof. intros Ht Hi. unfold py_get. rewrite py_index_None; [done | lia]. Qed.

Lemma transitions_length (self : CRF V) :
  length (transitions self) ≤ length (transitions_p self).
Proof.
  unfold transitions. destruct (mask self); [|done]. rewrite length_zip_with. lia.
Qed.

(** C7 (amended).  Construction validates nothing: for every [n_tags >= 0]
    (0 and 1 included) and every pair of START and END indices it succeeds
    and stores them as given.  A START or END index outside
    [-n_tags, n_tags) is rejected only later: [forward] raises on it, and so
    does [decode] on emissions over [n_tags] tags. *)
Theorem init_validates_nothing (n : Z) (idxs : Z * Z) (bf : bool)
    (m : option (list (list bool))) :
  (0 ≤ n)%Z →
  ∃ self,
    CRF_init n idxs bf m = Some self ∧
    n_tags self = n ∧ start_idx self = idxs.1 ∧ end_idx self = idxs.2 ∧
    (bad_index n idxs.1 ∨ bad_index n idxs.2 →
     (∀ unary lengths batch_size, forward self unary lengths batch_size = None) ∧
     (∀ T B unary lengths,
        shape3 T B (Z.to_nat n) (time_major self unary) → 0 < B →
        decode self unary lengths = None)).
Proof.
  intros Hn. unfold CRF_init. rewrite bool_decide_eq_false_2 by lia.
  eexists. split; [reflexivity|]. cbn [n_tags start_idx end_idx].
  do 3 (split; [done|]). intros Hbad. split.
  - intros unary lengths batch_size. unfold forward. cbn [n_tags start_idx end_idx].
    destruct (torch_min lengths) as [min_length|]; [|done]. cbn [mbind option_bind].
    rewrite bool_decide_eq_false_2 by lia.
    destruct (init_alphas _ _ _) as [alphas|] eqn:Hinit; [|done]. cbn [mbind option_bind].
    destruct Hbad as [Hbad | Hbad].
    + unfold init_alphas in Hinit. rewrite py_index_None in Hinit; [done|].
      unfold bad_index in Hbad. rewrite Z2Nat.id by lia. done.
    + rewrite (py_get_None _ (Z.to_nat n)); [done | |].
      * etransitivity; [apply transitions_length|]. cbn. by rewrite length_replicate.
      * unfold bad_index in Hbad. rewrite Z2Nat.id by lia. done.
  - intros T B unary lengths [HT Hun] HB. unfold decode, viterbi.
    cbn [n_tags start_idx end_idx].
    destruct (time_major _ unary) as [|unary_0 rest] eqn:Htm; [done|].
    apply Forall_cons_1 in Hun as [[Hu0 Hu0r] _].
    assert (Hhd : length (hd [] unary_0) = Z.to_nat n).
    { destruct unary_0 as [|v ?]; [cbn in Hu0; lia|].
      by apply Forall_cons_1 in Hu0r as [? _]. }
    rewrite Hhd. destruct (torch_min lengths) as [min_length|]; [|done].
    cbn [mbind option_bind].
    destruct (init_alphas _ _ _) as [alphas|] eqn:Hinit; [|done]. cbn [mbind option_bind].
    destruct (viterbi_loop _ _ _ _ _ _ _) as [alphas' bps].
    destruct Hbad as [Hbad | Hbad].
    + unfold init_alphas in Hinit. rewrite py_index_None in Hinit; [done|].
      unfold bad_index in Hbad. rewrite Z2Nat.id by lia. done.
    + rewrite (py_get_None _ (Z.to_nat n)); [done | |].
      * etransitivity; [apply transitions_length|]. cbn. by rewrite length_replicate.
      * unfold bad_index in Hbad. rewrite Z2Nat.id by lia. done.
Qed.
End construction.

(** C7 as stated fails: a layer over a single tag, with START and END
    indices that are no tags, is constructed without error. *)
Lemma init_accepts_invalid_configuration :
  CRF_init (V := Z) 1 (5, -7)%Z true None
  = Some {| start_idx := 5; end_idx := -7; n_tags := 1; mask := None;
            transitions_p := [[0%Z]]; batch_first := true |}.
Proof. reflexivity. Qed.

Lemma init_validates_nothing_witness :
  ∃ self : CRF R,
    CRF_init 1 (5, -7)%Z true None = Some self ∧
    n_tags self = 1%Z ∧ start_idx self = 5%Z ∧ end_idx self = (-7)%Z ∧
    (bad_index 1 5 ∨ bad_index 1 (-7) →
     (∀ unary lengths batch_size, forward self unary lengths batch_size = None) ∧
     (∀ T B unary lengths,
        shape3 T B (Z.to_nat 1) (time_major self unary) → 0 < B →
        decode self unary lengths = None)).
Proof. apply (init_validates_nothing 1 (5, -7)%Z true None). lia. Defined.

(** * The theorems at concrete inputs *)

Lemma score_sentence_gold_path_witness :
  gold_score_at crf_chain unary_pair tags_pair [3; 1]%Z 2 0
  = Some (sum_scores
            (step_scores (transitions crf_chain) 0
               [[-10000; 5; 0; -10000]; [-10000; 0; 5; -10000]; [-10000; 3; 3; -10000]]%Z
               [1; 2; 2])
          ⊕ (transitions crf_chain !!! 3) !!! 2).
Proof.
  apply (score_sentence_gold_path crf_chain 3 2 4 0 3 unary_pair tags_pair [3; 1]%Z
           0 3%Z _ [1; 2; 2]%Z);
    [exact crf_chain_ok | shape_tac..].
Defined.

Section real_witnesses.
Local Open Scope R_scope.

Lemma crf_chain_R_ok : crf_ok crf_chain_R 4 0 3.
Proof. unfold crf_ok. cbn. shape_tac. Defined.

Lemma forward_log_partition_witness :
  forward_at crf_chain_R unary_pair_R [3; 1]%Z 2 1
  = Some (log_partition_init (transitions crf_chain_R) 4 0 3
            [[-10000; 0; 5; -10000]; [1; 2; 3; 4]; [4; 3; 2; 1]] (Z.to_nat 1)).
Proof.
  apply (forward_log_partition crf_chain_R 3 2 4 0 3 unary_pair_R [3; 1]%Z 1 1%Z);
    [exact crf_chain_R_ok | shape_tac..].
Defined.

Lemma neg_log_loss_nonneg_witness :
  ∃ fwd gold,
    forward_at crf_chain_R (time_major crf_chain_R unary_pair_R) [3; 1]%Z 2 0
    = Some fwd ∧
    gold_score_at crf_chain_R (time_major crf_chain_R unary_pair_R)
      (time_major crf_chain_R tags_pair) [3; 1]%Z 2 0 = Some gold ∧
    loss_at crf_chain_R unary_pair_R tags_pair [3; 1]%Z 0 = Some (fwd - gold) ∧
    gold <= fwd ∧ 0 <= fwd - gold.
Proof.
  apply (neg_log_loss_nonneg crf_chain_R 3 2 4 0 3 unary_pair_R tags_pair [3; 1]%Z 0 3%Z);
    [exact crf_chain_R_ok | shape_tac..].
Defined.

Lemma padding_and_batch_independence_witness :
  is_Some (decode_at crf_chain_R unary_pair_R [3; 1]%Z 1) ∧
  decode_at crf_chain_R unary_pair_R [3; 1]%Z 1
  = decode_at crf_chain_R unary_alone_R [1%Z] 0 ∧
  is_Some (forward_at crf_chain_R (time_major crf_chain_R unary_pair_R) [3; 1]%Z 2 1) ∧
  forward_at crf_chain_R (time_major crf_chain_R unary_pair_R) [3; 1]%Z 2 1
  = forward_at crf_chain_R (time_major crf_chain_R unary_alone_R) [1%Z] 1 0.
Proof.
  apply (padding_and_batch_independence crf_chain_R 3 2 1 1 4 0 3
           unary_pair_R unary_alone_R [3; 1]%Z [1%Z] 1 0 1%Z
           [[-10000; 0; 5; -10000]; [1; 2; 3; 4]; [4; 3; 2; 1]]
           [[-10000; 0; 5; -10000]]);
    [exact crf_chain_R_ok | shape_tac..].
Defined.

Lemma gold_score_padding_independent_witness :
  is_Some (gold_score_at crf_chain_R (time_major crf_chain_R unary_pair_R)
             (time_major crf_chain_R tags_pair) [3; 1]%Z 2 1) ∧
  gold_score_at crf_chain_R (time_major crf_chain_R unary_pair_R)
    (time_major crf_chain_R tags_pair) [3; 1]%Z 2 1
  = gold_score_at crf_chain_R (time_major crf_chain_R unary_pair_R)
      (time_major crf_chain_R tags_pair') [3; 1]%Z 2 1 ∧
  is_Some (loss_at crf_chain_R unary_pair_R tags_pair [3; 1]%Z 1) ∧
  loss_at crf_chain_R unary_pair_R tags_pair [3; 1]%Z 1
  = loss_at crf_chain_R unary_pair_R tags_pair' [3; 1]%Z 1.
Proof.
  apply (gold_score_padding_independent crf_chain_R 3 2 4 0 3 unary_pair_R
           tags_pair tags_pair' [3; 1]%Z 1 1%Z [2; 0; 0]%Z [2; 3; 1]%Z);
    [exact crf_chain_R_ok | shape_tac..].
Defined.
End real_witnesses.

(** * The calls on the store: results and effects *)

Section store_runs.
Context {V : Type} `{Score V} `{LogSumExp V}.

Notation "x <- m ;; k" := (bind m (λ x, k))
  (at level 100, m at next level, right associativity).

Lemma scores_of_prefix (h h' : store V) (l : nat) :
  h `prefix_of` h' → l < length h → scores_of h' l = scores_of h l.
Proof.
  intros [k ->] Hl. unfold scores_of. by rewrite lookup_app_l.
Qed.

Lemma flags_of_prefix (h h' : store V) (l : nat) :
  h `prefix_of` h' → l < length h → flags_of h' l = flags_of h l.
Proof.
  intros [k ->] Hl. unfold flags_of. by rewrite lookup_app_l.
Qed.

Lemma scores_of_last (h : store V) (d : list (list V)) :
  scores_of (h ++ [Scores d]) (length h) = d.
Proof. unfold scores_of. rewrite lookup_app_r by lia. by rewrite Nat.sub_diag. Qed.

Lemma update_last (h : store V) (d : list (list V)) (f : list (list V) → list (list V)) :
  update (length h) f (h ++ [Scores d]) = (tt, h ++ [Scores (f d)]).
Proof.
  unfold update. rewrite scores_of_last. f_equal.
  rewrite insert_app_r_alt, Nat.sub_diag by lia. done.
Qed.

Lemma crf_of_prefix (self : CRF_obj) (h h' : store V) :
  obj_ok self h → h `prefix_of` h' → crf_of self h' = crf_of self h.
Proof.
  intros [Hp Hm] Hpre. unfold crf_of. f_equal.
  - destruct (o_mask self) as [ml|]; [cbn | done].
    by rewrite (flags_of_prefix h h') by auto.
  - by apply scores_of_prefix.
Qed.

Lemma obj_ok_prefix (self : CRF_obj) (h h' : store V) :
  obj_ok self h → h `prefix_of` h' → obj_ok self h'.
Proof.
  intros [Hp Hm] Hpre. apply prefix_length in Hpre. split; [lia|].
  intros ml Hml. specialize (Hm ml Hml). lia.
Qed.

Lemma bind_run {A B : Type} (m : M A) (f : A → M B) (h h' : store V) (a : A) :
  m h = (a, h') → bind m f h = f a h'.
Proof. intros Hm. unfold bind. by rewrite Hm. Qed.

(** The effective transitions: an object of the store, holding what the
    [transitions] property of the layer gives. *)
Lemma transitions_m_run (self : CRF_obj) (h : store V) :
  obj_ok self h →
  ∃ l k, transitions_m self h = (l, h ++ k) ∧ l < length (h ++ k) ∧
         scores_of (h ++ k) l = transitions (crf_of self h).
Proof.
  intros [Hp Hm]. unfold transitions_m, transitions, crf_of.
  cbn [mask transitions_p]. destruct (o_mask self) as [ml|]; cbn.
  - eexists _, [_]. split; [reflexivity|]. split; [rewrite length_app; cbn; lia|].
    apply scores_of_last.
  - exists (o_transitions_p self), []. rewrite app_nil_r. done.
Qed.

Lemma init_alphas_m_run (batch_size tag_size : nat) (start : Z) (h : store V) :
  ∃ r k, init_alphas_m batch_size tag_size start h = (r, h ++ k) ∧
    match r with
    | Some l => l < length (h ++ k) ∧ 
                init_alphas batch_size tag_size start = Some (scores_of (h ++ k) l)
    | None => init_alphas (V := V) batch_size tag_size start = None
    end.
Proof.
  unfold init_alphas_m, init_alphas.
  erewrite bind_run by reflexivity. erewrite bind_run by apply update_last.
  destruct (py_index tag_size start) as [k|]; cbn [mbind option_bind].
  - erewrite bind_run by apply update_last.
    eexists (Some _), [_]. split; [reflexivity|].
    split; [rewrite length_app; cbn; lia|].
    rewrite scores_of_last. f_equal. by rewrite !fmap_replicate.
  - eexists None, [_]. split; [reflexivity | done].
Qed.

Lemma select_alphas_m_run (lengths : list Z) (min_length : Z) (i : nat)
    (alphas new_alphas : nat) (h : store V) :
  alphas < length h → new_alphas < length h →
  ∃ l k, select_alphas_m lengths min_length i alphas new_alphas h = (l, h ++ k) ∧
    l < length (h ++ k) ∧
    scores_of (h ++ k) l
    = if bool_decide (min_length ≤ Z.of_nat i)%Z
      then blend_alphas (lt_lengths i lengths) (scores_of h alphas) (scores_of h new_alphas)
      else scores_of h new_alphas.
Proof.
  intros Ha Hn. unfold select_alphas_m. case_bool_decide.
  - do 2 (erewrite bind_run by reflexivity).
    eexists _, [_]. split; [reflexivity|]. split; [rewrite length_app; cbn; lia|].
    apply scores_of_last.
  - exists new_alphas, []. by rewrite app_nil_r.
Qed.

Lemma scores_of_app (h k : store V) (l : nat) :
  l < length h → scores_of (h ++ k) l = scores_of h l.
Proof. intros Hl. apply scores_of_prefix; [by apply prefix_app_r | done]. Qed.

Lemma forward_loop_m_run (trans : nat) (lengths : list Z) (min_length : Z)
    (unary : list (list (list V))) :
  ∀ (i alphas : nat) (h : store V),
    trans < length h → alphas < length h →
    ∃ l k, forward_loop_m trans lengths min_length i unary alphas h = (l, h ++ k) ∧
      l < length (h ++ k) ∧
      scores_of (h ++ k) l
      = forward_loop (scores_of h trans) lengths min_length i unary (scores_of h alphas).
Proof.
  induction unary as [|unary_t rest IH]; intros i alphas h Ht Ha.
  { exists alphas, []. by rewrite app_nil_r. }
  cbn [forward_loop_m forward_loop].
  do 3 (erewrite bind_run by reflexivity).
  set (new := forward_new_alphas (scores_of h trans) (scores_of h alphas) unary_t).
  set (h1 := h ++ [Scores new]).
  assert (Hl1 : length h1 = S (length h)) by (unfold h1; rewrite length_app; cbn; lia).
  destruct (select_alphas_m_run lengths min_length i alphas (length h) h1)
    as (l2 & k2 & Hsel & Hl2 & Hs2); [lia | lia |].
  erewrite bind_run by exact Hsel.
  destruct (IH (S i) l2 (h1 ++ k2)) as (l3 & k3 & Hloop & Hl3 & Hs3);
    [rewrite length_app; lia | done |].
  exists l3, ([Scores new] ++ k2 ++ k3).
  assert (Hh : h ++ [Scores new] ++ k2 ++ k3 = (h1 ++ k2) ++ k3)
    by (unfold h1; by rewrite <- !app_assoc).
  rewrite Hh. split; [done|]. split; [done|].
  rewrite Hs3, Hs2, (scores_of_app h1 k2 trans) by lia. unfold h1.
  rewrite scores_of_last, !scores_of_app by lia. done.
Qed.

Lemma obj_ok_app (self : CRF_obj) (h k : store V) :
  obj_ok self h → obj_ok self (h ++ k).
Proof. intros Hok. eapply obj_ok_prefix; [done | by apply prefix_app_r]. Qed.

Lemma crf_of_app (self : CRF_obj) (h k : store V) :
  obj_ok self h → crf_of self (h ++ k) = crf_of self h.
Proof. intros Hok. apply crf_of_prefix; [done | by apply prefix_app_r]. Qed.

(** [forward] on the store returns what [forward] returns on the layer the
    store holds, and only adds objects to the store. *)
Lemma forward_m_run (self : CRF_obj) (unary : list (list (list V)))
    (lengths : list Z) (batch_size : nat) (h : store V) :
  obj_ok self h →
  ∃ k, forward_m self unary lengths batch_size h
       = (forward (crf_of self h) unary lengths batch_size, h ++ k).
Proof.
  intros Hok. unfold forward_m, forward. cbn [n_tags start_idx end_idx crf_of].
  destruct (torch_min lengths) as [min_length|]; cbn [mbind option_bind];
    [|by exists []; rewrite app_nil_r].
  case_bool_decide; [by exists []; rewrite app_nil_r|].
  destruct (init_alphas_m_run batch_size (Z.to_nat (o_n_tags self)) (o_start_idx self) h)
    as (r & k1 & Hinit & Hr).
  erewrite bind_run by exact Hinit.
  destruct r as [alphas|]; [destruct Hr as [Hal Hr] | ]; rewrite Hr;
    cbn [mbind option_bind]; [|by exists k1].
  destruct (transitions_m_run self (h ++ k1) (obj_ok_app _ _ _ Hok))
    as (trans & k2 & Htr & Htl & Hts).
  erewrite bind_run by exact Htr.
  destruct (forward_loop_m_run trans lengths min_length unary 0 alphas ((h ++ k1) ++ k2))
    as (l3 & k3 & Hloop & Hl3 & Hs3); [done | rewrite length_app; lia |].
  erewrite bind_run by exact Hloop.
  do 2 (erewrite bind_run by reflexivity).
  exists (k1 ++ k2 ++ k3). unfold ret. rewrite <- !app_assoc. f_equal.
  rewrite !app_assoc, Hs3, (scores_of_app _ k3 trans), Hts by done.
  rewrite (scores_of_app _ k2 alphas), crf_of_app by done.
  fold (crf_of self h). done.
Qed.

Lemma score_sentence_m_run (self : CRF_obj) (unary : list (list (list V)))
    (tags : list (list Z)) (lengths : list Z) (batch_size : nat) (h : store V) :
  obj_ok self h →
  ∃ k, score_sentence_m self unary tags lengths batch_size h
       = (score_sentence (crf_of self h) unary tags lengths batch_size, h ++ k).
Proof.
  intros Hok. unfold score_sentence_m, score_sentence.
  destruct (transitions_m_run self h Hok) as (trans & k & Htr & Htl & Hts).
  erewrite bind_run by exact Htr. erewrite bind_run by reflexivity.
  exists k. unfold ret. by rewrite Hts.
Qed.

Lemma neg_log_loss_m_run (self : CRF_obj) (unary : list (list (list V)))
    (tags : list (list Z)) (lengths : list Z) (h : store V) :
  obj_ok self h →
  ∃ k, neg_log_loss_m self unary tags lengths h
       = (neg_log_loss (crf_of self h) unary tags lengths, h ++ k).
Proof.
  intros Hok. unfold neg_log_loss_m, neg_log_loss, time_major.
  cbn [batch_first crf_of]. fold (crf_of self h).
  set (unary' := if o_batch_first self then transpose01 unary else unary).
  set (tags' := if o_batch_first self then transpose01 tags else tags).
  destruct (forward_m_run self unary' lengths (length (hd [] unary')) h Hok)
    as (k1 & Hf).
  erewrite bind_run by exact Hf.
  destruct (score_sentence_m_run self unary' tags' lengths (length (hd [] unary'))
              (h ++ k1) (obj_ok_app _ _ _ Hok)) as (k2 & Hg).
  erewrite bind_run by exact Hg.
  exists (k1 ++ k2). unfold ret. rewrite app_assoc, crf_of_app by done. done.
Qed.

Lemma viterbi_loop_m_run (trans : nat) (lengths : list Z) (min_length : Z)
    (unary : list (list (list V))) :
  ∀ (i alphas : nat) (bps : list (list (list nat))) (h : store V),
    trans < length h → alphas < length h →
    ∃ l bps' k,
      viterbi_loop_m trans lengths min_length i unary alphas bps h
      = ((l, bps'), h ++ k) ∧
      l < length (h ++ k) ∧
      (scores_of (h ++ k) l, bps')
      = viterbi_loop (scores_of h trans) lengths min_length i unary
          (scores_of h alphas) bps.
Proof.
  induction unary as [|unary_t rest IH]; intros i alphas bps h Ht Ha.
  { exists alphas, bps, []. by rewrite app_nil_r. }
  cbn [viterbi_loop_m viterbi_loop].
  do 3 (erewrite bind_run by reflexivity).
  set (step := viterbi_step (scores_of h trans) (scores_of h alphas) unary_t).
  erewrite bind_run by apply update_last.
  set (h1 := h ++ [Scores step.1]).
  assert (Hl1 : length h1 = S (length h)) by (unfold h1; rewrite length_app; cbn; lia).
  destruct (select_alphas_m_run lengths min_length i alphas (length h) h1)
    as (l2 & k2 & Hsel & Hl2 & Hs2); [lia | lia |].
  erewrite bind_run by exact Hsel.
  destruct (IH (S i) l2 (bps ++ [step.2]) (h1 ++ k2))
    as (l3 & bps' & k3 & Hloop & Hl3 & Hs3); [rewrite length_app; lia | done |].
  exists l3, bps', ([Scores step.1] ++ k2 ++ k3).
  assert (Hh : h ++ [Scores step.1] ++ k2 ++ k3 = (h1 ++ k2) ++ k3)
    by (unfold h1; by rewrite <- !app_assoc).
  rewrite Hh. split; [done|]. split; [done|].
  rewrite Hs3, Hs2, (scores_of_app h1 k2 trans) by lia. unfold h1.
  rewrite scores_of_last, !scores_of_app by lia. fold step.
  by destruct step.
Qed.

Lemma viterbi_m_run (unary : list (list (list V))) (trans : nat)
    (lengths : list Z) (start_idx end_idx : Z) (h : store V) :
  trans < length h →
  ∃ k, viterbi_m unary trans lengths start_idx end_idx h
       = (viterbi unary (scores_of h trans) lengths start_idx end_idx, h ++ k).
Proof.
  intros Ht. unfold viterbi_m, viterbi.
  destruct unary as [|unary_0 rest]; [by exists []; rewrite app_nil_r|].
  set (unary := unary_0 :: rest).
  destruct (torch_min lengths) as [min_length|]; cbn [mbind option_bind];
    [|by exists []; rewrite app_nil_r].
  destruct (init_alphas_m_run (length unary_0) (length (hd [] unary_0)) start_idx h)
    as (r & k1 & Hinit & Hr).
  erewrite bind_run by exact Hinit.
  destruct r as [alphas|]; [destruct Hr as [Hal Hr] | ]; rewrite Hr;
    cbn [mbind option_bind]; [|by exists k1].
  destruct (viterbi_loop_m_run trans lengths min_length unary 0 alphas [] (h ++ k1))
    as (l3 & bps' & k3 & Hloop & Hl3 & Hs3); [rewrite length_app; lia | done |].
  erewrite bind_run by exact Hloop.
  do 2 (erewrite bind_run by reflexivity).
  exists (k1 ++ k3). unfold ret. rewrite app_assoc. f_equal.
  rewrite (scores_of_app h k1 trans) in Hs3 by done. rewrite <- Hs3.
  cbn [fst snd].
  rewrite (scores_of_app (h ++ k1) k3 trans) by (rewrite length_app; lia).
  by rewrite (scores_of_app h k1 trans).
Qed.

Lemma decode_m_run (self : CRF_obj) (unary : list (list (list V)))
    (lengths : list Z) (h : store V) :
  obj_ok self h →
  ∃ k, decode_m self unary lengths h = (decode (crf_of self h) unary lengths, h ++ k).
Proof.
  intros Hok. unfold decode_m, decode, time_major.
  cbn [batch_first start_idx end_idx crf_of]. fold (crf_of self h).
  set (unary' := if o_batch_first self then transpose01 unary else unary).
  destruct (transitions_m_run self h Hok) as (trans & k1 & Htr & Htl & Hts).
  erewrite bind_run by exact Htr.
  destruct (viterbi_m_run unary' trans lengths (o_start_idx self) (o_end_idx self)
              (h ++ k1) Htl) as (k2 & Hv).
  exists (k1 ++ k2). by rewrite Hv, Hts, app_assoc.
Qed.

Lemma left_unchanged_app (self : CRF_obj) (h k : store V) :
  obj_ok self h → left_unchanged self h (h ++ k).
Proof.
  intros Hok. pose proof Hok as [Hp Hm]. split; [by apply prefix_app_r|].
  split; [by apply lookup_app_l|]. split; [|by apply crf_of_app].
  intros ml Hml. apply lookup_app_l. by apply Hm.
Qed.

(** C9.  The scoring and decoding operations ([forward], [score_sentence],
    [neg_log_loss], [decode]) and the effective-transitions accessor leave
    the stored transition parameter and the validity mask unchanged: after
    any such call both objects hold their values from before the call (the
    calls only add objects to the store, and their in-place operations fall
    on objects they created). *)
Theorem calls_leave_parameter_and_mask (self : CRF_obj) (h : store V)
    (unary : list (list (list V))) (tags : list (list Z)) (lengths : list Z)
    (batch_size : nat) :
  obj_ok self h →
  left_unchanged self h (forward_m self unary lengths batch_size h).2 ∧
  left_unchanged self h (score_sentence_m self unary tags lengths batch_size h).2 ∧
  left_unchanged self h (neg_log_loss_m self unary tags lengths h).2 ∧
  left_unchanged self h (decode_m self unary lengths h).2 ∧
  left_unchanged self h (transitions_m self h).2.
Proof.
  intros Hok.
  destruct (forward_m_run self unary lengths batch_size h Hok) as [k1 ->].
  destruct (score_sentence_m_run self unary tags lengths batch_size h Hok) as [k2 ->].
  destruct (neg_log_loss_m_run self unary tags lengths h Hok) as [k3 ->].
  destruct (decode_m_run self unary lengths h Hok) as [k4 ->].
  destruct (transitions_m_run self h Hok) as (l & k5 & -> & _).
  cbn [snd]. split; [|split; [|split; [|split]]]; by apply left_unchanged_app.
Qed.
End store_runs.

Lemma obj_chain_ok : obj_ok obj_chain store_chain.
Proof. split; [cbn; lia | intros ml [= <-]; cbn; lia]. Defined.

Lemma calls_leave_parameter_and_mask_witness :
  left_unchanged obj_chain store_chain
    (forward_m obj_chain unary_pair_R [3; 1]%Z 2 store_chain).2 ∧
  left_unchanged obj_chain store_chain
    (score_sentence_m obj_chain unary_pair_R tags_pair [3; 1]%Z 2 store_chain).2 ∧
  left_unchanged obj_chain store_chain
    (neg_log_loss_m obj_chain unary_pair_R tags_pair [3; 1]%Z store_chain).2 ∧
  left_unchanged obj_chain store_chain
    (decode_m obj_chain unary_pair_R [3; 1]%Z store_chain).2 ∧
  left_unchanged obj_chain store_chain (transitions_m obj_chain store_chain).2.
Proof.
  apply (calls_leave_parameter_and_mask obj_chain store_chain unary_pair_R tags_pair
           [3; 1]%Z 2 obj_chain_ok).
Defined.

(** * Further properties *)

Section norm_elements.
Context {V : Type} `{ScoreLaws V} `{LogSoftmax V}.
#[local] Existing Instance score_inhabited.

Lemma viterbi_norm_false (unary : list (list (list V))) (trans : list (list V))
    (lengths : list Z) (start_idx end_idx : Z) :
  viterbi_norm unary trans lengths start_idx end_idx false
  = viterbi unary trans lengths start_idx end_idx.
Proof. reflexivity. Qed.

Lemma init_alphas_index (B N : nat) (start : Z) (st : nat) :
  py_index N start = Some st →
  init_alphas B N start = Some (replicate B (init_alpha N st : list V)).
Proof. intros Hst. unfold init_alphas. by rewrite Hst. Qed.

Lemma py_index_lt (n : nat) (i : Z) (k : nat) : py_index n i = Some k → k < n.
Proof.
  unfold py_index. repeat case_bool_decide; intros [= <-]; lia.
Qed.

(** The walk of the code on an element whose length is the padded width
    or more: no padding to hold through. *)
Lemma decoded_path_full (r : Z) (vb : list (list nat)) (k0 : nat) :
  (r < 0)%Z →
  reverse (pop (k0 :: backtrack1 r 0 (reverse vb) k0))
  = reverse (pop (k0 :: walk_back (reverse vb) k0)).
Proof. intros Hr. by rewrite backtrack1_walk by lia. Qed.

(** What [viterbi] returns for a batch, element by element, for either
    value of [norm], any START and END index that Python accepts and any
    nonnegative lengths. *)
Lemma viterbi_norm_elements (norm : bool) (T B N st en : nat) (start_ end_ : Z)
    (unary : list (list (list V))) (trans : list (list V)) (lengths : list Z)
    (a0 : list V) :
  shape3 T B N unary → shape2 N N trans → length lengths = B →
  0 < T → 0 < B → py_index N start_ = Some st → py_index N end_ = Some en →
  a0 = (if norm then log_softmax (init_alpha N st) else init_alpha N st) →
  length a0 = N →
  ∃ paths scores,
    viterbi_norm unary trans lengths start_ end_ norm = Some (paths, scores) ∧
    length paths = B ∧ length scores = B ∧
    ∀ b l us, lengths !! b = Some l → (0 ≤ l)%Z → is_col b unary us →
      paths !! b = Some (viterbi1_from trans (trans !!! en) a0 (take (Z.to_nat l) us)).1 ∧
      scores !! b = Some (viterbi1_from trans (trans !!! en) a0 (take (Z.to_nat l) us)).2.
Proof.
  intros [HT Hun] Htr Hll HT1 HB Hst Hen Ha0 Ha0l.
  pose proof Htr as [Htl Htrows].
  pose proof (py_index_lt _ _ _ Hst) as Hstlt.
  pose proof (py_index_lt _ _ _ Hen) as Henlt.
  destruct (torch_min_is_Some lengths) as [m Hm]; [lia|].
  destruct unary as [|unary_0 rest]; [cbn in HT; lia|].
  unfold viterbi_norm. cbv beta iota.
  assert (Hu0 : shape2 B N unary_0) by (by apply Forall_cons_1 in Hun as [? _]).
  remember (unary_0 :: rest) as unary eqn:Hunary.
  rewrite Hm. cbn [mbind option_bind].
  destruct Hu0 as [Hu0l Hu0r]. rewrite Hu0l.
  assert (Hhd : length (hd [] unary_0) = N).
  { destruct unary_0 as [|v ?]; [cbn in Hu0l; lia|].
    by apply Forall_cons_1 in Hu0r as [? _]. }
  rewrite Hhd, (init_alphas_index _ _ _ st) by done. cbn [mbind option_bind].
  assert (Hinit : (if norm then log_softmax <$> replicate B (init_alpha N st : list V)
                   else replicate B (init_alpha N st)) = replicate B a0).
  { rewrite Ha0. destruct norm; [by rewrite fmap_replicate | done]. }
  rewrite Hinit. clear Hinit.
  assert (Hal0 : shape2 B N (replicate B a0)).
  { split; [by rewrite length_replicate|]. by apply Forall_replicate. }
  pose proof (viterbi_loop_shape B N trans lengths m unary ltac:(lia) Htr Hll Hun 0
                _ [] Hal0 (Forall_nil_2 _)) as [Hal Hbps].
  pose proof (viterbi_loop_bps_length trans lengths m unary 0 (replicate B a0) []) as Hbl.
  assert (Hcols : ∀ b l us, lengths !! b = Some l → is_col b unary us →
    (viterbi_loop trans lengths m 0 unary (replicate B a0) []).1 !! b
    = Some (viterbi_loop1 trans l 0 us a0 []).1 ∧
    is_col b (viterbi_loop trans lengths m 0 unary (replicate B a0) []).2
             (viterbi_loop1 trans l 0 us a0 []).2).
  { intros b l us Hl Hc.
    apply (viterbi_loop_lookup trans lengths m l b N); try done.
    - apply Forall_lookup. intros t u Hu.
      destruct (Forall2_lookup_r _ _ _ _ _ Hc Hu) as (row & Hrow & Hru).
      rewrite Forall_lookup in Hun. destruct (Hun _ _ Hrow) as [_ Hrr].
      rewrite Forall_lookup in Hrr. by apply (Hrr b).
    - apply lookup_replicate_2. apply lookup_lt_Some in Hl. lia.
    - constructor. }
  destruct (viterbi_loop trans lengths m 0 unary (replicate B a0) [])
    as [alphas bps]. cbn [fst snd] in *.
  destruct (lookup_lt_is_Some_2 trans en) as [trans_end Hte]; [lia|].
  assert (Hget : py_get trans end_ = Some trans_end).
  { unfold py_get. rewrite Htl, Hen. done. }
  rewrite Hget. cbn [mbind option_bind].
  assert (Htel : length trans_end = N).
  { rewrite Forall_lookup in Htrows. by apply (Htrows en). }
  set (terminal_var := (λ alpha, torch_max (zip_with sadd alpha trans_end)) <$> alphas).
  set (rev_len := (λ l, Z.of_nat (length unary) - l - 1)%Z <$> lengths).
  destruct Hal as [Hall Halr].
  assert (Hk0 : Forall (λ k, k < N) (snd <$> terminal_var)).
  { unfold terminal_var. rewrite <- list_fmap_compose. apply Forall_fmap.
    eapply List.Forall_impl; [|exact Halr]. intros a Ha. cbn in *.
    assert (Hz : length (zip_with sadd a trans_end) = N)
      by (rewrite length_zip_with; lia).
    rewrite <- Hz. apply torch_max_lt. intros Hnil. rewrite Hnil in Hz. cbn in Hz. lia. }
  destruct (backtrack_cols rev_len B N ltac:(unfold rev_len; by rewrite length_fmap)
              (reverse bps) 0 (snd <$> terminal_var) [snd <$> terminal_var])
    as (rows & Hrows & Hrsh & Hrl & Hrcols).
  { by apply Forall_reverse. }
  { unfold terminal_var. by rewrite !length_fmap. }
  { done. }
  rewrite Hrows. cbn [mbind option_bind].
  eexists _, _. split; [reflexivity|].
  set (X := [terminal_var.*2] ++ rows).
  assert (HXl : length X = S T).
  { unfold X. cbn [app length]. rewrite Hrl, length_reverse, Hbl. cbn. lia. }
  assert (HXr : Forall (λ row, length row = B) X).
  { unfold X. cbn. constructor.
    - unfold terminal_var. by rewrite !length_fmap.
    - eapply List.Forall_impl; [|exact Hrsh]. by intros row [? _]. }
  assert (HPr : Forall (λ row, length row = B) (reverse (pop X))).
  { apply Forall_reverse. unfold pop. by apply Forall_take. }
  assert (HPn : reverse (pop X) ≠ []).
  { intros Hnil. apply (f_equal length) in Hnil. unfold pop in Hnil.
    rewrite length_reverse, length_take, HXl in Hnil. cbn in Hnil. lia. }
  split; [|split].
  - rewrite length_zip_with, (transpose01_length B) by done. lia.
  - unfold terminal_var. by rewrite !length_fmap.
  - intros b l us Hl Hlr Hc. destruct (Hcols b l us Hl Hc) as [Hab Hbc].
    pose proof (lookup_lt_Some _ _ _ Hl) as Hb.
    pose proof (is_col_length _ _ _ Hc) as Hus.
    rewrite viterbi_loop1_take in Hab, Hbc. cbv zeta in Hab, Hbc.
    rewrite Nat.sub_0_r in Hab, Hbc. cbn [fst snd app] in Hab, Hbc.
    set (us' := take (Z.to_nat l) us) in *.
    set (a' := viterbi_run trans a0 us') in *.
    set (vb := viterbi_bps trans a0 us') in *.
    set (pad := replicate (length us - Z.to_nat l) (back_ptr trans a')) in *.
    set (k0 := (torch_max (zip_with sadd a' trans_end)).2).
    assert (Hk0b : terminal_var.*2 !! b = Some k0).
    { unfold terminal_var. by rewrite !list_lookup_fmap, Hab. }
    assert (Hvbl : length vb = Z.to_nat l `min` T).
    { unfold vb, us'. rewrite viterbi_bps_length, length_take. lia. }
    set (r := (Z.of_nat (length unary) - l - 1)%Z).
    assert (Hr : rev_len !! b = Some r).
    { unfold rev_len. by rewrite list_lookup_fmap, Hl. }
    pose proof (Hrcols b r k0 (reverse (vb ++ pad)) Hr Hk0b
                  (is_col_reverse _ _ _ Hbc)) as Hrc.
    assert (HXc : is_col b X (k0 :: backtrack1 r 0 (reverse (vb ++ pad)) k0)).
    { unfold X. cbn. by constructor. }
    assert (HPc : is_col b (reverse (pop X))
                    (reverse (pop (k0 :: backtrack1 r 0 (reverse (vb ++ pad)) k0)))).
    { apply is_col_reverse. unfold pop. rewrite (is_col_length _ _ _ HXc).
      by apply is_col_take. }
    unfold viterbi1_from. cbn [fst snd].
    rewrite (list_lookup_total_correct _ _ _ Hte). fold us' a'. split.
    + rewrite lookup_zip_with, (transpose01_lookup b B _ _ HPn HPr HPc) by lia.
      rewrite Hl. cbn [mbind option_bind]. f_equal. unfold py_slice_to.
      rewrite bool_decide_eq_true_2 by lia.
      destruct (decide (Z.to_nat l ≤ T)) as [HlT | HlT].
      * replace (Z.to_nat l) with (length vb) at 1 by lia.
        rewrite decoded_path_take.
        -- apply decoded_path_unpadded.
        -- unfold pad, r. rewrite length_replicate, HT. lia.
      * assert (Hpad : pad = []).
        { unfold pad. replace (length us - Z.to_nat l) with 0 by lia. done. }
        rewrite Hpad, app_nil_r, decoded_path_full by (unfold r; lia).
        rewrite take_ge.
        -- apply decoded_path_unpadded.
        -- rewrite length_reverse. unfold pop. rewrite length_take. cbn [length].
           rewrite walk_back_length, length_reverse. lia.
    + unfold terminal_var. by rewrite !list_lookup_fmap, Hab.
Qed.
End norm_elements.

(** * Lengths at and beyond the edges *)

Section any_length.
Context {V : Type} `{ScoreLaws V}.
#[local] Existing Instance score_inhabited.

(** [viterbi] element by element, for nonnegative lengths. *)
Lemma viterbi_elements_nonneg (T B N st en : nat) (unary : list (list (list V)))
    (trans : list (list V)) (lengths : list Z) :
  shape3 T B N unary → shape2 N N trans → length lengths = B →
  0 < T → 0 < B → st < N → en < N →
  ∃ paths scores,
    viterbi unary trans lengths (Z.of_nat st) (Z.of_nat en) = Some (paths, scores) ∧
    length paths = B ∧ length scores = B ∧
    ∀ b l us, lengths !! b = Some l → (0 ≤ l)%Z → is_col b unary us →
      paths !! b = Some (viterbi1 trans st en (take (Z.to_nat l) us)).1 ∧
      scores !! b = Some (viterbi1 trans st en (take (Z.to_nat l) us)).2.
Proof.
  intros Hun Htr Hll HT HB Hst Hen. pose proof Htr as [Htl _].
  destruct (viterbi_norm_elements (H1 := λ v, v) false T B N st en
              (Z.of_nat st) (Z.of_nat en) unary trans lengths (init_alpha N st))
    as (paths & scores & Hv & Hpl & Hsl & Hel); try done.
  - by apply py_index_nat.
  - by apply py_index_nat.
  - apply init_alpha_length.
  - exists paths, scores. split; [exact Hv|]. split; [done|]. split; [done|].
    intros b l us Hl Hl0 Hc. unfold viterbi1. rewrite Htl. by apply Hel.
Qed.

Lemma take_clamp {A : Type} (T : nat) (l : Z) (us : list A) :
  length us = T → take (Z.to_nat (l `min` Z.of_nat T)) us = take (Z.to_nat l) us.
Proof.
  intros Hus. destruct (decide (l ≤ Z.of_nat T)%Z).
  - by rewrite Z.min_l by lia.
  - rewrite Z.min_r, Nat2Z.id by lia. by rewrite !take_ge by lia.
Qed.

Lemma take_clamp_0 {A : Type} (l : Z) (us : list A) :
  take (Z.to_nat (0 `max` l)) us = take (Z.to_nat l) us.
Proof. f_equal. lia. Qed.

Lemma shape3_cols {A : Type} (T B N : nat) (t : list (list (list A))) (b : nat) :
  shape3 T B N t → b < B → ∃ us, is_col b t us ∧ length us = T.
Proof.
  intros Ht Hb. assert (Hex : ∃ us, is_col b t us).
  { apply (is_col_exists b B); [|done]. destruct Ht as [_ Ht].
    eapply List.Forall_impl; [|exact Ht]. by intros row [? _]. }
  destruct Hex as [us Hus]. exists us. split; [done|].
  destruct Ht as [<- _]. by apply (is_col_length b).
Qed.

Lemma list_eq_lookup_lt {A : Type} (n : nat) (l k : list A) :
  length l = n → length k = n → (∀ i, i < n → l !! i = k !! i) → l = k.
Proof.
  intros Hl Hk Hi. apply list_eq. intros i. destruct (decide (i < n)); [by apply Hi|].
  by rewrite !lookup_ge_None_2 by lia.
Qed.

(** X1.  [decode] and [forward] accept lengths beyond the padded width and
    treat them as the padded width itself: the results are those for the
    lengths cut at T, one path per batch element, of [min(length, T)]
    tags. *)
Theorem lengths_beyond_width_are_clamped `{LogSumExp V} (self : CRF V)
    (T B N st en : nat) (unary : list (list (list V))) (lengths : list Z) :
  crf_ok self N st en → shape3 T B N (time_major self unary) →
  length lengths = B → 0 < T → 0 < B → Forall (λ l, 0 ≤ l)%Z lengths →
  let clamped := (λ l, l `min` Z.of_nat T)%Z <$> lengths in
  (∃ paths scores,
     decode self unary lengths = Some (paths, scores) ∧
     decode self unary clamped = Some (paths, scores) ∧
     length paths = B ∧
     ∀ b l path, lengths !! b = Some l → paths !! b = Some path →
       Z.of_nat (length path) = (l `min` Z.of_nat T)%Z) ∧
  (∃ fwd,
     forward self (time_major self unary) lengths B = Some fwd ∧
     forward self (time_major self unary) clamped B = Some fwd).
Proof.
  intros (Hn & Hs & He & Hst & Hen & Htr) Hun Hll HT HB Hl0 clamped.
  assert (Hcl : length clamped = B) by (unfold clamped; by rewrite length_fmap).
  destruct (viterbi_elements_nonneg T B N st en _ (transitions self) lengths
              Hun Htr Hll HT HB Hst Hen) as (paths & scores & Hv & Hpl & Hsl & Hel).
  destruct (viterbi_elements_nonneg T B N st en _ (transitions self) clamped
              Hun Htr Hcl HT HB Hst Hen) as (paths' & scores' & Hv' & Hpl' & Hsl' & Hel').
  destruct (forward_elements self T B N st en _ lengths Hn Hs He Hst Hen Htr
              Hun Hll HB) as (fwd & Hf & Hfl & Hfel).
  destruct (forward_elements self T B N st en _ clamped Hn Hs He Hst Hen Htr
              Hun Hcl HB) as (fwd' & Hf' & Hfl' & Hfel').
  assert (Hb : ∀ b, b < B → ∃ l us, lengths !! b = Some l ∧ (0 ≤ l)%Z ∧
            clamped !! b = Some (l `min` Z.of_nat T)%Z ∧
            is_col b (time_major self unary) us ∧ length us = T ∧
            Forall (λ u, length u = N) us).
  { intros b Hb. destruct (lookup_lt_is_Some_2 lengths b) as [l Hl]; [lia|].
    destruct (shape3_cols T B N _ b Hun Hb) as (us & Hus & HusT).
    destruct (shape3_col T B N _ b us Hun Hus) as [_ HusN].
    exists l, us. rewrite Forall_lookup in Hl0. repeat split; eauto.
    unfold clamped. by rewrite list_lookup_fmap, Hl. }
  unfold decode. rewrite Hs, He, Hv, Hv', Hf, Hf'. split.
  - exists paths, scores. split; [done|]. split; [|split; [done|]].
    + do 2 f_equal.
      * apply (list_eq_lookup_lt B); try done. intros b Hlt.
        destruct (Hb b Hlt) as (l & us & Hl & Hl0' & Hc & Hus & HusT & _).
        destruct (Hel b l us Hl Hl0' Hus) as [-> _].
        destruct (Hel' b _ us Hc ltac:(lia) Hus) as [-> _].
        by rewrite (take_clamp T).
      * apply (list_eq_lookup_lt B); try done. intros b Hlt.
        destruct (Hb b Hlt) as (l & us & Hl & Hl0' & Hc & Hus & HusT & _).
        destruct (Hel b l us Hl Hl0' Hus) as [_ ->].
        destruct (Hel' b _ us Hc ltac:(lia) Hus) as [_ ->].
        by rewrite (take_clamp T).
    + intros b l path Hl Hpath.
      pose proof (lookup_lt_Some _ _ _ Hl) as Hlt. rewrite Hll in Hlt.
      destruct (Hb b Hlt) as (l' & us & Hl' & Hl0' & Hc & Hus & HusT & HusN).
      assert (l' = l) as -> by congruence.
      destruct (Hel b l us Hl Hl0' Hus) as [Hp _].
      assert (path = (viterbi1 (transitions self) st en (take (Z.to_nat l) us)).1)
        as -> by congruence.
      destruct (viterbi1_valid_path N st en (transitions self) (take (Z.to_nat l) us))
        as [Hlen _]; try done; [by apply Forall_take|].
      rewrite Hlen, length_take. lia.
  - exists fwd. split; [done|]. f_equal. symmetry.
    apply (list_eq_lookup_lt B); try done. intros b Hlt.
    destruct (Hb b Hlt) as (l & us & Hl & Hl0' & Hc & Hus & HusT & _).
    rewrite (Hfel b l us Hl Hus), (Hfel' b _ us Hc Hus).
    by rewrite (take_clamp T).
Qed.
End any_length.

Section nonneg_lengths.
Context {V : Type} `{ScoreLaws V}.
#[local] Existing Instance score_inhabited.

(** [decode] for a batch element of any nonnegative length. *)
Lemma decode_at_nonneg (self : CRF V) (T B N st en : nat)
    (unary : list (list (list V))) (lengths : list Z) (b : nat) (l : Z)
    (us : list (list V)) :
  crf_ok self N st en → shape3 T B N (time_major self unary) →
  length lengths = B → 0 < T → lengths !! b = Some l → (0 ≤ l)%Z →
  emissions_of self unary b us →
  decode_at self unary lengths b
  = Some (viterbi1 (transitions self) st en (take (Z.to_nat l) us)).
Proof.
  intros (Hn & Hs & He & Hst & Hen & Htr) Hun Hll HT Hl Hl0 Hc.
  pose proof (lookup_lt_Some _ _ _ Hl) as Hb.
  destruct (viterbi_elements_nonneg T B N st en _ (transitions self) lengths
              Hun Htr Hll HT ltac:(lia) Hst Hen) as (paths & scores & Hv & _ & _ & Hel).
  destruct (Hel b l us Hl Hl0 Hc) as [Hp Hsc].
  unfold decode_at, decode. rewrite Hs, He, Hv. cbn [mbind option_bind fst snd].
  rewrite Hp, Hsc. cbn [mbind option_bind]. by rewrite <- surjective_pairing.
Qed.

Lemma gold_score_at_nonneg (self : CRF V) (T B N st en : nat)
    (unary : list (list (list V))) (tags : list (list Z)) (lengths : list Z)
    (b : nat) (l : Z) (us : list (list V)) (gs : list Z) :
  crf_ok self N st en → shape3 T B N unary → tags_ok T B N tags → 0 < T →
  length lengths = B → Forall (λ l, 0 ≤ l ≤ Z.of_nat T)%Z lengths →
  Z.of_nat T ∈ lengths →
  lengths !! b = Some l → is_col b unary us → is_col b tags gs →
  gold_score_at self unary tags lengths B b
  = Some (path_score (transitions self) st en us (Z.to_nat <$> take (Z.to_nat l) gs)).
Proof.
  intros Hcrf Hun Htags HT Hll Hlall Hlong Hl Hus Hgs.
  destruct (score_sentence_element_nonneg self T B N st en unary tags lengths b l us gs)
    as (scores & Hsc & Hb); try done.
  unfold gold_score_at. by rewrite Hsc.
Qed.

(** [neg_log_loss] for a batch element of any length in [0, T]. *)
Lemma loss_at_nonneg `{LogSumExp V} (self : CRF V) (T B N st en : nat)
    (unary : list (list (list V))) (tags : list (list Z)) (lengths : list Z)
    (b : nat) (l : Z) (us : list (list V)) (gs : list Z) :
  crf_ok self N st en → shape3 T B N (time_major self unary) →
  tags_ok T B N (time_major self tags) →
  length lengths = B → 0 < T → Forall (λ l, 0 ≤ l ≤ Z.of_nat T)%Z lengths →
  Z.of_nat T ∈ lengths → lengths !! b = Some l →
  emissions_of self unary b us → gold_tags_of self tags b gs →
  loss_at self unary tags lengths b
  = Some (forward1 (transitions self) st en (take (Z.to_nat l) us)
          ⊖ path_score (transitions self) st en us
              (Z.to_nat <$> take (Z.to_nat l) gs)).
Proof.
  intros Hcrf Hun Htags Hll HT Hlall Hlong Hl Hus Hgs.
  pose proof (lookup_lt_Some _ _ _ Hl) as Hb.
  pose proof Hcrf as (Hn & Hs & He & Hst & Hen & Htr).
  destruct (forward_elements self T B N st en _ lengths Hn Hs He Hst Hen Htr
              Hun Hll ltac:(lia)) as (fwd & Hf & _ & Hfel).
  destruct (score_sentence_element_nonneg self T B N st en _ _ lengths b l us gs
              Hcrf Hun Htags HT Hll Hlall Hlong Hl Hus Hgs) as (gold & Hg & Hgb).
  assert (Hbs : length (hd [] (time_major self unary)) = B).
  { destruct Hun as [HuT Hrows]. destruct (time_major self unary) as [|r0 ?];
      [cbn in HuT; lia|]. apply Forall_cons_1 in Hrows as [[? _] _]. done. }
  unfold loss_at, neg_log_loss. rewrite Hbs, Hf, Hg. cbn [mbind option_bind].
  by rewrite lookup_zip_with, (Hfel b l us Hl Hus), Hgb.
Qed.
End nonneg_lengths.

Section zero_length.
Context {V : Type} `{ScoreLaws V} `{LogSumExp V}.
#[local] Existing Instance score_inhabited.

(** X2.  An element of length 0 is decoded to the empty path, with the best
    initial score plus transition into END as its path score; its forward
    score is the log of the sum of the exponentials of the same terms. *)
Theorem zero_length_element (self : CRF V) (T B N st en : nat)
    (unary : list (list (list V))) (lengths : list Z) (b : nat) :
  crf_ok self N st en → shape3 T B N (time_major self unary) →
  length lengths = B → 0 < T → lengths !! b = Some 0%Z →
  let terminal := zip_with sadd (init_alpha N st) (transitions self !!! en) in
  (∃ score,
     decode_at self unary lengths b = Some ([], score) ∧
     (∃ j, terminal !! j = Some score) ∧ ∀ x, x ∈ terminal → x ⊑ score) ∧
  forward_at self (time_major self unary) lengths B b
  = Some (vec_log_sum_exp terminal).
Proof.
  intros Hcrf Hun Hll HT Hl terminal.
  pose proof Hcrf as (Hn & Hs & He & Hst & Hen & Htr). pose proof Htr as [Htl Htrows].
  pose proof (lookup_lt_Some _ _ _ Hl) as Hb. rewrite Hll in Hb.
  destruct (shape3_cols T B N _ b Hun Hb) as (us & Hus & HusT).
  assert (Hte : length (transitions self !!! en) = N) by (by apply (trans_row_length N)).
  assert (Hterm : terminal ≠ []).
  { intros Hnil. apply (f_equal length) in Hnil. unfold terminal in Hnil.
    rewrite length_zip_with, init_alpha_length, Hte in Hnil. cbn in Hnil. lia. }
  split.
  - rewrite (decode_at_nonneg self T B N st en unary lengths b 0%Z us) by done.
    change (take (Z.to_nat 0) us) with (take 0 us). rewrite take_0.
    unfold viterbi1. cbn [fst snd viterbi_path viterbi_run foldl].
    rewrite Htl. fold terminal.
    exists (torch_max terminal).1. split; [done|].
    destruct (torch_max_spec terminal Hterm) as [Hk Hmax]. split; [eauto | done].
  - rewrite (forward_at_element self T B N st en _ lengths b 0%Z us) by done.
    change (take (Z.to_nat 0) us) with (take 0 us). rewrite take_0.
    unfold forward1. cbn [forward_run foldl]. by rewrite Htl.
Qed.

(** X3.  In a batch padded to its longest element (some length is the
    padded width [T]), the gold score of an element of length 0 is the
    transition from START into END, and its loss is its forward score
    minus that transition. *)
Theorem zero_length_gold_score (self : CRF V) (T B N st en : nat)
    (unary : list (list (list V))) (tags : list (list Z)) (lengths : list Z)
    (b : nat) :
  crf_ok self N st en → shape3 T B N (time_major self unary) →
  tags_ok T B N (time_major self tags) →
  length lengths = B → 0 < T → Forall (λ l, 0 ≤ l ≤ Z.of_nat T)%Z lengths →
  Z.of_nat T ∈ lengths → lengths !! b = Some 0%Z →
  let trans_end := transitions self !!! en in
  gold_score_at self (time_major self unary) (time_major self tags) lengths B b
  = Some (trans_end !!! st) ∧
  loss_at self unary tags lengths b
  = Some (vec_log_sum_exp (zip_with sadd (init_alpha N st) trans_end)
          ⊖ trans_end !!! st).
Proof.
  intros Hcrf Hun Htags Hll HT Hlall Hlong Hl trans_end.
  pose proof Hcrf as (Hn & Hs & He & Hst & Hen & Htr). pose proof Htr as [Htl Htrows].
  pose proof (lookup_lt_Some _ _ _ Hl) as Hb. rewrite Hll in Hb.
  destruct (shape3_cols T B N _ b Hun Hb) as (us & Hus & HusT).
  assert (Hgs : ∃ gs, is_col b (time_major self tags) gs).
  { apply (is_col_exists b B); [|done]. destruct Htags as [_ Htags].
    eapply List.Forall_impl; [|exact Htags]. by intros row [? _]. }
  destruct Hgs as [gs Hgs].
  assert (Hfwd : forward1 (transitions self) st en []
                 = vec_log_sum_exp (zip_with sadd (init_alpha N st) trans_end)).
  { unfold forward1. cbn [forward_run foldl]. by rewrite Htl. }
  assert (Hgold : path_score (transitions self) st en us [] = trans_end !!! st).
  { unfold path_score. cbn. by rewrite sadd_0_l. }
  split.
  - rewrite (gold_score_at_nonneg self T B N st en _ _ lengths b 0%Z us gs) by done.
    change (take (Z.to_nat 0) gs) with (take 0 gs). by rewrite take_0, fmap_nil, Hgold.
  - rewrite (loss_at_nonneg self T B N st en unary tags lengths b 0%Z us gs) by done.
    change (take (Z.to_nat 0) us) with (take 0 us).
    change (take (Z.to_nat 0) gs) with (take 0 gs).
    by rewrite !take_0, fmap_nil, Hfwd, Hgold.
Qed.
End zero_length.

(** * Inputs that are rejected *)

Section rejected.
Context {V : Type} `{Score V} `{LogSumExp V}.

Lemma score_sentence_on_length (trans : list (list V)) (start_idx end_idx : Z)
    (unary : list (list (list V))) (tags : list (list Z)) (lengths : list Z)
    (batch_size b : nat) (l : Z) :
  lengths !! b = Some l → (l < 0 ∨ Z.of_nat (length tags) < l)%Z →
  score_sentence_on trans start_idx end_idx unary tags lengths batch_size = None.
Proof.
  intros Hl Hout. unfold score_sentence_on.
  cbn [tail]. case_bool_decide; [done|].
  destruct (zip_withM _ (_ :: tags) tags) as [trans_score|]; [|done].
  cbn [mbind option_bind].
  destruct (zip_withM _ unary tags) as [unary_score|]; [|done]. cbn [mbind option_bind].
  destruct (sequence_mask lengths) as [mask|]; [|done]. cbn [mbind option_bind].
  destruct (masked_fill_steps _ _ _) as [scores|]; [|done]. cbn [mbind option_bind].
  rewrite (zip_withM_None _ _ _ b b l); [done | | done |].
  - apply lookup_seq. split; [done|]. by apply lookup_lt_Some in Hl.
  - unfold gather1. case_bool_decide; [|done].
    rewrite lookup_ge_None_2; [done|]. cbn [length]. lia.
Qed.

(** X4.  [score_sentence] and [neg_log_loss] reject a length vector with an
    entry below 0 or above the number of time steps of the tag tensor:
    the gather of the last tags raises. *)
Theorem length_out_of_range_is_rejected (self : CRF V) (unary : list (list (list V)))
    (tags : list (list Z)) (lengths : list Z) (batch_size b : nat) (l : Z) :
  lengths !! b = Some l →
  (l < 0 ∨ Z.of_nat (length (time_major self tags)) < l)%Z →
  score_sentence self unary (time_major self tags) lengths batch_size = None ∧
  neg_log_loss self unary tags lengths = None.
Proof.
  intros Hl Hout. assert (Hs : ∀ u B,
    score_sentence self u (time_major self tags) lengths B = None).
  { intros u B. unfold score_sentence. by apply (score_sentence_on_length _ _ _ _ _ _ _ b l). }
  split; [apply Hs|]. unfold neg_log_loss.
  destruct (forward _ _ _ _) as [fwd|]; [|done]. cbn [mbind option_bind].
  by rewrite Hs.
Qed.

(** X5.  An empty batch is rejected by every operation: the minimum of an empty
    length vector raises; so is an emission tensor without time steps by
    [decode], which has no path to stack. *)
Theorem empty_input_is_rejected (self : CRF V) (unary : list (list (list V)))
    (tags : list (list Z)) (lengths : list Z) (batch_size : nat) :
  forward self unary [] batch_size = None ∧
  decode self unary [] = None ∧
  neg_log_loss self unary tags [] = None ∧
  (time_major self unary = [] → decode self unary lengths = None).
Proof.
  split; [done|]. split; [|split].
  - unfold decode, viterbi. by destruct (time_major self unary).
  - done.
  - intros Hnil. unfold decode. by rewrite Hnil.
Qed.
End rejected.

(** * START and END indices below zero *)

Section wrap.
Context {V : Type} `{Score V} `{LogSumExp V}.

Lemma py_index_mod (n : nat) (i : Z) :
  (- Z.of_nat n ≤ i < Z.of_nat n)%Z →
  py_index n i = Some (Z.to_nat (i `mod` Z.of_nat n)).
Proof.
  intros Hi. unfold py_index. case_bool_decide as H1.
  - by rewrite Z.mod_small by lia.
  - rewrite bool_decide_eq_true_2 by lia. do 2 f_equal.
    rewrite <- (Z.mod_add i 1) by lia. rewrite Z.mod_small; lia.
Qed.

Lemma py_index_wrap (n : nat) (i : Z) :
  (- Z.of_nat n ≤ i < Z.of_nat n)%Z →
  py_index n (i `mod` Z.of_nat n) = py_index n i.
Proof.
  intros Hi. rewrite (py_index_mod n i Hi).
  assert (0 ≤ i `mod` Z.of_nat n < Z.of_nat n)%Z by (apply Z.mod_pos_bound; lia).
  unfold py_index. by rewrite bool_decide_eq_true_2 by lia.
Qed.

Lemma py_get_wrap {A : Type} (n : nat) (t : list A) (i : Z) :
  length t = n → (- Z.of_nat n ≤ i < Z.of_nat n)%Z →
  py_get t (i `mod` Z.of_nat n) = py_get t i.
Proof. intros Ht Hi. unfold py_get. by rewrite Ht, py_index_wrap. Qed.

Lemma trans_at_wrap (N : nat) (trans : list (list V)) (c p : Z) :
  shape2 N N trans →
  ((- Z.of_nat N ≤ c < Z.of_nat N)%Z →
   trans_at trans (c `mod` Z.of_nat N) p = trans_at trans c p) ∧
  ((- Z.of_nat N ≤ p < Z.of_nat N)%Z →
   trans_at trans c (p `mod` Z.of_nat N) = trans_at trans c p).
Proof.
  intros [Htl Htr]. unfold trans_at. split; intros Hi.
  - by rewrite (py_get_wrap N).
  - destruct (py_get trans c) as [row|] eqn:Hrow; [cbn | done].
    apply (py_get_wrap N); [|done]. unfold py_get in Hrow.
    destruct (py_index _ c) as [k|]; [cbn in Hrow | done].
    rewrite Forall_lookup in Htr. eauto.
Qed.

Lemma zip_withM_ext {A B C : Type} (f g : A → B → option C) (l : list A) (k : list B) :
  (∀ i x y, l !! i = Some x → k !! i = Some y → f x y = g x y) →
  zip_withM f l k = zip_withM g l k.
Proof.
  revert k. induction l as [|x l IH]; intros [|y k] Hfg; try done. cbn.
  rewrite (Hfg 0 x y) by done. rewrite IH; [done|].
  intros i x' y' Hx Hy. by apply (Hfg (S i)).
Qed.

Lemma zip_withM_replicate {A B C : Type} (f g : A → B → option C) (n : nat)
    (x x' : A) (k : list B) :
  (∀ y, f x y = g x' y) →
  zip_withM f (replicate n x) k = zip_withM g (replicate n x') k.
Proof.
  intros Hfg. revert k. induction n as [|n IH]; intros [|y k]; try done. cbn.
  by rewrite Hfg, IH.
Qed.

(** X6.  A START or END index [i] with [-n_tags <= i < 0] stands for the tag
    [n_tags + i], as a Python index does: the layer scores and decodes as
    the layer with the indices reduced modulo [n_tags]. *)
Theorem negative_indices_wrap (self : CRF V) (T B N : nat)
    (unary : list (list (list V))) (tags : list (list Z)) (lengths : list Z) :
  n_tags self = Z.of_nat N → shape2 N N (transitions self) →
  (- Z.of_nat N ≤ start_idx self < Z.of_nat N)%Z →
  (- Z.of_nat N ≤ end_idx self < Z.of_nat N)%Z →
  let self' := with_idxs self (start_idx self `mod` Z.of_nat N,
                               end_idx self `mod` Z.of_nat N)%Z in
  forward self unary lengths B = forward self' unary lengths B ∧
  score_sentence self unary tags lengths B = score_sentence self' unary tags lengths B ∧
  (shape3 T B N (time_major self unary) → 0 < B →
   decode self unary lengths = decode self' unary lengths).
Proof.
  intros Hn Htr Hs He self'. pose proof Htr as [Htl Htrows].
  assert (Htrans : transitions self' = transitions self) by done.
  split; [|split].
  - unfold forward. rewrite Htrans. cbn [self' with_idxs n_tags start_idx end_idx fst snd].
    rewrite Hn, Nat2Z.id. unfold init_alphas. rewrite py_index_wrap by done.
    by rewrite (py_get_wrap N) by done.
  - unfold score_sentence. rewrite Htrans.
    cbn [self' with_idxs start_idx end_idx fst snd]. unfold score_sentence_on.
    set (s := start_idx self). set (e := end_idx self). fold s e in Hs, He.
    set (s' := (s `mod` Z.of_nat N)%Z). set (e' := (e `mod` Z.of_nat N)%Z).
    destruct (trans_at_wrap N (transitions self) e s Htr) as [_ Hws].
    assert (Hwe : ∀ p, trans_at (transitions self) e' p = trans_at (transitions self) e p).
    { intros p. by apply (trans_at_wrap N). }
    assert (Hwp : ∀ c, trans_at (transitions self) c s' = trans_at (transitions self) c s).
    { intros c. by apply (trans_at_wrap N). }
    assert (Hts : zip_withM (zip_withM (λ prev cur, trans_at (transitions self) cur prev))
                    (replicate B s' :: tags) (tail (replicate B s' :: tags))
                  = zip_withM (zip_withM (λ prev cur, trans_at (transitions self) cur prev))
                    (replicate B s :: tags) (tail (replicate B s :: tags))).
    { cbn [tail]. destruct tags as [|t0 tags']; [done|]. rewrite !zip_withM_cons.
      by rewrite (zip_withM_replicate _ (λ prev cur, trans_at (transitions self) cur prev)
                    B s' s t0) by (intros y; apply Hwp). }
    rewrite Hts. cbn [tail length]. case_bool_decide; [done|].
    destruct (zip_withM _ (replicate B s :: tags) tags) as [trans_score|]; [|done].
    cbn [mbind option_bind].
    destruct (zip_withM _ unary tags) as [unary_score|]; [|done].
    cbn [mbind option_bind].
    destruct (sequence_mask lengths) as [mask|]; [|done]. cbn [mbind option_bind].
    destruct (masked_fill_steps _ _ _) as [scores|]; [|done]. cbn [mbind option_bind].
    rewrite (zip_withM_ext
               (λ b l, row ← gather1 (replicate B s' :: tags) l; tag ← row !! b;
                       trans_at (transitions self) e' tag)
               (λ b l, row ← gather1 (replicate B s :: tags) l; tag ← row !! b;
                       trans_at (transitions self) e tag)); [done|].
    intros i b l _ _. unfold gather1. case_bool_decide; [|done].
    destruct (Z.to_nat l) as [|n]; cbn [lookup list_lookup].
    + cbn [mbind option_bind]. destruct (decide (b < B)).
      * rewrite !lookup_replicate_2 by done. cbn [mbind option_bind].
        by rewrite Hwe, Hwp.
      * by rewrite !lookup_ge_None_2 by (rewrite length_replicate; lia).
    + destruct (tags !! n) as [row|]; [cbn [mbind option_bind] | done].
      destruct (row !! b) as [tag|]; [cbn [mbind option_bind] | done]. apply Hwe.
  - intros [HT Hun] HB. unfold decode, viterbi. rewrite Htrans.
    cbn [self' with_idxs start_idx end_idx fst snd].
    destruct (time_major self' unary) as [|unary_0 rest] eqn:Htm;
      change (time_major self' unary) with (time_major self unary) in Htm;
      rewrite Htm in *; [done|].
    apply Forall_cons_1 in Hun as [[Hu0 Hu0r] _].
    assert (Hhd : length (hd [] unary_0) = N).
    { destruct unary_0 as [|v ?]; [cbn in Hu0; lia|].
      by apply Forall_cons_1 in Hu0r as [? _]. }
    rewrite Hhd. unfold init_alphas. rewrite py_index_wrap by done.
    by rewrite (py_get_wrap N) by done.
Qed.
End wrap.

(** * Decoding against scoring *)

Section round_trip.
Context {V : Type} `{ScoreLaws V}.
#[local] Existing Instance score_inhabited.

End round_trip.


(** * The forward score against the decoded score *)

Section forward_decode.
Local Open Scope R_scope.
#[local] Existing Instance score_inhabited.

Lemma R_sum_list_le (v : list R) (c : R) :
  Forall (λ x, x <= c) v → R_sum_list v <= INR (length v) * c.
Proof.
  induction 1 as [|x v Hx _ IH]; [cbn; lra|].
  rewrite R_sum_list_cons. cbn [length]. rewrite S_INR. lra.
Qed.

Lemma length_bind_const {A C : Type} (f : A → list C) (l : list A) (k : nat) :
  (∀ x, length (f x) = k) → length (l ≫= f) = (length l * k)%nat.
Proof.
  intros Hf. induction l as [|x l IH]; [done|].
  cbn [mbind list_bind length]. rewrite length_app, Hf, IH. lia.
Qed.

Lemma all_paths_count (n len : nat) : length (all_paths n len) = (n ^ len)%nat.
Proof.
  induction len as [|len IH]; [done|]. cbn [all_paths].
  rewrite (length_bind_const _ _ (n ^ len)).
  - rewrite length_seq. cbn. lia.
  - intros t. by rewrite length_fmap.
Qed.

Lemma all_paths_valid (n len : nat) (q : list nat) :
  q ∈ all_paths n len → valid_path n len q.
Proof.
  revert q. induction len as [|len IH]; intros q Hq; cbn in Hq.
  - apply list_elem_of_singleton in Hq. subst. by split.
  - apply list_elem_of_bind in Hq as (t & Hq & Ht).
    apply list_elem_of_fmap in Hq as (q' & -> & Hq').
    destruct (IH q' Hq') as [Hl Hr]. apply elem_of_seq in Ht.
    split; [cbn; by rewrite Hl|]. constructor; [lia | done].
Qed.

Lemma exp_le (x y : R) : x <= y → exp x <= exp y.
Proof. intros [Hlt | ->]; [left; by apply exp_increasing | lra]. Qed.

(** The decoded score of an element alone is at most its forward score,
    which exceeds it by at most [(len + 1) * ln N]. *)
Lemma forward1_viterbi1_bounds (N st en : nat) (trans : list (list R))
    (us : list (list R)) :
  (st < N)%nat → (en < N)%nat → shape2 N N trans → Forall (λ u, length u = N) us →
  (viterbi1 trans st en us).2 <= forward1 trans st en us ∧
  forward1 trans st en us
  <= (viterbi1 trans st en us).2 + INR (S (length us)) * ln (INR N).
Proof.
  intros Hst Hen Htr Hus. pose proof Htr as [Htl _].
  assert (HN : (0 < N)%nat) by lia.
  assert (Hte : length (trans !!! en) = N) by (by apply (trans_row_length N)).
  assert (Ha0 : length (init_alpha N st : list R) = N) by apply init_alpha_length.
  pose proof (viterbi_upper_bound N trans (trans !!! en) HN Htr Hte en us eq_refl Hus
                (init_alpha N st)) as Hub.
  pose proof (viterbi_attained N trans (trans !!! en) HN Htr Hte en us eq_refl Hus
                (init_alpha N st) Ha0) as Hatt.
  destruct (viterbi_path_lt N trans (trans !!! en) HN Htr Hte us Hus
              (init_alpha N st) Ha0) as [Hj Hq].
  pose proof (viterbi_path_length trans (trans !!! en) us (init_alpha N st)) as Hql.
  cbv zeta in Hatt.
  assert (Hsc : (viterbi1 trans st en us).2
                = (torch_max (zip_with sadd (viterbi_run trans (init_alpha N st) us)
                                (trans !!! en))).1).
  { unfold viterbi1. by rewrite Htl. }
  rewrite Hsc. set (score := (torch_max _).1) in *. split.
  - rewrite <- Hatt. apply R_sleb_le. unfold forward1. rewrite Htl.
    apply (forward_upper_bound R_lse_ge N trans Htr en us Hen Hus); try done.
  - rewrite (forward1_sum N) by done.
    assert (HNpos : 0 < INR N) by (apply lt_0_INR; lia).
    assert (Hterm : ∀ j, (j < N)%nat →
              exp ((init_alpha N st : list R) !!! j) * path_weight N trans en j us
              <= INR (N ^ length us) * exp score).
    { intros j Hjn. rewrite path_weight_paths, <- R_sum_list_scal.
      rewrite <- all_paths_count, <- (length_fmap
        (λ q, exp ((init_alpha N st : list R) !!! j) * exp (tail_score trans en j us q))).
      apply R_sum_list_le, Forall_fmap, list.Forall_forall. intros q Hq'. cbn.
      rewrite <- exp_plus. apply exp_le, R_sleb_le.
      apply Hub; [done | done | by apply all_paths_valid]. }
    assert (Hsum : Rsum_n N (λ j, exp ((init_alpha N st : list R) !!! j)
                                  * path_weight N trans en j us)
                   <= INR N * (INR (N ^ length us) * exp score)).
    { unfold Rsum_n.
      replace (INR N) with (INR (length ((λ j, exp ((init_alpha N st : list R) !!! j)
                                    * path_weight N trans en j us) <$> seq 0 N)))
        by (by rewrite length_fmap, length_seq).
      apply R_sum_list_le, Forall_fmap, list.Forall_forall. intros j Hjn. cbn.
      apply elem_of_seq in Hjn. apply Hterm. lia. }
    eapply Rle_trans.
    + apply ln_le_mono; [|exact Hsum].
      apply (Rsum_n_pos N HN). intros j.
      apply Rmult_lt_0_compat; [apply exp_pos | by apply path_weight_pos].
    + assert (Hpow : 0 < INR (N ^ length us)).
      { rewrite pow_INR. by apply pow_lt. }
      rewrite !ln_mult, ln_exp by (done || apply exp_pos ||
        (apply Rmult_lt_0_compat; [done | apply exp_pos])).
      rewrite pow_INR, ln_pow, S_INR by done. lra.
Qed.

(** X8.  For a valid input, the score that [decode] returns for a batch element
    is at most the forward score of the element, and the forward score is at
    most that score plus [(length + 1) * ln n_tags]. *)
Theorem forward_within_decode_bounds (self : CRF R) (T B N st en : nat)
    (unary : list (list (list R))) (lengths : list Z) (b : nat) (l : Z) :
  crf_ok self N st en → shape3 T B N (time_major self unary) →
  lengths_ok T B lengths → lengths !! b = Some l →
  ∃ fwd path score,
    forward_at self (time_major self unary) lengths B b = Some fwd ∧
    decode_at self unary lengths b = Some (path, score) ∧
    score <= fwd ∧ fwd <= score + (IZR l + 1) * ln (INR N).
Proof.
  intros Hcrf Hun Hlen Hl.
  destruct (lengths_ok_lookup T B lengths b l Hlen Hl) as (Hb & _ & _ & Hlr & HlT).
  destruct (emissions_exist self T B N unary b Hun Hb) as [us Hus].
  destruct (shape3_col T B N _ b us Hun Hus) as [HusT HusN].
  pose proof Hcrf as (_ & _ & _ & Hst & Hen & Htr).
  rewrite (decode_elements self T B N st en unary lengths b l us) by done.
  rewrite (forward_at_element self T B N st en _ lengths b l us)
    by (done || by destruct Hlen).
  set (us' := take (Z.to_nat l) us).
  assert (Htk : length us' = Z.to_nat l) by (unfold us'; rewrite length_take; lia).
  destruct (forward1_viterbi1_bounds N st en (transitions self) us')
    as [Hlo Hhi]; try done; [by apply Forall_take|].
  eexists _, (viterbi1 (transitions self) st en us').1, _.
  split; [reflexivity|]. split; [by rewrite <- surjective_pairing|].
  split; [done|]. rewrite Htk, S_INR, INR_IZR_INZ, Z2Nat.id in Hhi by lia. done.
Qed.
End forward_decode.

(** * Constant shifts of the scores *)

#[export] Instance Z_score_cancel : ScoreCancel Z.
Proof. split; cbn; intros; rewrite ?Z.leb_le in *; lia. Qed.

#[export] Instance R_score_cancel : ScoreCancel R.
Proof. split; intros *; rewrite ?R_sleb_le; cbn; intros; lra. Qed.

Section shift.
Context {V : Type} `{ScoreLaws V} `{!ScoreCancel V}.
#[local] Existing Instance score_inhabited.

Lemma sleb_shift (x y d : V) : sleb (x ⊕ d) (y ⊕ d) = sleb x y.
Proof.
  destruct (sleb x y) eqn:Hxy.
  - by apply sadd_mono_r.
  - destruct (sleb (x ⊕ d) (y ⊕ d)) eqn:Hd; [|done].
    apply sadd_reflect in Hd. congruence.
Qed.

Lemma torch_max_from_shift (d : V) (v : list V) :
  ∀ (best : V) (bi i : nat),
    torch_max_from (best ⊕ d) bi i (shift d v)
    = ((torch_max_from best bi i v).1 ⊕ d, (torch_max_from best bi i v).2).
Proof.
  induction v as [|x v IH]; intros best bi i; [done|].
  cbn [shift fmap list_fmap torch_max_from]. rewrite sleb_shift.
  destruct (sleb x best); apply IH.
Qed.

Lemma torch_max_shift (d : V) (v : list V) :
  v ≠ [] → torch_max (shift d v) = ((torch_max v).1 ⊕ d, (torch_max v).2).
Proof. destruct v as [|x v]; [done | intros _]. apply torch_max_from_shift. Qed.

Lemma zip_with_shift_l (d : V) (a row : list V) :
  zip_with sadd (shift d a) row = shift d (zip_with sadd a row).
Proof.
  revert row. induction a as [|x a IH]; intros [|y row]; try done.
  cbn [shift fmap list_fmap zip_with]. f_equal; [|apply IH].
  by rewrite <- !sadd_assoc, (sadd_comm d y).
Qed.

Lemma zip_with_shift_r (d : V) (a row : list V) :
  zip_with sadd a (shift d row) = shift d (zip_with sadd a row).
Proof.
  revert row. induction a as [|x a IH]; intros [|y row]; try done.
  cbn [shift fmap list_fmap zip_with]. f_equal; [|apply IH]. apply sadd_assoc.
Qed.

Lemma shift_length (d : V) (a : list V) : length (shift d a) = length a.
Proof. apply length_fmap. Qed.

Section cells.
Context (N : nat) (trans : list (list V)).
Context (HN : 0 < N) (Htrans : shape2 N N trans).

Lemma max_into_shift (d : V) (a : list V) :
  length a = N →
  max_into trans (shift d a) = (λ p, (p.1 ⊕ d, p.2)) <$> max_into trans a.
Proof using All.
  intros Ha. destruct Htrans as [_ Htr]. unfold max_into.
  rewrite <- list_fmap_compose. apply Forall_fmap_ext.
  eapply List.Forall_impl; [|exact Htr]. intros row Hrow. cbn in *.
  rewrite zip_with_shift_l. apply torch_max_shift. intros Hnil.
  apply (f_equal length) in Hnil. rewrite length_zip_with in Hnil. cbn in Hnil. lia.
Qed.

Lemma viterbi_cell_shift (d : V) (a u : list V) :
  length a = N → viterbi_cell trans (shift d a) u = shift d (viterbi_cell trans a u).
Proof using All.
  intros Ha. unfold viterbi_cell. rewrite max_into_shift by done.
  rewrite <- list_fmap_compose.
  change (fst ∘ (λ p : V * nat, (p.1 ⊕ d, p.2))) with ((λ x, x ⊕ d) ∘ (fst : V * nat → V)).
  rewrite list_fmap_compose. apply zip_with_shift_l.
Qed.

Lemma back_ptr_shift (d : V) (a : list V) :
  length a = N → back_ptr trans (shift d a) = back_ptr trans a.
Proof using All.
  intros Ha. unfold back_ptr. rewrite max_into_shift by done.
  by rewrite <- list_fmap_compose.
Qed.

Lemma viterbi_cell_shift_emission (d : V) (a u : list V) :
  viterbi_cell trans a (shift d u) = shift d (viterbi_cell trans a u).
Proof using Type*. unfold viterbi_cell. apply zip_with_shift_r. Qed.

Lemma viterbi_run_length (us : list (list V)) :
  Forall (λ u, length u = N) us →
  ∀ a, length a = N → length (viterbi_run trans a us) = N.
Proof using Htrans.
  clear HN. destruct Htrans as [Htl _].
  induction 1 as [|u us Hu _ IH]; intros a Ha; [done|].
  cbn. apply IH. rewrite viterbi_cell_length. lia.
Qed.

Lemma viterbi_run_shift (d : V) (us : list (list V)) :
  Forall (λ u, length u = N) us →
  ∀ a, length a = N →
    viterbi_run trans (shift d a) us = shift d (viterbi_run trans a us).
Proof using All.
  destruct Htrans as [Htl _].
  induction 1 as [|u us Hu _ IH]; intros a Ha; [done|].
  change (viterbi_run trans ?a (u :: us)) with (viterbi_run trans (viterbi_cell trans a u) us).
  rewrite viterbi_cell_shift by done. apply IH. rewrite viterbi_cell_length. lia.
Qed.

Lemma viterbi_path_shift (d : V) (trans_end : list V) (us : list (list V)) :
  length trans_end = N → Forall (λ u, length u = N) us →
  ∀ a, length a = N →
    viterbi_path trans trans_end (shift d a) us = viterbi_path trans trans_end a us.
Proof using All.
  intros Hte. destruct Htrans as [Htl _].
  induction 1 as [|u us Hu _ IH]; intros a Ha; cbn [viterbi_path].
  - rewrite zip_with_shift_l, torch_max_shift; [done|]. intros Hnil.
    apply (f_equal length) in Hnil. rewrite length_zip_with in Hnil. cbn in Hnil. lia.
  - rewrite viterbi_cell_shift, back_ptr_shift by done.
    rewrite IH; [done|]. rewrite viterbi_cell_length. lia.
Qed.

(** Adding a constant to the state an element is decoded from: the path
    stays, the score moves by the constant. *)
Lemma viterbi1_from_shift (d : V) (trans_end a : list V) (us : list (list V)) :
  length trans_end = N → Forall (λ u, length u = N) us → length a = N →
  viterbi1_from trans trans_end (shift d a) us
  = ((viterbi1_from trans trans_end a us).1, (viterbi1_from trans trans_end a us).2 ⊕ d).
Proof using All.
  intros Hte Hus Ha. unfold viterbi1_from. cbn [fst snd].
  rewrite viterbi_path_shift, viterbi_run_shift by done. f_equal.
  rewrite zip_with_shift_l, torch_max_shift; [done|]. intros Hnil.
  apply (f_equal length) in Hnil.
  rewrite length_zip_with, viterbi_run_length in Hnil by done. cbn in Hnil. lia.
Qed.

(** Adding a constant to the emissions of one time step. *)
Lemma viterbi_shift_emission (d : V) (trans_end : list V) (us : list (list V)) :
  length trans_end = N → Forall (λ u, length u = N) us →
  ∀ (t : nat) (a : list V), length a = N → t < length us →
    viterbi_path trans trans_end a (alter (shift d) t us)
    = viterbi_path trans trans_end a us ∧
    viterbi_run trans a (alter (shift d) t us) = shift d (viterbi_run trans a us).
Proof using All.
  intros Hte. pose proof Htrans as [Htl _].
  induction 1 as [|u us Hu Hus IH]; intros t a Ha Ht; [cbn in Ht; lia|].
  assert (Hc : length (viterbi_cell trans a u) = N)
    by (rewrite viterbi_cell_length; lia).
  destruct t as [|t]; cbn [alter list_alter viterbi_path].
  - change (viterbi_run trans a (?u :: us))
      with (viterbi_run trans (viterbi_cell trans a u) us).
    rewrite viterbi_cell_shift_emission.
    by rewrite viterbi_path_shift, viterbi_run_shift.
  - destruct (IH t (viterbi_cell trans a u) Hc ltac:(cbn in Ht; lia)) as [Hp Hr].
    change (viterbi_run trans a (u :: ?us))
      with (viterbi_run trans (viterbi_cell trans a u) us).
    by rewrite Hp, Hr.
Qed.

Lemma viterbi1_from_shift_emission (d : V) (trans_end a : list V)
    (us : list (list V)) (t : nat) :
  length trans_end = N → Forall (λ u, length u = N) us → length a = N →
  t < length us →
  viterbi1_from trans trans_end a (alter (shift d) t us)
  = ((viterbi1_from trans trans_end a us).1, (viterbi1_from trans trans_end a us).2 ⊕ d).
Proof using All.
  intros Hte Hus Ha Ht. unfold viterbi1_from. cbn [fst snd].
  destruct (viterbi_shift_emission d trans_end us Hte Hus t a Ha Ht) as [-> ->].
  f_equal. rewrite zip_with_shift_l, torch_max_shift; [done|]. intros Hnil.
  apply (f_equal length) in Hnil.
  rewrite length_zip_with, viterbi_run_length in Hnil by done. cbn in Hnil. lia.
Qed.
End cells.
End shift.

(** * Emissions moved by a constant *)

Section emission_shift.
Context {V : Type} `{ScoreLaws V} `{!ScoreCancel V}.
#[local] Existing Instance score_inhabited.

Lemma viterbi1_is_from (trans : list (list V)) (st en : nat) (us : list (list V)) :
  viterbi1 trans st en us
  = viterbi1_from trans (trans !!! en) (init_alpha (length trans) st) us.
Proof. done. Qed.

(** X9.  Adding a constant [d] to all the emissions of a batch element at one
    of its time steps leaves its decoded path as it is and adds [d] to its
    path score. *)
Theorem decode_emission_shift (self : CRF V) (T B N st en : nat)
    (unary unary' : list (list (list V))) (lengths : list Z) (b : nat) (l : Z)
    (us : list (list V)) (t : nat) (d : V) :
  crf_ok self N st en → shape3 T B N (time_major self unary) →
  shape3 T B N (time_major self unary') →
  lengths_ok T B lengths → lengths !! b = Some l → (Z.of_nat t < l)%Z →
  emissions_of self unary b us →
  emissions_of self unary' b (alter (shift d) t us) →
  ∃ path score,
    decode_at self unary lengths b = Some (path, score) ∧
    decode_at self unary' lengths b = Some (path, score ⊕ d).
Proof.
  intros Hcrf Hun Hun' Hlen Hl Ht Hus Hus'.
  destruct (lengths_ok_lookup T B lengths b l Hlen Hl) as (Hb & _ & _ & Hlr & HlT).
  destruct (shape3_col T B N _ b us Hun Hus) as [HusT HusN].
  pose proof Hcrf as (_ & _ & _ & Hst & Hen & Htr). pose proof Htr as [Htl _].
  rewrite (decode_elements self T B N st en unary lengths b l us) by done.
  rewrite (decode_elements self T B N st en unary' lengths b l _ Hcrf Hun' Hlen Hl Hus').
  rewrite take_alter_lt by lia. rewrite !viterbi1_is_from, Htl.
  rewrite (viterbi1_from_shift_emission N (transitions self)); try done.
  - eexists _, _. split; [|reflexivity]. by rewrite <- surjective_pairing.
  - lia.
  - by apply (trans_row_length N).
  - by apply Forall_take.
  - apply init_alpha_length.
  - rewrite length_take. lia.
Qed.
End emission_shift.

Lemma decode_emission_shift_witness :
  ∃ path score,
    decode_at crf_chain unary_pair [3; 1]%Z 0 = Some (path, score) ∧
    decode_at crf_chain
      [ [[-10000; 5; 0; -10000]; [-10000; 0; 5; -10000]];
        [[-9993; 7; 12; -9993]; [1; 2; 3; 4]];
        [[-10000; 3; 3; -10000]; [4; 3; 2; 1]] ]%Z [3; 1]%Z 0
    = Some (path, score ⊕ 7%Z).
Proof.
  apply (decode_emission_shift crf_chain 3 2 4 0 3 unary_pair _ [3; 1]%Z 0 3%Z
           [[-10000; 5; 0; -10000]; [-10000; 0; 5; -10000]; [-10000; 3; 3; -10000]]%Z
           1 7%Z);
    [exact crf_chain_ok | shape_tac..].
Defined.

(** * viterbi with [norm=True] *)

Section norm.
Local Open Scope R_scope.
#[local] Existing Instance score_inhabited.

Lemma R_sum_list_replicate (n : nat) (y : R) : R_sum_list (replicate n y) = INR n * y.
Proof.
  induction n as [|n IH]; [cbn; lra|].
  cbn [replicate]. rewrite R_sum_list_cons, IH, S_INR. lra.
Qed.

Lemma R_sum_list_insert_replicate (n st : nat) (x y : R) :
  (st < n)%nat → R_sum_list (<[st:=x]> (replicate n y)) = x + INR (n - 1) * y.
Proof.
  revert st. induction n as [|n IH]; intros st Hst; [lia|].
  destruct st as [|st]; cbn [replicate insert list_insert].
  - rewrite R_sum_list_cons, R_sum_list_replicate. do 3 f_equal. lia.
  - rewrite R_sum_list_cons, IH by lia.
    replace (S n - 1)%nat with (S (n - 1)) by lia. rewrite S_INR. lra.
Qed.

(** The normaliser of the initial state: START at 0, the other tags at
    -1e4. *)
Lemma init_alpha_normaliser (N st : nat) :
  (st < N)%nat →
  R_sum_list (exp <$> (init_alpha N st : list R)) = 1 + INR (N - 1) * exp (-10000).
Proof.
  intros Hst. unfold init_alpha. rewrite list_fmap_insert, fmap_replicate.
  cbn [s0 sneg1e4 R_score]. rewrite exp_0. by apply R_sum_list_insert_replicate.
Qed.

(** X10.  With [norm=True], [viterbi] returns the paths it returns without it,
    and every path score lowered by the constant
    [ln (1 + (n_tags - 1) * exp (-1e4))], the log-normaliser of the initial
    state. *)
Theorem viterbi_norm_same_paths (T B N st en : nat) (unary : list (list (list R)))
    (trans : list (list R)) (lengths : list Z) :
  shape3 T B N unary → shape2 N N trans → length lengths = B →
  (0 < T)%nat → (0 < B)%nat → (st < N)%nat → (en < N)%nat →
  Forall (λ l, 0 ≤ l)%Z lengths →
  ∃ paths scores,
    viterbi unary trans lengths (Z.of_nat st) (Z.of_nat en) = Some (paths, scores) ∧
    viterbi_norm unary trans lengths (Z.of_nat st) (Z.of_nat en) true
    = Some (paths, (λ s, s - ln (1 + INR (N - 1) * exp (-10000))) <$> scores).
Proof.
  intros Hun Htr Hll HT HB Hst Hen Hl0. pose proof Htr as [Htl _].
  set (c := ln (1 + INR (N - 1) * exp (-10000))).
  assert (Hsoft : log_softmax (init_alpha N st : list R) = shift (- c) (init_alpha N st)).
  { unfold log_softmax, R_log_softmax, shift. by rewrite init_alpha_normaliser. }
  assert (Ha0 : length (init_alpha N st : list R) = N) by apply init_alpha_length.
  destruct (viterbi_norm_elements false T B N st en (Z.of_nat st) (Z.of_nat en)
              unary trans lengths (init_alpha N st))
    as (paths & scores & Hv & Hpl & Hsl & Hel); try done; try (by apply py_index_nat).
  destruct (viterbi_norm_elements true T B N st en (Z.of_nat st) (Z.of_nat en)
              unary trans lengths (shift (- c) (init_alpha N st)))
    as (paths' & scores' & Hv' & Hpl' & Hsl' & Hel'); try done;
    try (by apply py_index_nat); [by rewrite shift_length|].
  exists paths, scores. split; [exact Hv|]. rewrite Hv'. do 2 f_equal.
  - apply (list_eq_lookup_lt B); try done. intros b Hb.
    destruct (lookup_lt_is_Some_2 lengths b) as [l Hl]; [lia|].
    destruct (shape3_cols T B N _ b Hun Hb) as (us & Hus & HusT).
    destruct (shape3_col T B N _ b us Hun Hus) as [_ HusN].
    rewrite Forall_lookup in Hl0. pose proof (Hl0 b l Hl) as Hl0'.
    destruct (Hel b l us Hl Hl0' Hus) as [-> _].
    destruct (Hel' b l us Hl Hl0' Hus) as [-> _].
    rewrite (viterbi1_from_shift N trans) by
      (done || lia || (by apply (trans_row_length N)) || by apply Forall_take).
    done.
  - apply (list_eq_lookup_lt B); try done; [by rewrite length_fmap|]. intros b Hb.
    destruct (lookup_lt_is_Some_2 lengths b) as [l Hl]; [lia|].
    destruct (shape3_cols T B N _ b Hun Hb) as (us & Hus & HusT).
    destruct (shape3_col T B N _ b us Hun Hus) as [_ HusN].
    rewrite Forall_lookup in Hl0. pose proof (Hl0 b l Hl) as Hl0'.
    destruct (Hel b l us Hl Hl0' Hus) as [_ Hs].
    destruct (Hel' b l us Hl Hl0' Hus) as [_ ->].
    rewrite list_lookup_fmap, Hs.
    rewrite (viterbi1_from_shift N trans) by
      (done || lia || (by apply (trans_row_length N)) || by apply Forall_take).
    done.
Qed.
End norm.

(** * The loss is unchanged when the emissions of a step move by a constant *)

Section loss_shift.
Local Open Scope R_scope.
#[local] Existing Instance score_inhabited.

Lemma R_lse_shift (d : R) (v : list R) :
  v ≠ [] → vec_log_sum_exp (shift d v) = vec_log_sum_exp v + d.
Proof.
  intros Hv. rewrite !R_lse_eq; [|done | by destruct v].
  unfold shift. rewrite <- list_fmap_compose.
  rewrite (R_sum_list_ext _ (λ x, exp d * exp x)).
  - rewrite R_sum_list_scal, ln_mult, ln_exp; [lra | apply exp_pos |].
    apply R_sum_list_pos; [by destruct v|].
    apply Forall_fmap, Forall_true. intros x. apply exp_pos.
  - intros x _. cbn. rewrite <- exp_plus. f_equal. lra.
Qed.

Lemma zip_with_shifted (f g : R → R → R) (d : R) (a row : list R) :
  (∀ x y, g x y = f x y + d) → zip_with g a row = shift d (zip_with f a row).
Proof.
  intros Hfg. revert row. induction a as [|x a IH]; intros [|y row]; try done.
  cbn [zip_with shift fmap list_fmap]. by rewrite Hfg, IH.
Qed.

Section cells.
Context (N : nat) (trans : list (list R)).
Context (HN : (0 < N)%nat) (Htrans : shape2 N N trans).

Lemma forward_cell_shift_emission (d : R) (a u : list R) :
  length a = N → forward_cell trans a (shift d u) = shift d (forward_cell trans a u).
Proof using All.
  intros Ha. destruct Htrans as [_ Htr]. unfold forward_cell. clear Htrans.
  revert u. induction Htr as [|row trans' Hrow _ IH]; intros [|ui u]; try done.
  cbn [shift fmap list_fmap zip_with]. f_equal; [|apply IH].
  rewrite <- R_lse_shift.
  - f_equal. apply zip_with_shifted. intros x y. cbn. lra.
  - intros Hnil. apply (f_equal length) in Hnil.
    rewrite length_zip_with in Hnil. cbn in Hnil. lia.
Qed.

Lemma forward_cell_shift (d : R) (a u : list R) :
  length a = N → forward_cell trans (shift d a) u = shift d (forward_cell trans a u).
Proof using All.
  intros Ha. destruct Htrans as [_ Htr]. unfold forward_cell. clear Htrans.
  revert u. induction Htr as [|row trans' Hrow _ IH]; intros [|ui u]; try done.
  cbn [shift fmap list_fmap zip_with]. f_equal; [|apply IH].
  rewrite <- R_lse_shift.
  - f_equal. unfold shift at 1. rewrite zip_with_fmap_l.
    apply zip_with_shifted. intros x y. cbn. lra.
  - intros Hnil. apply (f_equal length) in Hnil.
    rewrite length_zip_with in Hnil. cbn in Hnil. lia.
Qed.

Lemma forward_run_length (us : list (list R)) :
  Forall (λ u, length u = N) us →
  ∀ a, length a = N → length (forward_run trans a us) = N.
Proof using Htrans.
  clear HN. destruct Htrans as [Htl _].
  induction 1 as [|u us Hu _ IH]; intros a Ha; [done|].
  cbn. apply IH. rewrite forward_cell_length. lia.
Qed.

Lemma forward_run_shift (d : R) (us : list (list R)) :
  Forall (λ u, length u = N) us →
  ∀ a, length a = N →
    forward_run trans (shift d a) us = shift d (forward_run trans a us).
Proof using All.
  destruct Htrans as [Htl _].
  induction 1 as [|u us Hu _ IH]; intros a Ha; [done|].
  change (forward_run trans ?a (u :: us)) with (forward_run trans (forward_cell trans a u) us).
  rewrite forward_cell_shift by done. apply IH. rewrite forward_cell_length. lia.
Qed.

Lemma forward_run_shift_emission (d : R) (us : list (list R)) :
  Forall (λ u, length u = N) us →
  ∀ (t : nat) (a : list R), length a = N → (t < length us)%nat →
    forward_run trans a (alter (shift d) t us) = shift d (forward_run trans a us).
Proof using All.
  pose proof Htrans as [Htl _].
  induction 1 as [|u us Hu Hus IH]; intros t a Ha Ht; [cbn in Ht; lia|].
  assert (Hc : length (forward_cell trans a u) = N)
    by (rewrite forward_cell_length; lia).
  destruct t as [|t]; cbn [alter list_alter].
  - change (forward_run trans a (?u :: us))
      with (forward_run trans (forward_cell trans a u) us).
    rewrite forward_cell_shift_emission by done. by apply forward_run_shift.
  - change (forward_run trans a (u :: ?us))
      with (forward_run trans (forward_cell trans a u) us).
    apply IH; [done | cbn in Ht; lia].
Qed.

Lemma forward1_shift_emission (d : R) (st en : nat) (us : list (list R)) (t : nat) :
  (en < N)%nat → Forall (λ u, length u = N) us → (t < length us)%nat →
  forward1 trans st en (alter (shift d) t us) = forward1 trans st en us + d.
Proof using All.
  intros Hen Hus Ht. unfold forward1. pose proof Htrans as [Htl _]. rewrite Htl.
  pose proof (init_alpha_length N st : length (init_alpha N st : list R) = N) as Ha0.
  rewrite forward_run_shift_emission by done.
  rewrite zip_with_shift_l. apply R_lse_shift. intros Hnil.
  apply (f_equal length) in Hnil.
  rewrite length_zip_with, forward_run_length, (trans_row_length N) in Hnil by done.
  cbn in Hnil. lia.
Qed.

Lemma tail_score_shift_emission (d : R) (en : nat) (q : list nat) :
  Forall (λ k, (k < N)%nat) q →
  ∀ (us : list (list R)) (t prev : nat),
    Forall (λ u, length u = N) us → (t < length q)%nat → (length q ≤ length us)%nat →
    tail_score trans en prev (alter (shift d) t us) q
    = tail_score trans en prev us q + d.
Proof using Type.
  clear HN Htrans.
  induction 1 as [|k q Hk _ IH]; intros us t prev Hus Ht Hlen; [cbn in Ht; lia|].
  destruct us as [|u us]; [cbn in Hlen; lia|].
  apply Forall_cons_1 in Hus as [Hu Hus].
  destruct t as [|t]; cbn [alter list_alter tail_score].
  - unfold shift at 1. rewrite (list_lookup_total_fmap (λ x : R, x ⊕ d) u k) by lia. cbn. lra.
  - rewrite IH by (done || cbn in *; lia). cbn. lra.
Qed.
End cells.

(** X11.  In a batch padded to its longest element (some length is the
    padded width [T]), adding a constant to all the emissions of a batch
    element at one time step leaves the loss of the element unchanged: the
    forward score and the gold score move together. *)
Theorem loss_emission_shift (self : CRF R) (T B N st en : nat)
    (unary unary' : list (list (list R))) (tags : list (list Z)) (lengths : list Z)
    (b : nat) (l : Z) (us : list (list R)) (t : nat) (d : R) :
  crf_ok self N st en → shape3 T B N (time_major self unary) →
  shape3 T B N (time_major self unary') → tags_ok T B N (time_major self tags) →
  lengths_ok T B lengths → Z.of_nat T ∈ lengths → lengths !! b = Some l →
  emissions_of self unary b us →
  emissions_of self unary' b (alter (shift d) t us) →
  is_Some (loss_at self unary tags lengths b) ∧
  loss_at self unary' tags lengths b = loss_at self unary tags lengths b.
Proof.
  intros Hcrf Hun Hun' Htags Hlen Hlong Hl Hus Hus'.
  destruct (lengths_ok_lookup T B lengths b l Hlen Hl) as (Hb & _ & _ & Hlr & HlT).
  destruct (gold_tags_exist self T B N tags b Htags Hb) as [gs Hgs].
  destruct (shape3_col T B N _ b us Hun Hus) as [HusT HusN].
  pose proof Hcrf as (_ & _ & _ & Hst & Hen & Htr).
  rewrite (loss_at_element self T B N st en unary tags lengths b l us gs) by done.
  rewrite (loss_at_element self T B N st en unary' tags lengths b l _ gs) by done.
  split; [done|]. f_equal.
  set (q := Z.to_nat <$> take (Z.to_nat l) gs).
  destruct (gold_path_valid T B N (time_major self tags) b gs (Z.to_nat l) Htags Hgs HlT)
    as [Hql Hqr]. fold q in Hql, Hqr.
  assert (Hal : length (alter (shift d) t us) = T) by (by rewrite length_alter).
  rewrite <- (path_score_take _ _ _ (Z.to_nat l) (alter _ _ _)) by lia.
  rewrite <- (path_score_take _ _ _ (Z.to_nat l) us) by lia.
  destruct (decide (t < Z.to_nat l)%nat) as [Ht | Ht].
  - rewrite take_alter_lt by done.
    rewrite (forward1_shift_emission N) by
      (done || lia || (by apply Forall_take) || (rewrite length_take; lia)).
    rewrite !path_score_tail by (rewrite ?length_alter, length_take; lia).
    rewrite (tail_score_shift_emission N) by
      (done || lia || (by apply Forall_take) || (rewrite length_take; lia)).
    cbn. lra.
  - by rewrite take_alter_ge by lia.
Qed.
End loss_shift.

(** * A freshly constructed layer *)

Section fresh.
Context {V : Type} `{ScoreLaws V} `{!ScoreCancel V}.
#[local] Existing Instance score_inhabited.






End fresh.

(** * The mask keeps invalid transitions out of the decoded path *)

Section masked.
Local Open Scope R_scope.
#[local] Existing Instance score_inhabited.

Context (self : CRF R) (N en : nat) (m : list (list bool)) (c : R).
Context (Hmask : mask self = Some m).
Context (Hm : shape2 N N m) (Hp : shape2 N N (transitions_p self)).
Context (Hc : 0 <= c).
Context (Hpc : Forall (Forall (λ x, - c <= x <= c)) (transitions_p self)).

Lemma transitions_masked (i j : nat) :
  (i < N)%nat → (j < N)%nat →
  (transitions self !!! i) !!! j
  = if ((m !!! i) !!! j : bool) then -10000 else (transitions_p self !!! i) !!! j.
Proof using Hmask Hm Hp.
  intros Hi Hj. destruct Hm as [Hml Hmr], Hp as [Hpl Hpr].
  unfold transitions. rewrite Hmask.
  assert (Hmi : m !! i = Some (m !!! i)) by (apply list_lookup_lookup_total_lt; lia).
  assert (Hpi : transitions_p self !! i = Some (transitions_p self !!! i))
    by (apply list_lookup_lookup_total_lt; lia).
  rewrite Forall_lookup in Hmr. rewrite Forall_lookup in Hpr.
  pose proof (Hmr _ _ Hmi) as Hmil. pose proof (Hpr _ _ Hpi) as Hpil.
  erewrite (list_lookup_total_correct (zip_with _ _ _) i);
    [|by rewrite lookup_zip_with, Hpi, Hmi].
  apply list_lookup_total_correct. unfold masked_fill.
  rewrite lookup_zip_with.
  rewrite (list_lookup_lookup_total_lt (transitions_p self !!! i) j) by lia.
  rewrite (list_lookup_lookup_total_lt (m !!! i) j) by lia. done.
Qed.

Lemma parameter_bounded (i j : nat) :
  (i < N)%nat → (j < N)%nat → - c <= (transitions_p self !!! i) !!! j <= c.
Proof using Hp Hpc.
  intros Hi Hj. destruct Hp as [Hpl Hpr].
  assert (Hpi : transitions_p self !! i = Some (transitions_p self !!! i))
    by (apply list_lookup_lookup_total_lt; lia).
  rewrite Forall_lookup in Hpr. pose proof (Hpr _ _ Hpi) as Hpil.
  rewrite Forall_lookup in Hpc. pose proof (Hpc _ _ Hpi) as Hrow.
  rewrite Forall_lookup in Hrow. apply (Hrow j).
  apply list_lookup_lookup_total_lt. lia.
Qed.

Lemma transition_le (i j : nat) :
  (i < N)%nat → (j < N)%nat → (transitions self !!! i) !!! j <= c.
Proof using Hmask Hm Hp Hc Hpc.
  intros Hi Hj. rewrite transitions_masked by done.
  pose proof (parameter_bounded i j Hi Hj). destruct ((m !!! i) !!! j); lra.
Qed.

Lemma transition_allowed_ge (i j : nat) :
  (i < N)%nat → (j < N)%nat → (m !!! i) !!! j = false →
  - c <= (transitions self !!! i) !!! j.
Proof using Hmask Hm Hp Hpc.
  intros Hi Hj Hf. rewrite transitions_masked, Hf by done.
  by apply parameter_bounded.
Qed.

Lemma transition_masked_eq (i j : nat) :
  (i < N)%nat → (j < N)%nat → (m !!! i) !!! j = true →
  (transitions self !!! i) !!! j = -10000.
Proof using Hmask Hm Hp.
  intros Hi Hj Hf. by rewrite transitions_masked, Hf by done.
Qed.

Lemma emission_bounded (u : list R) (k : nat) :
  length u = N → Forall (λ x, - c <= x <= c) u → (k < N)%nat → - c <= u !!! k <= c.
Proof using Type.
  intros Hu Hb Hk. rewrite Forall_lookup in Hb. apply (Hb k).
  apply list_lookup_lookup_total_lt. lia.
Qed.

(** Every path scores at most [c] per term; a path through a masked
    transition loses 1e4 on it; an allowed path scores at least [-c] per
    term. *)
Lemma tail_score_bounds (q : list nat) :
  (en < N)%nat → Forall (λ k, (k < N)%nat) q →
  ∀ (prev : nat) (us : list (list R)),
    (prev < N)%nat → bounded_emissions N c us → (length q ≤ length us)%nat →
    let s := tail_score (transitions self) en prev us q in
    let len := INR (length q) in
    s <= (2 * len + 1) * c ∧
    (allowed_from m en prev q = false → s <= 2 * len * c - 10000) ∧
    (allowed_from m en prev q = true → - ((2 * len + 1) * c) <= s).
Proof using Hmask Hm Hp Hc Hpc.
  intros Hen. induction 1 as [|k q Hk _ IH]; intros prev us Hprev Hus Hlen.
  - cbn [tail_score allowed_from length INR].
    pose proof (transition_le en prev Hen Hprev) as Hle.
    split; [lra|]. split.
    + intros Ha. apply negb_false_iff in Ha.
      rewrite (transition_masked_eq en prev Hen Hprev Ha). lra.
    + intros Ha. apply negb_true_iff in Ha.
      pose proof (transition_allowed_ge en prev Hen Hprev Ha). lra.
  - destruct us as [|u us]; [cbn in Hlen; lia|].
    apply Forall_cons_1 in Hus as [[Hul Hub] Hus].
    destruct (IH k us Hk Hus ltac:(cbn in Hlen; lia)) as (IH1 & IH2 & IH3).
    cbv zeta in IH1, IH2, IH3 |- *.
    cbn [tail_score allowed_from length]. rewrite S_INR.
    set (len := INR (length q)) in *.
    set (s := tail_score (transitions self) en k us q) in *.
    pose proof (transition_le k prev Hk Hprev) as Hle.
    pose proof (emission_bounded u k Hul Hub Hk) as Hem.
    cbn [sadd R_score]. split; [lra|]. split.
    + intros Ha. apply andb_false_iff in Ha as [Ha | Ha].
      * apply negb_false_iff in Ha.
        rewrite (transition_masked_eq k prev Hk Hprev Ha). lra.
      * specialize (IH2 Ha). lra.
    + intros Ha. apply andb_true_iff in Ha as [Ha1 Ha2].
      apply negb_true_iff in Ha1.
      pose proof (transition_allowed_ge k prev Hk Hprev Ha1). specialize (IH3 Ha2). lra.
Qed.
End masked.

Section masked_decode.
Local Open Scope R_scope.
#[local] Existing Instance score_inhabited.

(** X13.  With a mask, emissions and parameter entries of magnitude at most [c],
    [(4 * length + 2) * c < 1e4] and some path that the mask allows, the
    path that [decode] returns takes only allowed transitions, from START
    to END; its score is its total path score, the highest of all
    paths. *)
Theorem masked_transitions_are_not_decoded (self : CRF R) (T B N st en : nat)
    (m : list (list bool)) (c : R) (unary : list (list (list R)))
    (lengths : list Z) (b : nat) (l : Z) (us : list (list R)) (q0 : list nat) :
  crf_ok self N st en → mask self = Some m → shape2 N N m →
  shape2 N N (transitions_p self) →
  shape3 T B N (time_major self unary) → lengths_ok T B lengths →
  lengths !! b = Some l → emissions_of self unary b us →
  0 <= c → (4 * IZR l + 2) * c < 10000 →
  Forall (Forall (λ x, - c <= x <= c)) (transitions_p self) →
  Forall (Forall (λ x, - c <= x <= c)) (take (Z.to_nat l) us) →
  valid_path N (Z.to_nat l) q0 → allowed_from m en st q0 = true →
  ∃ path score,
    decode_at self unary lengths b = Some (path, score) ∧
    allowed_from m en st path = true ∧
    score = path_score (transitions self) st en us path ∧
    ∀ q, valid_path N (Z.to_nat l) q →
      path_score (transitions self) st en us q <= score.
Proof.
  intros Hcrf Hmask Hm Hp Hun Hlen Hl Hus Hc Hsmall Hpc Huc [Hq0l Hq0r] Hq0a.
  destruct (lengths_ok_lookup T B lengths b l Hlen Hl) as (Hb & _ & _ & Hlr & HlT).
  destruct (shape3_col T B N _ b us Hun Hus) as [HusT HusN].
  pose proof Hcrf as (_ & _ & _ & Hst & Hen & Htr).
  rewrite (decode_elements self T B N st en unary lengths b l us) by done.
  set (us' := take (Z.to_nat l) us) in *.
  assert (Hus' : Forall (λ u, length u = N) us') by (by apply Forall_take).
  assert (Htk : length us' = Z.to_nat l) by (unfold us'; rewrite length_take; lia).
  assert (Hbe : bounded_emissions N c us').
  { apply Forall_lookup. intros t u Hu. rewrite Forall_lookup in Hus'.
    rewrite Forall_lookup in Huc. eauto. }
  destruct (viterbi1_valid_path N st en (transitions self) us') as [Hpl Hpr]; try done.
  destruct (viterbi1_weighted_optimal N st en (transitions self) us')
    as [(j & Hj & Hatt) Hwopt]; try done.
  set (path := (viterbi1 (transitions self) st en us').1) in *.
  set (score := (viterbi1 (transitions self) st en us').2) in *.
  assert (Hlen' : INR (Z.to_nat l) = IZR l) by (rewrite INR_IZR_INZ, Z2Nat.id; [done | lia]).
  assert (Hbounds : ∀ prev q, (prev < N)%nat → valid_path N (Z.to_nat l) q →
            let s := path_score (transitions self) prev en us' q in
            s <= (2 * IZR l + 1) * c ∧
            (allowed_from m en prev q = false → s <= 2 * IZR l * c - 10000) ∧
            (allowed_from m en prev q = true → - ((2 * IZR l + 1) * c) <= s)).
  { intros prev q Hprev [Hql Hqr]. cbv zeta. rewrite path_score_tail by lia.
    rewrite <- Hlen', <- Hql.
    apply (tail_score_bounds self N en m c Hmask Hm Hp Hc Hpc q Hen Hqr prev us');
      (done || lia). }
  assert (Hfrom_start : ∀ q, valid_path N (Z.to_nat l) q →
            path_score (transitions self) st en us' q <= score).
  { intros q Hq. apply R_sleb_le.
    rewrite <- (sadd_0_l (path_score _ _ _ _ _)), <- (init_alpha_start N st Hst).
    apply Hwopt; [done|]. by rewrite Htk. }
  assert (Hlow : - ((2 * IZR l + 1) * c) <= score).
  { destruct (Hbounds st q0 Hst ltac:(by split)) as (_ & _ & Hge).
    specialize (Hge Hq0a). pose proof (Hfrom_start q0 ltac:(by split)). lra. }
  assert (Hpv : valid_path N (Z.to_nat l) path) by (split; [lia | done]).
  destruct (Hbounds j path Hj Hpv) as (Hup & Hbad & _). cbv zeta in Hup, Hbad.
  assert (Hjst : j = st).
  { destruct (decide (j = st)) as [-> | Hne]; [done|]. exfalso.
    rewrite init_alpha_other in Hatt by done. cbn [sadd sneg1e4 R_score] in Hatt. lra. }
  subst j. rewrite init_alpha_start in Hatt by done.
  cbn [sadd s0 R_score] in Hatt. rewrite Rplus_0_l in Hatt.
  assert (Hps : ∀ q, length q = Z.to_nat l →
            path_score (transitions self) st en us q
            = path_score (transitions self) st en us' q).
  { intros q Hq. symmetry. apply path_score_take; lia. }
  exists path, score.
  split; [unfold path, score; by rewrite <- surjective_pairing|]. split; [|split].
  - destruct (allowed_from m en st path) eqn:Ha; [done | exfalso].
    specialize (Hbad eq_refl). lra.
  - rewrite Hps by lia. done.
  - intros q Hq. rewrite Hps by (by destruct Hq). by apply Hfrom_start.
Qed.
End masked_decode.

(** * The representation string *)

Section repr_props.
Context {V : Type} `{Score V}.
#[local] Arguments String.append : simpl nomatch.

Lemma pretty_N_go_no_comma (x : N) :
  ∀ s, occurs ","%char s = false → occurs ","%char (pretty_N_go x s) = false.
Proof.
  induction (N.lt_wf_0 x) as [x _ IH]. intros s Hs.
  assert (x = 0 ∨ 0 < x)%N as [->|Hx] by lia.
  - by rewrite pretty_N_go_0.
  - rewrite pretty_N_go_step by done. apply IH.
    { by apply N.div_lt. }
    cbn [occurs]. rewrite Hs, orb_false_r. apply bool_decide_eq_false_2.
    unfold pretty_N_char. by repeat case_match.
Qed.

Lemma pretty_Z_no_comma (z : Z) : occurs ","%char (pretty z) = false.
Proof.
  assert (HN : ∀ n : N, occurs ","%char (pretty n) = false).
  { intros n. unfold pretty, pretty_N. case_decide; [done|].
    by apply pretty_N_go_no_comma. }
  destruct z as [|p|p]; [done | apply (HN (N.pos p)) |].
  change (occurs "," (String.String "-" (pretty p)) = false). cbn [occurs].
  rewrite bool_decide_eq_false_2 by done. apply (HN (N.pos p)).
Qed.

(** Two strings without the character [c], each followed by [c]: equal
    wholes have equal parts. *)
Lemma split_at_char (c : Ascii.ascii) (s1 s2 t1 t2 : string) :
  occurs c s1 = false → occurs c s2 = false →
  s1 +:+ String.String c t1 = s2 +:+ String.String c t2 → s1 = s2 ∧ t1 = t2.
Proof.
  revert s2. induction s1 as [|a s1 IH]; intros [|a' s2]; cbn [occurs String.append].
  - intros _ _ [= ->]. done.
  - intros _ Ho [= <- _]. by rewrite bool_decide_eq_true_2 in Ho.
  - intros Ho _ [= -> _]. by rewrite bool_decide_eq_true_2 in Ho.
  - intros Ho1 Ho2 [= -> Heq].
    apply orb_false_iff in Ho1 as [_ Ho1]. apply orb_false_iff in Ho2 as [_ Ho2].
    destruct (IH s2 Ho1 Ho2 Heq) as [-> ->]. done.
Qed.

Lemma string_app_assoc (s1 s2 s3 : string) :
  (s1 +:+ s2) +:+ s3 = s1 +:+ (s2 +:+ s3).
Proof. induction s1 as [|a s1 IH]; [done|]. cbn [String.append]. by rewrite IH. Qed.

(** The parts of the representation. *)
Lemma extra_repr_parts (self : CRF V) :
  extra_repr self
  = "n_tags=" +:+ (pretty (n_tags self) +:+ String.String ","%char
      (" batch_first=" +:+ ((if batch_first self then "True" else "False")
         +:+ (if mask self is Some _ then ", masked=True" else "")))).
Proof.
  unfold extra_repr. destruct (mask self).
  - by rewrite !string_app_assoc.
  - by destruct (batch_first self).
Qed.

(** X14.  The representation of a layer shows its number of tags, its layout
    and whether it has a mask, and nothing else: two layers have the same
    representation exactly when they agree on these three. *)
Theorem extra_repr_determines (self self' : CRF V) :
  extra_repr self = extra_repr self' ↔
  n_tags self = n_tags self' ∧ batch_first self = batch_first self' ∧
  (is_Some (mask self) ↔ is_Some (mask self')).
Proof.
  rewrite !extra_repr_parts. split.
  - intros Heq. apply (inj (String.append "n_tags=")) in Heq.
    apply split_at_char in Heq as [Hn Hrest]; [|apply pretty_Z_no_comma..].
    apply (inj pretty) in Hn. apply (inj (String.append " batch_first=")) in Hrest.
    split; [done|].
    destruct (batch_first self), (batch_first self'), (mask self), (mask self');
      try discriminate Hrest; (split; [done|]); split; intros [? ?]; eauto;
      discriminate.
  - intros (Hn & Hb & Hm). rewrite Hn, Hb.
    destruct (mask self), (mask self'); try done.
    + destruct Hm as [Hm _]. by destruct (Hm ltac:(eauto)).
    + destruct Hm as [_ Hm]. by destruct (Hm ltac:(eauto)).
Qed.
End repr_props.

(** * The loss of an element depends on the element alone *)

Section loss_independence.
Context {V : Type} `{ScoreLaws V} `{LogSumExp V}.
#[local] Existing Instance score_inhabited.

(** X15.  The gold score and the loss of a batch element depend only on its
    own emissions and gold tags before its length: they are the same in any
    two valid batches, each padded to its longest element (some length is
    the padded width) and with any other elements, in which the element
    has the same length and the same first [length] emission vectors and
    gold tags. *)
Theorem loss_padding_and_batch_independence (self : CRF V) (T B T' B' N st en : nat)
    (unary unary' : list (list (list V))) (tags tags' : list (list Z))
    (lengths lengths' : list Z) (b b' : nat) (l : Z)
    (us us' : list (list V)) (gs gs' : list Z) :
  crf_ok self N st en →
  shape3 T B N (time_major self unary) → tags_ok T B N (time_major self tags) →
  lengths_ok T B lengths → Z.of_nat T ∈ lengths →
  shape3 T' B' N (time_major self unary') → tags_ok T' B' N (time_major self tags') →
  lengths_ok T' B' lengths' → Z.of_nat T' ∈ lengths' →
  lengths !! b = Some l → lengths' !! b' = Some l →
  emissions_of self unary b us → emissions_of self unary' b' us' →
  gold_tags_of self tags b gs → gold_tags_of self tags' b' gs' →
  take (Z.to_nat l) us = take (Z.to_nat l) us' →
  take (Z.to_nat l) gs = take (Z.to_nat l) gs' →
  is_Some (loss_at self unary tags lengths b) ∧
  loss_at self unary tags lengths b = loss_at self unary' tags' lengths' b' ∧
  gold_score_at self (time_major self unary) (time_major self tags) lengths B b
  = gold_score_at self (time_major self unary') (time_major self tags') lengths' B' b'.
Proof.
  intros Hcrf Hun Htags Hlen Hlong Hun' Htags' Hlen' Hlong' Hl Hl' Hus Hus' Hgs Hgs'
    Heu Heg.
  destruct (lengths_ok_lookup T B lengths b l Hlen Hl) as (Hb & _ & _ & Hlr & HlT).
  destruct (lengths_ok_lookup T' B' lengths' b' l Hlen' Hl') as (Hb' & _ & _ & _ & HlT').
  destruct (shape3_col T B N _ b us Hun Hus) as [HusT _].
  destruct (shape3_col T' B' N _ b' us' Hun' Hus') as [HusT' _].
  rewrite (loss_at_element self T B N st en unary tags lengths b l us gs) by done.
  rewrite (loss_at_element self T' B' N st en unary' tags' lengths' b' l us' gs') by done.
  rewrite (gold_score_at_element self T B N st en _ _ lengths b l us gs) by done.
  rewrite (gold_score_at_element self T' B' N st en _ _ lengths' b' l us' gs') by done.
  assert (Hps : path_score (transitions self) st en us (Z.to_nat <$> take (Z.to_nat l) gs)
                = path_score (transitions self) st en us'
                    (Z.to_nat <$> take (Z.to_nat l) gs')).
  { assert (Hgl : length gs = T) by (by rewrite (is_col_length _ _ _ Hgs); destruct Htags).
    rewrite <- (path_score_take _ _ _ (Z.to_nat l) us)
      by (rewrite ?length_fmap, ?length_take; lia).
    rewrite Heu, Heg. apply path_score_take; [|lia].
    assert (Hgl' : length gs' = T')
      by (by rewrite (is_col_length _ _ _ Hgs'); destruct Htags').
    rewrite length_fmap, length_take. lia. }
  rewrite Hps, Heu. eauto.
Qed.
End loss_independence.

(** * A mask that masks nothing *)

Section no_mask.
Context {V : Type} `{Score V} `{LogSumExp V}.

Lemma masked_fill_nothing {A : Type} (row : list A) (mrow : list bool) (v : A) :
  length mrow = length row → Forall (λ x, x = false) mrow →
  masked_fill row mrow v = row.
Proof.
  intros Hlen Hm. unfold masked_fill. revert row Hlen.
  induction Hm as [|x mrow -> _ IH]; intros [|y row] Hlen; try done.
  cbn. f_equal. apply IH. by injection Hlen.
Qed.

Lemma transitions_without_mask (self : CRF V) (N : nat) (m : list (list bool)) :
  mask self = Some m → shape2 N N (transitions_p self) → shape2 N N m →
  Forall (Forall (λ x, x = false)) m →
  transitions self = transitions (without_mask self).
Proof.
  intros Hmask [Hpl Hpr] [Hml Hmr] Hm. unfold transitions. rewrite Hmask.
  cbn [mask without_mask transitions_p].
  assert (Hlen : length m = length (transitions_p self)) by lia.
  clear Hpl Hml Hmask. revert m Hlen Hmr Hm.
  induction Hpr as [|row p Hrow _ IH]; intros [|mrow m] Hlen Hmr Hm; try done.
  apply Forall_cons_1 in Hmr as [Hmrow Hmr]. apply Forall_cons_1 in Hm as [Hf Hm].
  cbn [zip_with]. f_equal.
  - apply masked_fill_nothing; [lia | done].
  - apply IH; [by injection Hlen | done | done].
Qed.

(** X16.  A mask that marks every transition valid changes nothing: the
    effective transitions are the parameter, and [forward],
    [score_sentence], [neg_log_loss] and [decode] return what they return
    for the layer without a mask. *)
Theorem all_valid_mask_is_no_mask (self : CRF V) (N : nat) (m : list (list bool))
    (unary : list (list (list V))) (tags : list (list Z)) (lengths : list Z)
    (batch_size : nat) :
  mask self = Some m → shape2 N N (transitions_p self) → shape2 N N m →
  Forall (Forall (λ x, x = false)) m →
  transitions self = transitions_p self ∧
  forward self unary lengths batch_size
  = forward (without_mask self) unary lengths batch_size ∧
  score_sentence self unary tags lengths batch_size
  = score_sentence (without_mask self) unary tags lengths batch_size ∧
  neg_log_loss self unary tags lengths
  = neg_log_loss (without_mask self) unary tags lengths ∧
  decode self unary lengths = decode (without_mask self) unary lengths.
Proof.
  intros Hmask Hp Hms Hm.
  pose proof (transitions_without_mask self N m Hmask Hp Hms Hm) as Htr.
  assert (Hf : ∀ u B, forward self u lengths B = forward (without_mask self) u lengths B).
  { intros u B. unfold forward. by rewrite Htr. }
  assert (Hs : ∀ u t B, score_sentence self u t lengths B
                        = score_sentence (without_mask self) u t lengths B).
  { intros u t B. unfold score_sentence. by rewrite Htr. }
  split; [by rewrite Htr|]. split; [apply Hf|]. split; [apply Hs|]. split.
  - unfold neg_log_loss, time_major. cbn [batch_first without_mask].
    by rewrite Hf, Hs.
  - unfold decode. by rewrite Htr.
Qed.
End no_mask.

(** * Scores grow with the emissions *)

Section monotone.
Context {V : Type} `{ScoreLaws V}.
#[local] Existing Instance score_inhabited.

Lemma emissions_le_lookup (u u' : list V) (k : nat) :
  Forall2 (λ x y, x ⊑ y) u u' → u !!! k ⊑ u' !!! k.
Proof.
  intros Hle. destruct (u !! k) as [x|] eqn:Hx.
  - destruct (Forall2_lookup_l _ _ _ _ _ Hle Hx) as (y & Hy & Hxy).
    by rewrite (list_lookup_total_correct _ _ _ Hx), (list_lookup_total_correct _ _ _ Hy).
  - assert (Hlen : length u = length u') by (by eapply Forall2_length).
    apply lookup_ge_None in Hx.
    rewrite !list_lookup_total_alt, !lookup_ge_None_2 by lia. apply sleb_refl.
Qed.

Lemma tail_score_mono (trans : list (list V)) (en : nat) (q : list nat) :
  ∀ (prev : nat) (us us' : list (list V)),
    emissions_le us us' →
    tail_score trans en prev us q ⊑ tail_score trans en prev us' q.
Proof.
  induction q as [|k q IH]; intros prev us us' Hle; [apply sleb_refl|].
  destruct Hle as [|u u' us us' Hu Hle]; [apply sleb_refl|].
  cbn [tail_score]. apply sadd_mono; [|by apply IH].
  apply sadd_mono_r. by apply emissions_le_lookup.
Qed.

(** X17.  The path score that [decode] returns for a batch element never
    decreases when emissions of the element are raised: if the emissions of
    one batch are, entry by entry before the length, at most those of
    another, so are the returned path scores. *)
Theorem decode_score_monotone (self : CRF V) (T B N st en : nat)
    (unary unary' : list (list (list V))) (lengths : list Z) (b : nat) (l : Z)
    (us us' : list (list V)) :
  crf_ok self N st en → shape3 T B N (time_major self unary) →
  shape3 T B N (time_major self unary') →
  lengths_ok T B lengths → lengths !! b = Some l →
  emissions_of self unary b us → emissions_of self unary' b us' →
  emissions_le (take (Z.to_nat l) us) (take (Z.to_nat l) us') →
  ∃ path score path' score',
    decode_at self unary lengths b = Some (path, score) ∧
    decode_at self unary' lengths b = Some (path', score') ∧
    score ⊑ score'.
Proof.
  intros Hcrf Hun Hun' Hlen Hl Hus Hus' Hle.
  destruct (lengths_ok_lookup T B lengths b l Hlen Hl) as (Hb & _ & _ & Hlr & HlT).
  destruct (shape3_col T B N _ b us Hun Hus) as [HusT HusN].
  destruct (shape3_col T B N _ b us' Hun' Hus') as [HusT' HusN'].
  pose proof Hcrf as (_ & _ & _ & Hst & Hen & Htr).
  rewrite (decode_elements self T B N st en unary lengths b l us) by done.
  rewrite (decode_elements self T B N st en unary' lengths b l us') by done.
  set (v := take (Z.to_nat l) us) in *. set (v' := take (Z.to_nat l) us') in *.
  assert (Hv : Forall (λ u, length u = N) v) by (by apply Forall_take).
  assert (Hv' : Forall (λ u, length u = N) v') by (by apply Forall_take).
  assert (Hvl : length v = length v')
    by (unfold v, v'; rewrite !length_take; lia).
  destruct (viterbi1_valid_path N st en (transitions self) v) as [Hpl Hpr]; try done.
  destruct (viterbi1_weighted_optimal N st en (transitions self) v)
    as [(j & Hj & Hatt) _]; try done.
  destruct (viterbi1_weighted_optimal N st en (transitions self) v')
    as [_ Hopt']; try done.
  eexists _, _, _, _. split; [by rewrite <- surjective_pairing|].
  split; [by rewrite <- surjective_pairing|].
  rewrite <- Hatt.
  eapply sleb_trans;
    [|apply (Hopt' j (viterbi1 (transitions self) st en v).1 Hj); split; [lia | done]].
  apply sadd_mono_l. rewrite !path_score_tail by lia. by apply tail_score_mono.
Qed.
End monotone.

Section forward_monotone.
Local Open Scope R_scope.
#[local] Existing Instance score_inhabited.

Lemma R_sum_list_mono (v v' : list R) :
  Forall2 Rle v v' → R_sum_list v <= R_sum_list v'.
Proof.
  induction 1 as [|x y v v' Hxy _ IH]; [lra|]. rewrite !R_sum_list_cons. lra.
Qed.

Lemma R_lse_mono (v v' : list R) :
  Forall2 (λ x y, x ⊑ y) v v' → vec_log_sum_exp v ⊑ vec_log_sum_exp v'.
Proof.
  intros Hle. apply R_sleb_le. destruct Hle as [|x y v v' Hxy Hle]; [lra|].
  rewrite !R_lse_eq by done. apply ln_le_mono.
  - apply R_sum_list_pos; [done|]. apply Forall_fmap, Forall_true. intros z. apply exp_pos.
  - apply R_sum_list_mono, Forall2_fmap. constructor.
    + by apply exp_le, R_sleb_le.
    + clear Hxy. induction Hle as [|a c v v' Hac _ IH]; constructor;
        [by apply exp_le, R_sleb_le | done].
Qed.

Lemma forward_cell_mono (trans : list (list R)) (a a' u u' : list R) :
  Forall2 (λ x y, x ⊑ y) a a' → Forall2 (λ x y, x ⊑ y) u u' →
  Forall2 (λ x y, x ⊑ y) (forward_cell trans a u) (forward_cell trans a' u').
Proof.
  intros Ha Hu. unfold forward_cell. revert trans.
  induction Hu as [|ui ui' u u' Hui _ IH]; intros [|row trans]; cbn [zip_with];
    try constructor; [|apply IH].
  apply R_lse_mono. clear IH. revert row.
  induction Ha as [|x y a a' Hxy _ IHa]; intros [|t row]; cbn [zip_with];
    try constructor; [|apply IHa].
  apply R_sleb_le in Hxy, Hui. apply R_sleb_le. cbn. lra.
Qed.

Lemma forward_run_mono (trans : list (list R)) (us us' : list (list R)) :
  emissions_le us us' →
  ∀ a a', Forall2 (λ x y, x ⊑ y) a a' →
    Forall2 (λ x y, x ⊑ y) (forward_run trans a us) (forward_run trans a' us').
Proof.
  induction 1 as [|u u' us us' Hu _ IH]; intros a a' Ha; [done|].
  cbn. apply IH. by apply forward_cell_mono.
Qed.

Lemma forward1_mono (trans : list (list R)) (st en : nat) (us us' : list (list R)) :
  emissions_le us us' → forward1 trans st en us <= forward1 trans st en us'.
Proof.
  intros Hle. apply R_sleb_le. unfold forward1. apply R_lse_mono.
  assert (Hrun := forward_run_mono trans us us' Hle (init_alpha (length trans) st)
                    (init_alpha (length trans) st)
                    ltac:(apply Forall_Forall2_diag, Forall_true; intros x; apply sleb_refl)).
  revert Hrun. generalize (forward_run trans (init_alpha (length trans) st) us)
                          (forward_run trans (init_alpha (length trans) st) us')
                          (trans !!! en).
  intros r r' te Hr. revert te.
  induction Hr as [|x y r r' Hxy _ IH]; intros [|t te]; cbn [zip_with];
    try constructor; [|apply IH].
  apply R_sleb_le in Hxy. apply R_sleb_le. cbn. lra.
Qed.

(** X18.  Over real scores, the forward score of a batch element never
    decreases when emissions of the element are raised. *)
Theorem forward_score_monotone (self : CRF R) (T B N st en : nat)
    (unary unary' : list (list (list R))) (lengths : list Z) (b : nat) (l : Z)
    (us us' : list (list R)) :
  crf_ok self N st en → shape3 T B N (time_major self unary) →
  shape3 T B N (time_major self unary') →
  lengths_ok T B lengths → lengths !! b = Some l →
  emissions_of self unary b us → emissions_of self unary' b us' →
  emissions_le (take (Z.to_nat l) us) (take (Z.to_nat l) us') →
  ∃ fwd fwd',
    forward_at self (time_major self unary) lengths B b = Some fwd ∧
    forward_at self (time_major self unary') lengths B b = Some fwd' ∧
    fwd <= fwd'.
Proof.
  intros Hcrf Hun Hun' Hlen Hl Hus Hus' Hle. pose proof Hlen as [Hll _].
  rewrite (forward_at_element self T B N st en _ lengths b l us) by done.
  rewrite (forward_at_element self T B N st en _ lengths b l us') by done.
  eexists _, _. split; [reflexivity|]. split; [reflexivity|]. by apply forward1_mono.
Qed.
End forward_monotone.

(** * Batch-first and time-first layouts *)

Section layouts.
Context {A : Type}.

Lemma col_lookup (T B : nat) (t : list (list A)) (i k : nat) (r : list A) (x : A) :
  shape2 T B t → k < B → t !! i = Some r → r !! k = Some x →
  col k t !! i = Some x.
Proof.
  intros [_ Hr] Hk Hi Hx.
  destruct (is_col_exists k B t Hr Hk) as [e He].
  rewrite (is_col_col _ _ _ He).
  destruct (Forall2_lookup_l _ _ _ _ _ He Hi) as (y & Hy & Hry). congruence.
Qed.

Lemma col_length (T B : nat) (t : list (list A)) (k : nat) :
  shape2 T B t → k < B → length (col k t) = T.
Proof.
  intros [Hl Hr] Hk. destruct (is_col_exists k B t Hr Hk) as [e He].
  by rewrite (is_col_col _ _ _ He), (is_col_length _ _ _ He).
Qed.

Lemma transpose01_shape (T B : nat) (t : list (list A)) :
  0 < T → shape2 T B t → shape2 B T (transpose01 t).
Proof.
  intros HT Ht. pose proof Ht as [Hl Hr].
  destruct t as [|r0 t]; [cbn in Hl; lia|]. split.
  - by apply transpose01_length.
  - unfold transpose01. apply Forall_fmap, list.Forall_forall. intros k Hk.
    apply elem_of_seq in Hk. apply (col_length T B _ k Ht).
    inversion Hr; subst. lia.
Qed.

(** Transposing a rectangular tensor twice gives it back. *)
Lemma transpose01_involutive (T B : nat) (t : list (list A)) :
  0 < T → 0 < B → shape2 T B t → transpose01 (transpose01 t) = t.
Proof.
  intros HT HB Ht. pose proof Ht as [Hl Hr].
  pose proof (transpose01_shape T B t HT Ht) as [Hl' Hr'].
  assert (Hne : transpose01 t ≠ []) by (intros E; rewrite E in Hl'; cbn in Hl'; lia).
  apply list_eq_same_length with T; [done| |].
  { by apply transpose01_length. }
  intros i x r Hi Hx Hir.
  assert (Hrl : length r = B)
    by (by eapply (proj1 (Forall_lookup _ _) Hr)).
  rewrite (transpose01_lookup i T (transpose01 t) r Hne Hr') in Hx; [congruence| |done].
  unfold is_col. apply Forall2_same_length_lookup. split; [lia|].
  intros k c y Hc Hy.
  assert (Hk : k < B) by (rewrite <- Hrl; by eapply lookup_lt_Some).
  destruct t as [|r0 t]; [cbn in Hl; lia|]. unfold transpose01 in Hc.
  assert (Hr0 : length r0 = B) by (by inversion Hr).
  rewrite list_lookup_fmap, lookup_seq_lt in Hc by lia.
  change (Some (col k (r0 :: t)) = Some c) in Hc.
  assert (c = col k (r0 :: t)) as -> by congruence.
  by apply (col_lookup T B _ i k r y).
Qed.
End layouts.

Section layout_agreement.
Context {V : Type} `{Score V} `{LogSumExp V}.

(** X19.  The two input layouts agree: a layer that reads its inputs batch
    first returns, on the transposed emissions and gold tags, what the
    same layer reading time first returns on the emissions and gold tags
    themselves, for decoding and for the loss. *)
Theorem batch_first_layouts_agree (self : CRF V) (T B : nat)
    (unary : list (list (list V))) (tags : list (list Z)) (lengths : list Z) :
  0 < T → 0 < B → shape2 T B unary → shape2 T B tags →
  decode (with_batch_first self true) (transpose01 unary) lengths
  = decode (with_batch_first self false) unary lengths ∧
  neg_log_loss (with_batch_first self true) (transpose01 unary) (transpose01 tags)
    lengths
  = neg_log_loss (with_batch_first self false) unary tags lengths.
Proof.
  intros HT HB Hun Htags.
  unfold decode, neg_log_loss, time_major. cbn [batch_first with_batch_first].
  by rewrite !(transpose01_involutive T B).
Qed.
End layout_agreement.

(** * Gold tags outside the tag range *)

Section gold_range.
Context {V : Type} `{Score V} `{LogSumExp V}.

Lemma gather1_out_of_range {A : Type} (u : list A) (k : Z) :
  (k < 0 ∨ Z.of_nat (length u) ≤ k)%Z → gather1 u k = None.
Proof.
  intros Hk. unfold gather1. case_bool_decide; [|done].
  apply lookup_ge_None. lia.
Qed.

(** X20.  A gold tag outside [0, N) is never masked out: wherever it is
    stored, at a padded position or before the length, and whatever the
    lengths are, [score_sentence] and [neg_log_loss] raise. *)
Theorem gold_tag_out_of_range_is_rejected (self : CRF V)
    (unary : list (list (list V))) (tags : list (list Z)) (lengths : list Z)
    (batch_size t b : nat) (unary_t : list (list V)) (u : list V)
    (tags_t : list Z) (k : Z) :
  time_major self unary !! t = Some unary_t → unary_t !! b = Some u →
  time_major self tags !! t = Some tags_t → tags_t !! b = Some k →
  (k < 0 ∨ Z.of_nat (length u) ≤ k)%Z →
  score_sentence self (time_major self unary) (time_major self tags) lengths batch_size
  = None ∧
  neg_log_loss self unary tags lengths = None.
Proof.
  intros Hut Hu Htt Hk Hrange.
  assert (Hs : ∀ B, score_sentence self (time_major self unary) (time_major self tags)
                      lengths B = None).
  { intros B. unfold score_sentence, score_sentence_on. cbn [tail].
    case_bool_decide; [done|].
    destruct (zip_withM _ (_ :: time_major self tags) (time_major self tags));
      [cbn [mbind option_bind] | done].
    rewrite (zip_withM_None (zip_withM gather1) _ _ t unary_t tags_t Hut Htt); [done|].
    apply (zip_withM_None gather1 _ _ b u k Hu Hk).
    by apply gather1_out_of_range. }
  split; [apply Hs|]. unfold neg_log_loss. rewrite Hs.
  by destruct (forward self _ lengths _).
Qed.
End gold_range.

(** * The loss of a batch that is not padded to its longest element *)

Section negative_loss.
Local Open Scope R_scope.
#[local] Existing Instance score_inhabited.

Lemma crf_fresh_R_ok : crf_ok crf_fresh_R 4 0 3.
Proof. shape_tac. Qed.

Lemma ln_4_le_2 : ln (INR 4) <= 2.
Proof.
  replace (INR 4) with (2 * 2) by (cbn; lra).
  rewrite ln_mult by lra. pose proof ln_2_le_1. lra.
Qed.

(** C4 fails on the code.  On a fresh layer, with two elements of length 1
    in a batch padded to three steps and gold tags in range, [forward]
    stops at the length of an element while [score_sentence] sums its three
    steps (the mask of [sequence_mask(lengths)] has one step, used at each
    step): the forward score is at most 9, the gold score is 15, and the
    loss [neg_log_loss] returns is negative. *)
Theorem neg_log_loss_negative :
  crf_ok crf_fresh_R 4 0 3 ∧ shape3 3 2 4 (time_major crf_fresh_R unary_padded_R) ∧
  tags_ok 3 2 4 (time_major crf_fresh_R tags_padded) ∧ lengths_ok 3 2 [1; 1]%Z ∧
  ∃ fwd gold,
    forward_at crf_fresh_R (time_major crf_fresh_R unary_padded_R) [1; 1]%Z 2 0
    = Some fwd ∧
    gold_score_at crf_fresh_R (time_major crf_fresh_R unary_padded_R)
      (time_major crf_fresh_R tags_padded) [1; 1]%Z 2 0 = Some gold ∧
    loss_at crf_fresh_R unary_padded_R tags_padded [1; 1]%Z 0 = Some (fwd - gold) ∧
    fwd <= 9 ∧ gold = 15 ∧ fwd - gold < 0.
Proof.
  assert (Hun : shape3 3 2 4 (time_major crf_fresh_R unary_padded_R)) by shape_tac.
  assert (Htags : tags_ok 3 2 4 (time_major crf_fresh_R tags_padded)) by shape_tac.
  assert (Hlen : lengths_ok 3 2 [1; 1]%Z) by shape_tac.
  split; [exact crf_fresh_R_ok|]. split; [done|]. split; [done|]. split; [done|].
  set (us := [[0; 5; 0; 0]; [0; 5; 0; 0]; [0; 5; 0; 0]] : list (list R)).
  destruct (loss_at_unmasked crf_fresh_R 3 2 4 0 3 unary_padded_R tags_padded [1; 1]%Z
              0 us [1; 1; 1]%Z crf_fresh_R_ok Hun Htags Hlen)
    as [Hgold Hloss]; [shape_tac..|].
  cbv zeta in Hgold, Hloss.
  set (gold := sum_scores (step_scores (transitions crf_fresh_R) 0 us
                             (Z.to_nat <$> [1; 1; 1]%Z))
               ⊕ (transitions crf_fresh_R !!! 3%nat)
                   !!! List.last (Z.to_nat <$> take 1 [1; 1; 1]%Z) 0%nat) in *.
  assert (Hg : gold = 15) by (unfold gold, us; cbn; change (Z.to_nat 1) with 1%nat; cbn; lra).
  set (fwd := forward1 (transitions crf_fresh_R) 0 3 (take 1 us)) in *.
  assert (Hfwd : forward_at crf_fresh_R (time_major crf_fresh_R unary_padded_R)
                   [1; 1]%Z 2 0 = Some fwd).
  { apply (forward_at_element crf_fresh_R 3 2 4 0 3 unary_padded_R [1; 1]%Z 0 1%Z us);
      [exact crf_fresh_R_ok | shape_tac..]. }
  assert (Hf : fwd <= 9).
  { destruct (forward1_viterbi1_bounds 4 0 3 (transitions crf_fresh_R) (take 1 us))
      as [_ Hub]; [lia | lia | shape_tac | shape_tac |].
    fold fwd in Hub.
    destruct (viterbi1_weighted_optimal 4 0 3 (transitions crf_fresh_R) (take 1 us))
      as [(j & Hj & Hatt) _]; [lia | lia | shape_tac | shape_tac |].
    destruct (viterbi1_valid_path 4 0 3 (transitions crf_fresh_R) (take 1 us))
      as [Hpl Hpr]; [lia | lia | shape_tac | shape_tac |].
    destruct (viterbi1 (transitions crf_fresh_R) 0 3 (take 1 us)) as [path score].
    cbn [fst snd] in *.
    destruct path as [|t [|t' path]]; try done.
    apply Forall_cons_1 in Hpr as [Ht _].
    assert (Hsc : score <= 5).
    { rewrite <- Hatt. clear Hatt Hub.
      do 4 (destruct j as [|j]; [do 4 (destruct t as [|t]; [cbn; lra|]); lia|]). lia. }
    pose proof ln_4_le_2 as Hln.
    change (INR (S (length (take 1 us)))) with (INR 2) in Hub.
    replace (INR 2) with 2 in Hub by (cbn; lra). lra. }
  exists fwd, gold. split; [done|]. split; [done|]. split; [exact Hloss|].
  split; [done|]. split; [done|]. lra.
Qed.
End negative_loss.

(** * The further properties at concrete inputs *)

(** Shapes, ranges and bounds of concrete real inputs. *)
Ltac bound_tac :=
  repeat first [ split | reflexivity | lia | lra | constructor ].

Example extra_repr_chain :
  extra_repr crf_chain = "n_tags=4, batch_first=False, masked=True".
Proof. reflexivity. Qed.

Section further_witnesses.
Local Open Scope R_scope.
#[local] Existing Instance score_inhabited.

Lemma lengths_beyond_width_are_clamped_witness :
  (∃ paths scores,
     decode crf_chain_R unary_pair_R [5; 1]%Z = Some (paths, scores) ∧
     decode crf_chain_R unary_pair_R ((λ l, l `min` Z.of_nat 3)%Z <$> [5; 1]%Z)
     = Some (paths, scores) ∧
     length paths = 2%nat ∧
     ∀ b l path, [5; 1]%Z !! b = Some l → paths !! b = Some path →
       Z.of_nat (length path) = (l `min` Z.of_nat 3)%Z) ∧
  (∃ fwd,
     forward crf_chain_R (time_major crf_chain_R unary_pair_R) [5; 1]%Z 2 = Some fwd ∧
     forward crf_chain_R (time_major crf_chain_R unary_pair_R)
       ((λ l, l `min` Z.of_nat 3)%Z <$> [5; 1]%Z) 2 = Some fwd).
Proof.
  apply (lengths_beyond_width_are_clamped crf_chain_R 3 2 4 0 3 unary_pair_R [5; 1]%Z);
    [exact crf_chain_R_ok | shape_tac..].
Defined.

Lemma zero_length_element_witness :
  (∃ score,
     decode_at crf_chain_R unary_pair_R [3; 0]%Z 1 = Some ([], score) ∧
     (∃ j, zip_with sadd (init_alpha 4 0) (transitions crf_chain_R !!! 3%nat) !! j
           = Some score) ∧
     ∀ x, x ∈ zip_with sadd (init_alpha 4 0) (transitions crf_chain_R !!! 3%nat) →
          x ⊑ score) ∧
  forward_at crf_chain_R (time_major crf_chain_R unary_pair_R) [3; 0]%Z 2 1
  = Some (vec_log_sum_exp
            (zip_with sadd (init_alpha 4 0) (transitions crf_chain_R !!! 3%nat))).
Proof.
  apply (zero_length_element crf_chain_R 3 2 4 0 3 unary_pair_R [3; 0]%Z 1);
    [exact crf_chain_R_ok | shape_tac..].
Defined.

Lemma zero_length_gold_score_witness :
  gold_score_at crf_chain_R (time_major crf_chain_R unary_pair_R)
    (time_major crf_chain_R tags_pair) [3; 0]%Z 2 1
  = Some ((transitions crf_chain_R !!! 3%nat) !!! 0%nat) ∧
  loss_at crf_chain_R unary_pair_R tags_pair [3; 0]%Z 1
  = Some (vec_log_sum_exp
            (zip_with sadd (init_alpha 4 0) (transitions crf_chain_R !!! 3%nat))
          ⊖ (transitions crf_chain_R !!! 3%nat) !!! 0%nat).
Proof.
  apply (zero_length_gold_score crf_chain_R 3 2 4 0 3 unary_pair_R tags_pair [3; 0]%Z 1);
    [exact crf_chain_R_ok | shape_tac..].
Defined.

Lemma length_out_of_range_is_rejected_witness :
  score_sentence crf_chain_R unary_pair_R (time_major crf_chain_R tags_pair)
    [3; 4]%Z 2 = None ∧
  neg_log_loss crf_chain_R unary_pair_R tags_pair [3; 4]%Z = None.
Proof.
  apply (length_out_of_range_is_rejected crf_chain_R unary_pair_R tags_pair [3; 4]%Z
           2 1 4%Z); [reflexivity | right; cbn; lia].
Defined.

Lemma negative_indices_wrap_witness :
  forward crf_chain_neg_R unary_pair_R [3; 1]%Z 2
  = forward (with_idxs crf_chain_neg_R
               (start_idx crf_chain_neg_R `mod` Z.of_nat 4,
                end_idx crf_chain_neg_R `mod` Z.of_nat 4)%Z) unary_pair_R [3; 1]%Z 2 ∧
  score_sentence crf_chain_neg_R unary_pair_R tags_pair [3; 1]%Z 2
  = score_sentence (with_idxs crf_chain_neg_R
                      (start_idx crf_chain_neg_R `mod` Z.of_nat 4,
                       end_idx crf_chain_neg_R `mod` Z.of_nat 4)%Z)
      unary_pair_R tags_pair [3; 1]%Z 2 ∧
  (shape3 3 2 4 (time_major crf_chain_neg_R unary_pair_R) → (0 < 2)%nat →
   decode crf_chain_neg_R unary_pair_R [3; 1]%Z
   = decode (with_idxs crf_chain_neg_R
               (start_idx crf_chain_neg_R `mod` Z.of_nat 4,
                end_idx crf_chain_neg_R `mod` Z.of_nat 4)%Z) unary_pair_R [3; 1]%Z).
Proof.
  apply (negative_indices_wrap crf_chain_neg_R 3 2 4 unary_pair_R tags_pair [3; 1]%Z);
    [reflexivity | shape_tac | cbn; lia | cbn; lia].
Defined.

Lemma forward_within_decode_bounds_witness :
  ∃ fwd path score,
    forward_at crf_chain_R (time_major crf_chain_R unary_pair_R) [3; 1]%Z 2 0 = Some fwd ∧
    decode_at crf_chain_R unary_pair_R [3; 1]%Z 0 = Some (path, score) ∧
    score <= fwd ∧ fwd <= score + (IZR 3 + 1) * ln (INR 4).
Proof.
  apply (forward_within_decode_bounds crf_chain_R 3 2 4 0 3 unary_pair_R [3; 1]%Z 0 3%Z);
    [exact crf_chain_R_ok | shape_tac..].
Defined.

Lemma loss_emission_shift_witness :
  is_Some (loss_at crf_chain_R unary_pair_R tags_pair [3; 1]%Z 0) ∧
  loss_at crf_chain_R unary_pair_shifted_R tags_pair [3; 1]%Z 0
  = loss_at crf_chain_R unary_pair_R tags_pair [3; 1]%Z 0.
Proof.
  apply (loss_emission_shift crf_chain_R 3 2 4 0 3 unary_pair_R unary_pair_shifted_R
           tags_pair [3; 1]%Z 0 3%Z
           [[-10000; 5; 0; -10000]; [-10000; 0; 5; -10000]; [-10000; 3; 3; -10000]]
           1 7);
    [exact crf_chain_R_ok | shape_tac..].
Defined.

Lemma viterbi_norm_same_paths_witness :
  ∃ paths scores,
    viterbi unary_pair_R (transitions crf_chain_R) [3; 1]%Z (Z.of_nat 0) (Z.of_nat 3)
    = Some (paths, scores) ∧
    viterbi_norm unary_pair_R (transitions crf_chain_R) [3; 1]%Z
      (Z.of_nat 0) (Z.of_nat 3) true
    = Some (paths, (λ s, s - ln (1 + INR (4 - 1) * exp (-10000))) <$> scores).
Proof.
  apply (viterbi_norm_same_paths 3 2 4 0 3 unary_pair_R (transitions crf_chain_R)
           [3; 1]%Z); shape_tac.
Defined.

Lemma masked_transitions_are_not_decoded_witness :
  ∃ path score,
    decode_at crf_chain_R unary_small_R [2%Z] 0 = Some (path, score) ∧
    allowed_from [[true; true; true; true]; [false; true; true; true];
                  [true; false; true; true]; [true; true; false; true]] 3 0 path = true ∧
    score = path_score (transitions crf_chain_R) 0 3 [[0; 5; 0; 0]; [0; 0; 5; 0]] path ∧
    ∀ q, valid_path 4 (Z.to_nat 2) q →
      path_score (transitions crf_chain_R) 0 3 [[0; 5; 0; 0]; [0; 0; 5; 0]] q <= score.
Proof.
  apply (masked_transitions_are_not_decoded crf_chain_R 2 1 4 0 3 _ 5 unary_small_R
           [2%Z] 0 2%Z [[0; 5; 0; 0]; [0; 0; 5; 0]] [1; 2]%nat);
    [exact crf_chain_R_ok | reflexivity | bound_tac..].
Defined.

Lemma loss_padding_and_batch_independence_witness :
  is_Some (loss_at crf_chain_R unary_pair_R tags_pair [3; 1]%Z 1) ∧
  loss_at crf_chain_R unary_pair_R tags_pair [3; 1]%Z 1
  = loss_at crf_chain_R unary_alone_R [[2%Z]] [1%Z] 0 ∧
  gold_score_at crf_chain_R (time_major crf_chain_R unary_pair_R)
    (time_major crf_chain_R tags_pair) [3; 1]%Z 2 1
  = gold_score_at crf_chain_R (time_major crf_chain_R unary_alone_R)
      (time_major crf_chain_R [[2%Z]]) [1%Z] 1 0.
Proof.
  apply (loss_padding_and_batch_independence crf_chain_R 3 2 1 1 4 0 3
           unary_pair_R unary_alone_R tags_pair [[2%Z]] [3; 1]%Z [1%Z] 1 0 1%Z
           [[-10000; 0; 5; -10000]; [1; 2; 3; 4]; [4; 3; 2; 1]]
           [[-10000; 0; 5; -10000]] [2; 0; 0]%Z [2%Z]);
    [exact crf_chain_R_ok | shape_tac..].
Defined.

Lemma all_valid_mask_is_no_mask_witness :
  transitions crf_open_R = transitions_p crf_open_R ∧
  forward crf_open_R unary_pair_R [3; 1]%Z 2
  = forward (without_mask crf_open_R) unary_pair_R [3; 1]%Z 2 ∧
  score_sentence crf_open_R unary_pair_R tags_pair [3; 1]%Z 2
  = score_sentence (without_mask crf_open_R) unary_pair_R tags_pair [3; 1]%Z 2 ∧
  neg_log_loss crf_open_R unary_pair_R tags_pair [3; 1]%Z
  = neg_log_loss (without_mask crf_open_R) unary_pair_R tags_pair [3; 1]%Z ∧
  decode crf_open_R unary_pair_R [3; 1]%Z
  = decode (without_mask crf_open_R) unary_pair_R [3; 1]%Z.
Proof.
  apply (all_valid_mask_is_no_mask crf_open_R 4 (replicate 4 (replicate 4 false))
           unary_pair_R tags_pair [3; 1]%Z 2); [reflexivity | shape_tac..].
Defined.

Lemma forward_score_monotone_witness :
  ∃ fwd fwd',
    forward_at crf_chain_R (time_major crf_chain_R unary_pair_R) [3; 1]%Z 2 0 = Some fwd ∧
    forward_at crf_chain_R (time_major crf_chain_R unary_pair_shifted_R) [3; 1]%Z 2 0
    = Some fwd' ∧
    fwd <= fwd'.
Proof.
  apply (forward_score_monotone crf_chain_R 3 2 4 0 3 unary_pair_R unary_pair_shifted_R
           [3; 1]%Z 0 3%Z
           [[-10000; 5; 0; -10000]; [-10000; 0; 5; -10000]; [-10000; 3; 3; -10000]]
           [[-10000; 5; 0; -10000]; [-10000 + 7; 0 + 7; 5 + 7; -10000 + 7];
            [-10000; 3; 3; -10000]]);
    [exact crf_chain_R_ok | shape_tac | shape_tac | shape_tac | shape_tac | shape_tac
    | shape_tac |].
  cbn [take Z.to_nat Pos.to_nat Pos.iter_op Init.Nat.add].
  repeat constructor; apply R_sleb_le; lra.
Defined.

Lemma batch_first_layouts_agree_witness :
  decode (with_batch_first crf_chain_R true) (transpose01 unary_pair_R) [3; 1]%Z
  = decode (with_batch_first crf_chain_R false) unary_pair_R [3; 1]%Z ∧
  neg_log_loss (with_batch_first crf_chain_R true) (transpose01 unary_pair_R)
    (transpose01 tags_pair) [3; 1]%Z
  = neg_log_loss (with_batch_first crf_chain_R false) unary_pair_R tags_pair [3; 1]%Z.
Proof.
  apply (batch_first_layouts_agree crf_chain_R 3 2 unary_pair_R tags_pair [3; 1]%Z);
    shape_tac.
Defined.

Lemma gold_tag_out_of_range_is_rejected_witness :
  score_sentence crf_chain_R (time_major crf_chain_R unary_pair_R)
    (time_major crf_chain_R [[1; 2]; [2; 7]; [2; 0]]%Z) [3; 1]%Z 2 = None ∧
  neg_log_loss crf_chain_R unary_pair_R [[1; 2]; [2; 7]; [2; 0]]%Z [3; 1]%Z = None.
Proof.
  apply (gold_tag_out_of_range_is_rejected crf_chain_R unary_pair_R
           [[1; 2]; [2; 7]; [2; 0]]%Z [3; 1]%Z 2 1 1
           [[-10000; 0; 5; -10000]; [1; 2; 3; 4]] [1; 2; 3; 4] [2; 7]%Z 7%Z);
    [reflexivity | reflexivity | reflexivity | reflexivity | right; cbn; lia].
Defined.
End further_witnesses.

Lemma decode_score_monotone_witness :
  ∃ path score path' score',
    decode_at crf_chain unary_pair [3; 1]%Z 0 = Some (path, score) ∧
    decode_at crf_chain unary_pair_shifted [3; 1]%Z 0 = Some (path', score') ∧
    score ⊑ score'.
Proof.
  apply (decode_score_monotone crf_chain 3 2 4 0 3 unary_pair unary_pair_shifted
           [3; 1]%Z 0 3%Z
           [[-10000; 5; 0; -10000]; [-10000; 0; 5; -10000]; [-10000; 3; 3; -10000]]%Z
           [[-10000; 5; 0; -10000]; [-9993; 7; 12; -9993]; [-10000; 3; 3; -10000]]%Z);
    [exact crf_chain_ok | shape_tac..].
Defined.

Section fresh_witness.
#[local] Remove Hints Z.inhabited : typeclass_instances.
#[local] Existing Instance score_inhabited.


End fresh_witness.
